(** * Robust JSON extraction, credential rotation and quota computation

    A shallow embedding of the question-generation core:
    [sanitizeJsonString] and [parseJsonRobust] (text repair and the
    six-strategy parser), the API key pool ([getNextGeminiKey],
    [markKeyError], [markKeySuccess]), the completion client
    ([callGeminiAPI]), the quota computation ([calculateTopicQuestions])
    and the structural validation applied before an item is persisted. *)

From Stdlib Require Import NArith ZArith Bool String Ascii Lia.
From Stdlib Require Import Numbers.DecimalString.
From Stdlib Require Import Floats.
From stdpp Require Import base list.

Set Default Proof Using "Type".
Set Warnings "-inexact-float".
Local Open Scope N_scope.

(* ===================================================================== *)
(** ** JavaScript strings and the regular expressions the code uses      *)
(* ===================================================================== *)

Module Js.

(** A JavaScript string is a sequence of UTF-16 code units. *)
Abbreviation char := N (only parsing).
Abbreviation jsstring := (list N) (only parsing).

(** ASCII literals of the source text. *)
Definition lit (s : string) : jsstring :=
  map N_of_ascii (list_ascii_of_string s).

Definition bs : char := 92.      (* backslash *)
Definition dq : char := 34.      (* double quote *)
Definition sq : char := 39.      (* single quote *)
Definition bt : char := 96.      (* backtick *)
Definition sp : char := 32.      (* space *)
Definition us : char := 95.      (* underscore *)

(** [n.toString()] for a non-negative integer, as used in template strings. *)
Definition dec (n : nat) : jsstring :=
  lit (NilEmpty.string_of_uint (Nat.to_uint n)).

(** The class [\s], which is also what [String.prototype.trim] strips:
    WhiteSpace and LineTerminator code units. *)
Definition is_space (c : char) : bool :=
  (c =? 9) || (c =? 10) || (c =? 11) || (c =? 12) || (c =? 13) || (c =? 32)
  || (c =? 160) || (c =? 5760) || ((8192 <=? c) && (c <=? 8202))
  || (c =? 8232) || (c =? 8233) || (c =? 8239) || (c =? 8287)
  || (c =? 12288) || (c =? 65279).

Fixpoint trimStart (s : jsstring) : jsstring :=
  match s with
  | c :: s' => if is_space c then trimStart s' else s
  | [] => []
  end.

Definition trimEnd (s : jsstring) : jsstring := rev (trimStart (rev s)).

Definition trim (s : jsstring) : jsstring := trimEnd (trimStart s).

(** *** Character classes *)

Definition chr (c : char) : char -> bool := fun x => x =? c.

Definition in_range (lo hi : char) : char -> bool :=
  fun x => (lo <=? x) && (x <=? hi).

Definition is_hex : char -> bool :=
  fun x => in_range 48 57 x || in_range 97 102 x || in_range 65 70 x.

Definition is_octal : char -> bool := in_range 48 55.

Definition any_char : char -> bool := fun _ => true.

(** A raw control character: a code unit in 0x00-0x1F, or 0x7F. *)
Definition is_control : char -> bool := fun x => in_range 0 31 x || (x =? 127).

Definition printable (c : char) : Prop := is_control c = false.

(** *** Patterns

    The regular expressions of the source are sequences of single
    characters or classes, greedy repetitions of a class, and the two
    anchors. *)
Inductive atom :=
| Cls (p : char -> bool)
| Rep (p : char -> bool) (lo : nat) (hi : option nat)
| Bol
| Eol.

Definition regex := list atom.

Definition re_lit (s : jsstring) : regex := map (fun c => Cls (chr c)) s.

(** Number of leading code units of [s] in class [p]. *)
Fixpoint span (p : char -> bool) (s : jsstring) : nat :=
  match s with
  | c :: s' => if p c then S (span p s') else 0%nat
  | [] => 0%nat
  end.

Definition span_upto (p : char -> bool) (hi : option nat) (s : jsstring) : nat :=
  match hi with
  | Some h => Nat.min h (span p s)
  | None => span p s
  end.

(** Greedy repetition with backtracking: the longest count first. *)
Fixpoint try_down (k : nat -> option nat) (lo n : nat) : option nat :=
  match n with
  | O => if (lo =? 0)%nat then k 0%nat else None
  | S n' =>
      if (S n' <? lo)%nat then None
      else match k (S n') with
           | Some r => Some r
           | None => try_down k lo n'
           end
  end.

(** [match_here r bol s]: the length of the match of [r] at the start of
    [s], where [bol] says that [s] starts at index 0 of the subject. *)
Fixpoint match_here (r : regex) (bol : bool) (s : jsstring) : option nat :=
  match r with
  | [] => Some 0%nat
  | Cls p :: r' =>
      match s with
      | c :: s' => if p c then option_map S (match_here r' false s') else None
      | [] => None
      end
  | Rep p lo hi :: r' =>
      try_down
        (fun k => option_map (Nat.add k)
                    (match_here r' (bol && (k =? 0)%nat) (skipn k s)))
        lo (span_upto p hi s)
  | Bol :: r' => if bol then match_here r' bol s else None
  | Eol :: r' =>
      match s with
      | [] => match_here r' bol s
      | _ :: _ => None
      end
  end.

(** [s.replace(/r/g, f)] where the callback [f] may update a state (a
    counter, an array it pushes to).  [skip] counts the code units of the
    current match still to be consumed. *)
Fixpoint gsub_st {St : Type} (r : regex) (f : St -> jsstring -> St * jsstring)
    (bol : bool) (skip : nat) (st : St) (s : jsstring) : St * jsstring :=
  match s with
  | [] =>
      match skip, match_here r bol [] with
      | O, Some _ => f st []
      | _, _ => (st, [])
      end
  | c :: s' =>
      match skip with
      | S k => gsub_st r f false k st s'
      | O =>
          match match_here r bol s with
          | Some O =>
              let '(st1, rep) := f st [] in
              let '(st2, out) := gsub_st r f false 0 st1 s' in
              (st2, rep ++ c :: out)
          | Some (S n) =>
              let '(st1, rep) := f st (firstn (S n) s) in
              let '(st2, out) := gsub_st r f false n st1 s' in
              (st2, rep ++ out)
          | None =>
              let '(st2, out) := gsub_st r f false 0 st s' in
              (st2, c :: out)
          end
      end
  end.

(** [s.replace(/r/g, f)] with a pure callback on the matched text. *)
Definition gsub (r : regex) (f : jsstring -> jsstring) (s : jsstring) : jsstring :=
  snd (gsub_st r (fun (_ : unit) m => (tt, f m)) true 0 tt s).

(** [s.replace(/r/g, 'rep')] with a replacement free of [$] patterns. *)
Definition replace_all (r : regex) (rep : jsstring) (s : jsstring) : jsstring :=
  gsub r (fun _ => rep) s.

(** [s.match(/r/)] without the [g] flag: the leftmost match. *)
Fixpoint search (r : regex) (bol : bool) (s : jsstring) : option jsstring :=
  match match_here r bol s with
  | Some n => Some (firstn n s)
  | None =>
      match s with
      | [] => None
      | _ :: s' => search r false s'
      end
  end.

Fixpoint is_prefix (p s : jsstring) : bool :=
  match p, s with
  | [], _ => true
  | a :: p', b :: s' => (a =? b) && is_prefix p' s'
  | _ :: _, [] => false
  end.

(** [s.replace('pat', 'rep')] with a string pattern: the first occurrence
    only. *)
Fixpoint replace_first (pat rep s : jsstring) : jsstring :=
  if is_prefix pat s then rep ++ skipn (length pat) s
  else match s with
       | [] => []
       | c :: s' => c :: replace_first pat rep s'
       end.

(** [s.includes('pat')]. *)
Fixpoint includes (pat s : jsstring) : bool :=
  is_prefix pat s ||
  match s with
  | [] => false
  | _ :: s' => includes pat s'
  end.

(** [s.split(sep)] for a non-empty separator; [cur] is the piece being
    read, reversed. *)
Fixpoint split_go (sep : jsstring) (skip : nat) (cur : jsstring) (s : jsstring)
    : list jsstring :=
  match s with
  | [] => [rev cur]
  | c :: s' =>
      match skip with
      | S k => split_go sep k cur s'
      | O =>
          if is_prefix sep s
          then rev cur :: split_go sep (length sep - 1) [] s'
          else split_go sep 0 (c :: cur) s'
      end
  end.

Definition split (sep s : jsstring) : list jsstring := split_go sep 0 [] s.

Fixpoint join (sep : jsstring) (parts : list jsstring) : jsstring :=
  match parts with
  | [] => []
  | [p] => p
  | p :: rest => p ++ sep ++ join sep rest
  end.

(** [s.indexOf(c)] and [s.lastIndexOf(c)] for a one-character [c];
    [-1] when absent. *)
Fixpoint indexOf_from (c : char) (i : Z) (s : jsstring) : Z :=
  match s with
  | [] => (-1)%Z
  | x :: s' => if x =? c then i else indexOf_from c (i + 1)%Z s'
  end.

Definition indexOf (c : char) (s : jsstring) : Z := indexOf_from c 0%Z s.

Fixpoint lastIndexOf_from (c : char) (i : Z) (found : Z) (s : jsstring) : Z :=
  match s with
  | [] => found
  | x :: s' => lastIndexOf_from c (i + 1)%Z (if x =? c then i else found) s'
  end.

Definition lastIndexOf (c : char) (s : jsstring) : Z :=
  lastIndexOf_from c 0%Z (-1)%Z s.

(** [s.substring(a, b)]: both ends are clamped to [0 .. length] and
    swapped when [a > b]. *)
Definition clamp (s : jsstring) (i : Z) : nat :=
  Nat.min (Z.to_nat i) (length s).

Definition substring (a b : Z) (s : jsstring) : jsstring :=
  let a' := clamp s a in
  let b' := clamp s b in
  let lo := Nat.min a' b' in
  let hi := Nat.max a' b' in
  firstn (hi - lo) (skipn lo s).

(** [s.substring(a)]. *)
Definition substring_from (a : Z) (s : jsstring) : jsstring :=
  skipn (clamp s a) s.

End Js.

Import Js.

(* ===================================================================== *)
(** ** The text sanitizer: [sanitizeJsonString]                          *)
(* ===================================================================== *)

Module Sanitizer.

(** A pattern character under the [i] flag: for the ASCII characters of
    the source's patterns only the two ASCII cases of a letter
    canonicalize to the same code unit. *)
Definition ascii_upper (x : char) : char :=
  if in_range 97 122 x then x - 32 else x.

Definition chr_ci (c : char) : char -> bool :=
  fun x => ascii_upper x =? ascii_upper c.

Definition re_lit_ci (s : jsstring) : regex := map (fun c => Cls (chr_ci c)) s.

Definition fence : jsstring := [bt; bt; bt].

(** [/^\s*json\s*/gi] *)
Definition json_tag : regex :=
  Bol :: Rep is_space 0 None :: re_lit_ci (lit "json") ++ [Rep is_space 0 None].

(** Step 1: markdown fences, a leading [json] tag, [trim]. *)
Definition strip_markdown (jsonString : jsstring) : jsstring :=
  let cleaned := replace_all (re_lit_ci (fence ++ lit "json")) [] jsonString in
  let cleaned := replace_all (re_lit_ci (fence ++ lit "javascript")) [] cleaned in
  let cleaned := replace_all (re_lit_ci (fence ++ lit "js")) [] cleaned in
  let cleaned := replace_all (re_lit fence) [] cleaned in
  let cleaned := replace_all json_tag [] cleaned in
  trim cleaned.

Definition escapeProtector : jsstring := lit "___ESCAPE___".

(** [/\\n/g] and its siblings: a backslash followed by one character. *)
Definition re_escape (c : char) : regex := [Cls (chr bs); Cls (chr c)].

(** Step 2a: protect the escape sequences already present. *)
Definition protect_escapes (cleaned : jsstring) : jsstring :=
  let cleaned := replace_all (re_escape 110) (escapeProtector ++ lit "n") cleaned in
  let cleaned := replace_all (re_escape 114) (escapeProtector ++ lit "r") cleaned in
  let cleaned := replace_all (re_escape 116) (escapeProtector ++ lit "t") cleaned in
  let cleaned := replace_all (re_escape 102) (escapeProtector ++ lit "f") cleaned in
  let cleaned := replace_all (re_escape 98) (escapeProtector ++ lit "b") cleaned in
  let cleaned := replace_all (re_escape dq) (escapeProtector ++ lit "quote") cleaned in
  replace_all (re_escape bs) (escapeProtector ++ lit "backslash") cleaned.

(** [[\x00-\x08\x0B-\x0C\x0E-\x1F\x7F]] *)
Definition control_class (c : char) : bool :=
  in_range 0 8 c || in_range 11 12 c || in_range 14 31 c || (c =? 127).

(** Step 2b: raw control characters, then newline, carriage return and
    tab, each to one space. *)
Definition blank_controls (cleaned : jsstring) : jsstring :=
  let cleaned := replace_all [Cls control_class] [sp] cleaned in
  let cleaned := replace_all [Cls (chr 10)] [sp] cleaned in
  let cleaned := replace_all [Cls (chr 13)] [sp] cleaned in
  replace_all [Cls (chr 9)] [sp] cleaned.

(** Step 2c: restore the protected sequences, in the order of the source:
    n, r, t, f, b, quote, backslash. *)
Definition restore_escapes (cleaned : jsstring) : jsstring :=
  let cleaned := replace_all (re_lit (escapeProtector ++ lit "n")) [bs; 110] cleaned in
  let cleaned := replace_all (re_lit (escapeProtector ++ lit "r")) [bs; 114] cleaned in
  let cleaned := replace_all (re_lit (escapeProtector ++ lit "t")) [bs; 116] cleaned in
  let cleaned := replace_all (re_lit (escapeProtector ++ lit "f")) [bs; 102] cleaned in
  let cleaned := replace_all (re_lit (escapeProtector ++ lit "b")) [bs; 98] cleaned in
  let cleaned := replace_all (re_lit (escapeProtector ++ lit "quote")) [bs; dq] cleaned in
  replace_all (re_lit (escapeProtector ++ lit "backslash")) [bs; bs] cleaned.

(** Step 3: the quote classes as the source file has them (both members of
    each class are the plain ASCII quote), and the three code units
    U+00E2 U+20AC U+00A6 to three dots. *)
Definition fix_quotes (cleaned : jsstring) : jsstring :=
  let cleaned := replace_all [Cls (fun x => (x =? dq) || (x =? dq))] [dq] cleaned in
  let cleaned := replace_all [Cls (fun x => (x =? sq) || (x =? sq))] [sq] cleaned in
  replace_all (re_lit [226; 8364; 166]) (lit "...") cleaned.

(** Step 4: [\u] escapes. *)
Definition validUnicodePattern : regex :=
  [Cls (chr bs); Cls (chr 117); Rep is_hex 4 (Some 4%nat)].

Definition unicode_placeholder (index : nat) : jsstring :=
  lit "___VALID_UNICODE_" ++ dec index ++ lit "___".

(** The callback pushes the match to [validUnicodes] and returns the
    placeholder numbered by the array's previous length. *)
Definition protect_unicode (cleaned : jsstring) : list jsstring * jsstring :=
  gsub_st validUnicodePattern
    (fun validUnicodes m =>
       (validUnicodes ++ [m], unicode_placeholder (length validUnicodes)))
    true 0 [] cleaned.

(** [validUnicodes.forEach((unicode, index) => cleaned = cleaned.replace(placeholder, unicode))] *)
Fixpoint restore_unicode (index : nat) (validUnicodes : list jsstring)
    (cleaned : jsstring) : jsstring :=
  match validUnicodes with
  | [] => cleaned
  | unicode :: rest =>
      restore_unicode (S index) rest
        (replace_first (unicode_placeholder index) unicode cleaned)
  end.

Definition fix_unicode (cleaned : jsstring) : jsstring :=
  let '(validUnicodes, cleaned) := protect_unicode cleaned in
  let cleaned :=
    replace_all [Cls (chr bs); Cls (chr 117); Cls (fun x => negb (x =? us))]
      (lit "u") cleaned in
  let cleaned := replace_all [Cls (chr bs); Cls (chr 117); Eol] (lit "u") cleaned in
  restore_unicode 0 validUnicodes cleaned.

(** [[}\]]] *)
Definition is_closer (c : char) : bool := (c =? 125) || (c =? 93).

(** [/,(\s*[}\]])/g] *)
Definition trailing_comma : regex :=
  [Cls (chr 44); Rep is_space 0 None; Cls is_closer].

(** Step 5: the pattern above with ['$1']: group 1 is the match without
    its first character. *)
Definition strip_trailing_commas (cleaned : jsstring) : jsstring :=
  gsub trailing_comma (fun m => tail m) cleaned.

(** Step 6: [/\s+/g] to one space. *)
Definition collapse_spaces (cleaned : jsstring) : jsstring :=
  replace_all [Rep is_space 1 None] [sp] cleaned.

(** The negated class of step 7: anything but the double quote, the
    backslash, the slash and the letters b f n r t u. *)
Definition not_json_escape (c : char) : bool :=
  negb ((c =? dq) || (c =? bs) || (c =? 47) || (c =? 98) || (c =? 102)
        || (c =? 110) || (c =? 114) || (c =? 116) || (c =? 117)).

(** Step 7: a backslash followed by a character of that class, replaced by
    ['$1'], the character alone. *)
Definition drop_invalid_escapes (cleaned : jsstring) : jsstring :=
  gsub [Cls (chr bs); Cls not_json_escape] (fun m => tail m) cleaned.

(** [[\x00-\x08\x0B\x0C\x0E-\x1F\x7F]] *)
Definition control_class_final (c : char) : bool :=
  in_range 0 8 c || (c =? 11) || (c =? 12) || in_range 14 31 c || (c =? 127).

(** Step 8: hex and octal escape remnants, remaining control characters. *)
Definition final_safety (cleaned : jsstring) : jsstring :=
  let cleaned :=
    replace_all [Cls (chr bs); Cls (chr 120); Rep is_hex 0 (Some 2%nat)] [] cleaned in
  let cleaned := replace_all [Cls (chr bs); Rep is_octal 1 (Some 3%nat)] [] cleaned in
  replace_all [Cls control_class_final] [] cleaned.

Definition sanitizeJsonString (jsonString : jsstring) : jsstring :=
  let cleaned := strip_markdown jsonString in
  let cleaned := protect_escapes cleaned in
  let cleaned := blank_controls cleaned in
  let cleaned := restore_escapes cleaned in
  let cleaned := fix_quotes cleaned in
  let cleaned := fix_unicode cleaned in
  let cleaned := strip_trailing_commas cleaned in
  let cleaned := collapse_spaces cleaned in
  let cleaned := drop_invalid_escapes cleaned in
  final_safety cleaned.

End Sanitizer.

Import Sanitizer.

(* ===================================================================== *)
(** ** Inputs the sanitizer only normalizes the whitespace of            *)
(* ===================================================================== *)

Module Steady.

(** A code unit no pattern of the sanitizer starts from: not a backslash,
    not a backtick, not U+00E2, and not a control character other than
    whitespace. *)
Definition inert (c : char) : bool :=
  negb ((c =? bs) || (c =? bt) || (c =? 226) || (is_control c && negb (is_space c))).

(** Text made of such code units, in which the placeholder prefix of
    step 2 does not occur, no comma stands before a closing bracket, and
    which does not open with a [json] tag. *)
Definition steady (x : jsstring) : Prop :=
  Forall (fun c => inert c = true) x
  /\ includes escapeProtector x = false
  /\ search trailing_comma true x = None
  /\ search json_tag true x = None.

(** Every run of whitespace to one space; [in_space] says that the run
    has started. *)
Fixpoint squeeze (in_space : bool) (s : jsstring) : jsstring :=
  match s with
  | [] => []
  | c :: s' =>
      if is_space c
      then (if in_space then squeeze true s' else sp :: squeeze true s')
      else c :: squeeze false s'
  end.

(** What the sanitizer makes of a steady text. *)
Definition normal (x : jsstring) : jsstring := squeeze false (trim x).

(** The code unit step 2b leaves in place of [c]. *)
Definition blank (c : char) : char :=
  let c := if control_class c then sp else c in
  let c := if chr 10 c then sp else c in
  let c := if chr 13 c then sp else c in
  if chr 9 c then sp else c.

(** After optional whitespace, a closing bracket. *)
Fixpoint closer_follows (s : jsstring) : bool :=
  match s with
  | [] => false
  | c :: s' => if is_space c then closer_follows s' else is_closer c
  end.

Fixpoint comma_before_closer (s : jsstring) : bool :=
  match s with
  | [] => false
  | c :: s' => ((c =? 44) && closer_follows s') || comma_before_closer s'
  end.

(** [s] starts with one code unit of each class, in order. *)
Fixpoint starts_with (classes : list (char -> bool)) (s : jsstring) : bool :=
  match classes, s with
  | [], _ => true
  | p :: classes', c :: s' => p c && starts_with classes' s'
  | _ :: _, [] => false
  end.

(** The four letters of the tag, in either case. *)
Definition starts_json (s : jsstring) : bool :=
  starts_with [chr_ci 106; chr_ci 115; chr_ci 111; chr_ci 110] s.

(** A class that rejects whitespace. *)
Definition solid (p : char -> bool) : Prop := forall c, is_space c = true -> p c = false.

(** A text for the examples: an array with stray whitespace and a line
    break. *)
Definition sample : jsstring :=
  lit "  [ {'topic_id': 7,   'options': ['a',  'b']" ++ [10; 9] ++ lit "} ]  ".

(** No whitespace at the start. *)
Definition no_lead (s : jsstring) : bool :=
  match s with
  | c :: _ => negb (is_space c)
  | [] => true
  end.

End Steady.

(* ===================================================================== *)
(** ** The multi-strategy parser: [parseJsonRobust]                      *)
(* ===================================================================== *)

Module Parser.

Inductive expected := ExpArray | ExpObject.

Definition openChar (t : expected) : char :=
  match t with ExpArray => 91 | ExpObject => 123 end.

Definition closeChar (t : expected) : char :=
  match t with ExpArray => 93 | ExpObject => 125 end.

(** [/\[[\s\S]*\]/] or [/\{[\s\S]*\}/] *)
Definition bracket_pattern (t : expected) : regex :=
  [Cls (chr (openChar t)); Rep any_char 0 None; Cls (chr (closeChar t))].

(** A strategy returns the parsed value or throws; [inr] carries
    [error.message]. *)
Definition outcome (V : Type) : Type := V + jsstring.

Definition throw {V : Type} (message : string) : outcome V := inr (lit message).

(** [[\x00-\x1F\x7F-\x9F]] *)
Definition control_class4 (c : char) : bool := in_range 0 31 c || in_range 127 159 c.

(** [[\x00-\x09\x0B-\x1F\x7F-\x9F]] *)
Definition control_class5 (c : char) : bool :=
  in_range 0 9 c || in_range 11 31 c || in_range 127 159 c.

(** The [escapeMap] of strategy 4, in insertion order. *)
Definition escapeMap : list (jsstring * jsstring) :=
  [ ([bs; 110], lit "___NEWLINE___");
    ([bs; 114], lit "___RETURN___");
    ([bs; 116], lit "___TAB___");
    ([bs; dq], lit "___QUOTE___");
    ([bs; bs], lit "___BACKSLASH___");
    ([bs; 102], lit "___FORMFEED___");
    ([bs; 98], lit "___BACKSPACE___") ].

Definition protect_map (m : list (jsstring * jsstring)) (cleaned : jsstring) : jsstring :=
  fold_left (fun cleaned '(escaped, placeholder) =>
               join placeholder (split escaped cleaned)) m cleaned.

Definition restore_map (m : list (jsstring * jsstring)) (cleaned : jsstring) : jsstring :=
  fold_left (fun cleaned '(escaped, placeholder) =>
               join escaped (split placeholder cleaned)) m cleaned.

(** The cleaning of strategy 4.  Its fifth pattern is [/^json\\s*/gi]: the
    tag, a backslash, then any number of the letter s. *)
Definition aggressive_clean (response : jsstring) : jsstring :=
  let cleaned := replace_all (re_lit_ci (fence ++ lit "json")) [] response in
  let cleaned := replace_all (re_lit_ci (fence ++ lit "javascript")) [] cleaned in
  let cleaned := replace_all (re_lit_ci (fence ++ lit "js")) [] cleaned in
  let cleaned := replace_all (re_lit fence) [] cleaned in
  let cleaned :=
    replace_all (Bol :: re_lit_ci (lit "json")
                   ++ [Cls (chr bs); Rep (chr_ci 115) 0 None]) [] cleaned in
  let cleaned := trim cleaned in
  let cleaned := protect_map escapeMap cleaned in
  let cleaned := replace_all [Cls control_class4] [sp] cleaned in
  let cleaned := restore_map escapeMap cleaned in
  let cleaned := fix_quotes cleaned in
  replace_all [Rep is_space 1 None] [sp] cleaned.

(** The callback of strategy 5: a fresh numbered placeholder, recorded in
    [protectionMap] with the sequence it stands for. *)
Definition protection := (nat * list (jsstring * jsstring))%type.

Definition protected_placeholder (n : nat) : jsstring :=
  lit "___PROTECTED_" ++ dec n ++ lit "___".

Definition protect_seq (seq : jsstring) (st : protection) (str : jsstring)
    : protection * jsstring :=
  gsub_st (re_lit seq)
    (fun '(protectionCounter, protectionMap) _ =>
       let placeholder := protected_placeholder protectionCounter in
       ((S protectionCounter, protectionMap ++ [(placeholder, seq)]), placeholder))
    true 0 st str.

Fixpoint protect_seqs (seqs : list jsstring) (st : protection) (str : jsstring)
    : protection * jsstring :=
  match seqs with
  | [] => (st, str)
  | seq :: rest => let '(st, str) := protect_seq seq st str in protect_seqs rest st str
  end.

Definition last_char (m : jsstring) : jsstring :=
  match last m with Some c => [c] | None => [] end.

(** Step 3 of strategy 5. *)
Definition clean_formatting (str : jsstring) : jsstring :=
  let str := replace_all [Rep is_space 1 None] [sp] str in
  let str := gsub [Cls (chr 44); Rep is_space 0 None; Cls is_closer] last_char str in
  let str := replace_all [Cls (chr dq); Rep is_space 1 None; Cls (chr 58)] [dq; 58] str in
  let str := replace_all [Cls (chr 58); Rep is_space 1 None; Cls (chr dq)] [58; dq] str in
  let str := replace_all [Cls (chr 44); Rep is_space 1 None; Cls (chr dq)] [44; dq] str in
  let str := replace_all [Cls (chr 123); Rep is_space 1 None; Cls (chr dq)] [123; dq] str in
  let str := replace_all [Cls (chr 91); Rep is_space 1 None] [91] str in
  let str := replace_all [Rep is_space 1 None; Cls (chr 93)] [93] str in
  replace_all [Rep is_space 1 None; Cls (chr 125)] [125] str.

Definition rebuild (str : jsstring) : jsstring :=
  let '(st, str) :=
    protect_seqs [[bs; dq]; [bs; bs]; [bs; 110]; [bs; 114]; [bs; 116]; [bs; 102]; [bs; 98]]
      (0%nat, []) str in
  let str := replace_all [Cls control_class5] [sp] str in
  let str := clean_formatting str in
  fold_left (fun str '(placeholder, original) => join original (split placeholder str))
    (snd st) str.

(** The loop of strategy 6 from index [i]: the index at which the depth
    first returns to zero, or [-1]. *)
Fixpoint balance (o c : char) (depth : Z) (i : Z) (s : jsstring) : Z :=
  match s with
  | [] => (-1)%Z
  | x :: s' =>
      let depth := if x =? o then (depth + 1)%Z else depth in
      let depth := if x =? c then (depth - 1)%Z else depth in
      if (depth =? 0)%Z then i else balance o c depth (i + 1)%Z s'
  end.

Section WithJsonParse.

(** [JSON.parse]: the parsed value, or the message of the [SyntaxError]
    it throws. *)
Context {V : Type} (JSON_parse : jsstring -> outcome V).

Definition strategy1 (response : jsstring) (t : expected) : outcome V :=
  match search (bracket_pattern t) true response with
  | None => throw "No JSON found in response"
  | Some m => JSON_parse (sanitizeJsonString m)
  end.

Definition strategy2 (response : jsstring) (t : expected) : outcome V :=
  let startIdx := indexOf (openChar t) response in
  if (startIdx =? -1)%Z then throw "No opening bracket found"
  else JSON_parse (sanitizeJsonString (substring_from startIdx response)).

Definition strategy3 (response : jsstring) (t : expected) : outcome V :=
  let firstIdx := indexOf (openChar t) response in
  let lastIdx := lastIndexOf (closeChar t) response in
  if (firstIdx =? -1)%Z || (lastIdx =? -1)%Z || (lastIdx <=? firstIdx)%Z
  then throw "Invalid bracket positions"
  else JSON_parse (sanitizeJsonString (substring firstIdx (lastIdx + 1) response)).

Definition strategy4 (response : jsstring) (t : expected) : outcome V :=
  match search (bracket_pattern t) true (aggressive_clean response) with
  | None => throw "No JSON after aggressive cleaning"
  | Some m => JSON_parse m
  end.

Definition strategy5 (response : jsstring) (t : expected) : outcome V :=
  let firstIdx := indexOf (openChar t) response in
  let lastIdx := lastIndexOf (closeChar t) response in
  if (firstIdx =? -1)%Z || (lastIdx =? -1)%Z
  then throw "Cannot find JSON boundaries"
  else JSON_parse (rebuild (substring firstIdx (lastIdx + 1) response)).

Definition strategy6 (response : jsstring) (t : expected) : outcome V :=
  let startIdx := indexOf (openChar t) response in
  if (startIdx =? -1)%Z then throw "No opening bracket found"
  else
    let endIdx :=
      balance (openChar t) (closeChar t) 0 startIdx (substring_from startIdx response) in
    if (endIdx =? -1)%Z then throw "No matching closing bracket found"
    else JSON_parse (sanitizeJsonString (substring startIdx (endIdx + 1) response)).

Definition strategies (response : jsstring) (t : expected) : list (outcome V) :=
  [ strategy1 response t; strategy2 response t; strategy3 response t;
    strategy4 response t; strategy5 response t; strategy6 response t ].

(** The [for] loop over the strategies: the first result, or the
    [errors] array with one entry per strategy. *)
Fixpoint run_strategies (i : nat) (errors : list jsstring) (todo : list (outcome V))
    : V + list jsstring :=
  match todo with
  | [] => inr errors
  | inl result :: _ => inl result
  | inr message :: rest =>
      run_strategies (S i)
        (errors ++ [lit "Strategy " ++ dec (i + 1) ++ lit ": " ++ message]) rest
  end.

Definition failure_message : jsstring :=
  lit "Failed to parse AI response. Please try again.".

Definition parseJsonRobust (response : jsstring) (t : expected) : outcome V :=
  match run_strategies 0 [] (strategies response t) with
  | inl result => inl result
  | inr errors => inr failure_message
  end.

End WithJsonParse.

End Parser.

(* ===================================================================== *)
(** ** The API key pool                                                  *)
(* ===================================================================== *)

Module KeyPool.

(** The value [markKeyError] is handed as [errorMessage] and stores in
    [lastError].  Both are declared strings, but the client also passes
    what the body of an error response carried as [error.message], which
    is whatever JSON value the provider put there.  Of such a value the
    code calls the [includes] method only: a string has one, an array has
    one (it looks for an item equal to its argument), and a number, a
    boolean or an object has none. *)
Inductive error_message :=
| Str (s : jsstring)
| Arr (items : list (option jsstring))   (* [Some s]: an item that is the string [s] *)
| Opaque.                                (* a number, [true] or an object *)

Record ApiKeyState := mkKeyState {
  key : jsstring;
  usageCount : nat;
  errorCount : nat;
  lastError : option error_message;
  lastUsedAt : option Z;
  isActive : bool
}.

(** The two module-level variables. *)
Record Pool := mkPool {
  API_KEY_STATES : list ApiKeyState;
  currentKeyIndex : nat
}.

Definition initial : Pool := mkPool [] 0.

(** What a call throws. *)
Inductive exn :=
| Error (message : jsstring)
| TypeError.   (* a property read on [undefined] or [null], or a call of
                  what is not a function *)

Definition is_blank (s : jsstring) : bool :=
  match trim s with [] => true | _ :: _ => false end.

Definition setGeminiApiKeys (keys : list jsstring) (p : Pool) : (unit + exn) * Pool :=
  let validKeys := List.filter (fun k => negb (is_blank k)) keys in
  match validKeys with
  | [] => (inr (Error (lit "No valid API keys provided")), p)
  | _ :: _ =>
      (inl tt,
       mkPool (map (fun k => mkKeyState (trim k) 0 0 None None true) validKeys) 0)
  end.

(** The [while] loop of [getNextGeminiKey]: [k] iterations are left,
    starting at [selectedIndex]. *)
Inductive scan_result :=
| Found (selectedIndex : nat) (keyState : ApiKeyState)
| AllInactive
| Undefined.   (* [API_KEY_STATES[selectedIndex]] is [undefined] *)

Fixpoint scan (states : list ApiKeyState) (k : nat) (selectedIndex : nat) : scan_result :=
  match k with
  | O => AllInactive
  | S k' =>
      match states !! selectedIndex with
      | None => Undefined
      | Some keyState =>
          if isActive keyState then Found selectedIndex keyState
          else scan states k' ((selectedIndex + 1) mod length states)
      end
  end.

Definition use_key (now : Z) (s : ApiKeyState) : ApiKeyState :=
  mkKeyState (key s) (S (usageCount s)) (errorCount s) (lastError s) (Some now) (isActive s).

Definition reset_key (s : ApiKeyState) : ApiKeyState :=
  mkKeyState (key s) (usageCount s) 0 (lastError s) (lastUsedAt s) true.

(** [getNextGeminiKey], with [now] for [Date.now()].  The function calls
    itself after the bulk reset; [fuel] bounds the depth of that
    recursion and [None] means the bound was reached. *)
Fixpoint getNextGeminiKey_rec (fuel : nat) (now : Z) (p : Pool)
    : option ((jsstring * nat + exn) * Pool) :=
  match fuel with
  | O => None
  | S fuel' =>
      let states := API_KEY_STATES p in
      if (length states =? 0)%nat
      then Some (inr (Error (lit "No Gemini API keys configured. Please add API keys first.")), p)
      else
        match scan states (length states) (currentKeyIndex p) with
        | Found selectedIndex keyState =>
            Some (inl (key keyState, selectedIndex),
                  mkPool (<[selectedIndex := use_key now keyState]> states)
                         ((selectedIndex + 1) mod length states))
        | Undefined => Some (inr TypeError, p)
        | AllInactive =>
            getNextGeminiKey_rec fuel' now
              (mkPool (map reset_key states) (currentKeyIndex p))
        end
  end.

(** One level of recursion is all the function ever needs (see
    [getNextGeminiKey_fuel]). *)
Definition getNextGeminiKey (now : Z) (p : Pool) : option ((jsstring * nat + exn) * Pool) :=
  getNextGeminiKey_rec 2 now p.

Definition mark_error (errorMessage : error_message) (s : ApiKeyState) : ApiKeyState :=
  let errorCount' := S (errorCount s) in
  mkKeyState (key s) (usageCount s) errorCount' (Some errorMessage) (lastUsedAt s)
    (if (3 <=? errorCount')%nat then false else isActive s).

(** [keyIndex] is an index returned by [getNextGeminiKey], hence not
    negative; the guard's upper bound is the lookup. *)
Definition markKeyError (keyIndex : nat) (errorMessage : error_message) (p : Pool) : Pool :=
  match API_KEY_STATES p !! keyIndex with
  | Some keyState =>
      mkPool (<[keyIndex := mark_error errorMessage keyState]> (API_KEY_STATES p))
             (currentKeyIndex p)
  | None => p
  end.

Definition mark_success (s : ApiKeyState) : ApiKeyState :=
  mkKeyState (key s) (usageCount s) 0 None (lastUsedAt s) (isActive s).

Definition markKeySuccess (keyIndex : nat) (p : Pool) : Pool :=
  match API_KEY_STATES p !! keyIndex with
  | Some keyState =>
      mkPool (<[keyIndex := mark_success keyState]> (API_KEY_STATES p)) (currentKeyIndex p)
  | None => p
  end.

(** The states the module's variables can take: from the initial one by
    the four functions that write them. *)
Inductive reachable : Pool -> Prop :=
| reach_initial : reachable initial
| reach_set keys p r p' :
    reachable p -> setGeminiApiKeys keys p = (r, p') -> reachable p'
| reach_next now p r p' :
    reachable p -> getNextGeminiKey now p = Some (r, p') -> reachable p'
| reach_error i m p : reachable p -> reachable (markKeyError i m p)
| reach_success i p : reachable p -> reachable (markKeySuccess i p).

(** The scenario of the specification: three keys, then three failures
    recorded against each. *)
Definition three_keys : Pool :=
  (setGeminiApiKeys [lit "key-1"; lit "key-2"; lit "key-3"] initial).2.

Definition fail3 (i : nat) (p : Pool) : Pool :=
  markKeyError i (Str (lit "quota exceeded"))
    (markKeyError i (Str (lit "quota exceeded"))
       (markKeyError i (Str (lit "quota exceeded")) p)).

Definition all_failed : Pool := fail3 2 (fail3 1 (fail3 0 three_keys)).

(** Successive selections, each one at the time the list gives: the
    indexes returned, and the pool left. *)
Fixpoint select_many (times : list Z) (p : Pool) : list nat * Pool :=
  match times with
  | [] => ([], p)
  | now :: rest =>
      match getNextGeminiKey now p with
      | Some (inl (_, i), p') => let '(indexes, q) := select_many rest p' in (i :: indexes, q)
      | _ => ([], p)
      end
  end.

(** The cursor points into the pool whenever the pool is not empty. *)
Definition cursor_ok (p : Pool) : Prop :=
  API_KEY_STATES p = [] \/ (currentKeyIndex p < length (API_KEY_STATES p))%nat.

End KeyPool.

(* ===================================================================== *)
(** ** The completion client: [callGeminiAPI]                            *)
(* ===================================================================== *)

Module Client.
Import KeyPool.

(** The body of a successful response, as far as the client reads it. *)
Record response_data := mkData {
  (** [data.candidates && data.candidates[0] && data.candidates[0].content] *)
  has_content : bool;
  (** [data.promptFeedback?.blockReason], when truthy *)
  blockReason : option jsstring;
  (** [content.parts && content.parts[0]?.text], when truthy *)
  text : option jsstring
}.

(** What one request to the provider comes to.  For a response that is
    not [ok], [errorMessage] is the value the code computes from the
    body: the body's text, or the truthy [error.message] of the body read
    as JSON. *)
Inductive fetch_result :=
| Rejected (message : jsstring)                       (* [fetch] or a body read throws *)
| NotOk (status : Z) (errorMessage : error_message)   (* [!response.ok] *)
| Ok (data : response_data).

(** What the client leaves behind: the pool, the key indexes it sent a
    request with (latest first), and the time spent in [setTimeout]. *)
Record state := mkState {
  pool : Pool;
  requests : list nat;
  slept : Z
}.

Definition sleep (ms : Z) (st : state) : state :=
  mkState (pool st) (requests st) (slept st + ms).

Definition with_pool (f : Pool -> Pool) (st : state) : state :=
  mkState (f (pool st)) (requests st) (slept st).

(** How the [try] block of one iteration ends. *)
Inductive try_result :=
| Return (responseText : jsstring)
| Continue
| Throw (message : jsstring).

(** [errorMessage.includes(searchString)]; [None] when the value has no
    such method and the call throws a [TypeError]. *)
Definition message_includes (searchString : jsstring) (errorMessage : error_message)
    : option bool :=
  match errorMessage with
  | Str s => Some (includes searchString s)
  | Arr items => Some (existsb (fun item => bool_decide (item = Some searchString)) items)
  | Opaque => None
  end.

(** [a && b], where [b] is evaluated only when [a] holds. *)
Definition and_then (a : bool) (b : option bool) : option bool :=
  if a then b else Some false.

(** The message of the [TypeError] thrown by the call of a missing
    [includes], with the text V8 gives it. *)
Definition no_includes : jsstring := lit "errorMessage.includes is not a function".

(** The [try] block, after the request returned [r]. *)
Definition try_block (keyIndex : nat) (r : fetch_result) (st : state) : try_result * state :=
  match r with
  | Rejected message => (Throw message, st)
  | NotOk status errorMessage =>
      let st := with_pool (markKeyError keyIndex errorMessage) st in
      match and_then (status =? 403)%Z
              (message_includes (lit "unregistered callers") errorMessage) with
      | None => (Throw no_includes, st)
      | Some true => (Continue, sleep 10000 st)
      | Some false =>
          match and_then (status =? 400)%Z
                  (message_includes (lit "API key not valid") errorMessage) with
          | None => (Throw no_includes, st)
          | Some true => (Continue, st)
          | Some false =>
              if (status =? 429)%Z || (500 <=? status)%Z
              then (Continue, sleep 10000 st)
              else (Continue, sleep 10000 st)
          end
      end
  | Ok data =>
      if negb (has_content data) then
        match blockReason data with
        | Some reason => (Throw (lit "Content blocked by Gemini: " ++ reason), st)
        | None =>
            let st := with_pool (markKeyError keyIndex
                                   (Str (lit "Invalid response structure"))) st in
            (Continue, sleep 10000 st)
        end
      else
        match text data with
        | None =>
            let st := with_pool (markKeyError keyIndex
                                   (Str (lit "No text content in response"))) st in
            (Continue, sleep 10000 st)
        | Some responseText =>
            (Return responseText, with_pool (markKeySuccess keyIndex) st)
        end
  end.

Definition exhausted_message (attemptCount : nat) : jsstring :=
  lit "Failed to generate content after " ++ dec attemptCount
  ++ lit " attempts across all API keys. Please check your API keys and try again.".

Section WithProvider.

(** The provider's answer to the request of attempt [n] sent with a key,
    and the clock read by [Date.now()] during attempt [n]. *)
Context (provider : nat -> jsstring -> fetch_result) (clock : nat -> Z).

(** The [while (attemptCount < maxTotalRetries)] loop.  [remaining] is
    [maxTotalRetries - attemptCount], the number of iterations left. *)
Fixpoint attempts (maxTotalRetries remaining attemptCount : nat) (st : state)
    : option ((jsstring + exn) * state) :=
  match remaining with
  | O => Some (inr (Error (exhausted_message attemptCount)), st)
  | S remaining' =>
      let attemptCount := S attemptCount in
      match getNextGeminiKey (clock attemptCount) (pool st) with
      | None => None
      | Some (inr e, p) => Some (inr e, mkState p (requests st) (slept st))
      | Some (inl (apiKey, keyIndex), p) =>
          let st := mkState p (keyIndex :: requests st) (slept st) in
          match try_block keyIndex (provider attemptCount apiKey) st with
          | (Return responseText, st) => Some (inl responseText, st)
          | (Continue, st) => attempts maxTotalRetries remaining' attemptCount st
          | (Throw message, st) =>
              (* the [catch] clause *)
              let st := with_pool (markKeyError keyIndex (Str message)) st in
              let st := if (attemptCount <? maxTotalRetries)%nat
                        then sleep 10000 st else st in
              attempts maxTotalRetries remaining' attemptCount st
          end
      end
  end.

(** [None] stands for a call that does not return; [callGeminiAPI_returns]
    shows there is none. *)
Definition callGeminiAPI (prompt : jsstring) (st : state)
    : option ((jsstring + exn) * state) :=
  let maxTotalRetries := (length (API_KEY_STATES (pool st)) * 3)%nat in
  if is_blank prompt then Some (inr (Error (lit "Prompt cannot be empty")), st)
  else attempts maxTotalRetries maxTotalRetries 0 st.

End WithProvider.

(** Providers for the scenarios: one that answers every request with a
    content-safety block, one that blocks the first request only, one
    that is down. *)
Definition blocked_response : fetch_result :=
  Ok (mkData false (Some (lit "SAFETY")) None).

Definition always_blocked : nat -> jsstring -> fetch_result :=
  fun _ _ => blocked_response.

Definition blocked_once : nat -> jsstring -> fetch_result :=
  fun n _ => if (n =? 1)%nat then blocked_response
             else Ok (mkData true None (Some (lit "[]"))).

Definition server_down : nat -> jsstring -> fetch_result :=
  fun _ _ => NotOk 503 (Str (lit "Service Unavailable")).

Definition fresh (p : Pool) : state := mkState p [] 0.

End Client.

(* ===================================================================== *)
(** ** Quota computation: [calculateTopicQuestions]                      *)
(* ===================================================================== *)

Module Quota.

Local Open Scope float_scope.

(** JavaScript numbers are IEEE 754 binary64 values, as Rocq's primitive
    floats are. *)
Definition number := float.

(** [ToBoolean] of a number: false for [+0], [-0] and [NaN]. *)
Definition to_boolean (x : number) : bool :=
  negb ((x =? 0) || PrimFloat.is_nan x).

(** [x || d] *)
Definition or_else (x d : number) : number := if to_boolean x then x else d.

(** An integer of magnitude below 2^53, as a number. *)
Definition of_small_Z (z : Z) : number :=
  if (z <? 0)%Z then - PrimFloat.of_uint63 (Uint63.of_Z (- z))
  else PrimFloat.of_uint63 (Uint63.of_Z z).

(** [array.length] as a number. *)
Definition of_length (n : nat) : number := of_small_Z (Z.of_nat n).

(** [Math.round]: the nearest integer, ties towards +infinity; zeros,
    infinities and [NaN] are returned as they are, and a result of zero
    keeps the sign of the argument.  A finite [x] is [±m * 2^e]; with
    [e < 0] the result is [floor (x + 1/2)], computed exactly. *)
Definition Math_round (x : number) : number :=
  match Prim2SF x with
  | S754_finite s m e =>
      if (0 <=? e)%Z then x
      else
        let v := if s then (- Z.pos m)%Z else Z.pos m in
        let r := ((2 * v + 2 ^ (- e)) / 2 ^ (1 - e))%Z in
        if (r =? 0)%Z then (if s then -0 else 0) else of_small_Z r
  | _ => x
  end.

(** [Math.max] of two numbers: [NaN] if either is, and [+0] above [-0]. *)
Definition Math_max (a b : number) : number :=
  if PrimFloat.is_nan a || PrimFloat.is_nan b then nan
  else if a <? b then b
  else if b <? a then a
  else match PrimFloat.classify a with NZero => b | _ => a end.

Record Topic := mkTopic {
  id : jsstring;
  name : jsstring;
  weightage : number
}.

(** [{...topic, questionsToGenerate}] *)
Record TopicPlan := mkPlan {
  topic : Topic;
  questionsToGenerate : number
}.

Record Calculation := mkCalculation {
  topics : list TopicPlan;
  totalQuestionsToGenerate : number;
  extraQuestionsCount : nat
}.

(** [(topic.weightage || 0) > 0] *)
Definition hasWeightage (t : Topic) : bool := 0 <? or_else (weightage t) 0.

(** [(topic.weightage || 0) === 0] *)
Definition hasNoWeightage (t : Topic) : bool := or_else (weightage t) 0 =? 0.

Definition calculateTopicQuestions (topics : list Topic) (totalQuestions : number)
    : Calculation :=
  let topicsWithWeightage := List.filter hasWeightage topics in
  let topicsWithoutWeightage := List.filter hasNoWeightage topics in
  let totalWeightage :=
    fold_left (fun sum t => sum + or_else (weightage t) 0.02) topicsWithWeightage 0 in
  let shouldGenerateForZeroWeightage := 500 <=? totalQuestions in
  let extraQuestionsCount :=
    if shouldGenerateForZeroWeightage then length topicsWithoutWeightage else 0%nat in
  let result :=
    map (fun t =>
           let topicWeightage := or_else (weightage t) 0 in
           if topicWeightage =? 0
           then mkPlan t (if shouldGenerateForZeroWeightage then 1 else 0)
           else mkPlan t (Math_max 1 (Math_round
                            ((topicWeightage / totalWeightage) * totalQuestions))))
        topics in
  mkCalculation result (totalQuestions + of_length extraQuestionsCount) extraQuestionsCount.

(** The per-topic target of [loadStats], which repeats the computation. *)
Definition statsTarget (topics : list Topic) (totalTarget : number) (t : Topic) : number :=
  let topicsWithWeightage := List.filter hasWeightage topics in
  let totalWeightage :=
    fold_left (fun sum t => sum + or_else (weightage t) 0.02) topicsWithWeightage 0 in
  let shouldGenerateForZeroWeightage := 500 <=? totalTarget in
  let topicWeightage := or_else (weightage t) 0 in
  if topicWeightage =? 0
  then (if shouldGenerateForZeroWeightage then 1 else 0)
  else Math_max 1 (Math_round ((topicWeightage / totalWeightage) * totalTarget)).

(** The sum of the weights of the weighted topics. *)
Definition totalWeight (topics : list Topic) : number :=
  fold_left (fun sum t => sum + weightage t) (List.filter hasWeightage topics) 0.

(** The denominator as the specification words it: the weights of the
    weighted topics plus a nominal 0.02 for every zero-weight topic. *)
Definition totalWeight_spec (topics : list Topic) : number :=
  fold_left (fun sum t => sum + or_else (weightage t) 0.02)
    (List.filter (fun t => hasWeightage t || hasNoWeightage t) topics) 0.

Definition quota_spec (topics : list Topic) (T : number) (t : Topic) : number :=
  Math_max 1 (Math_round ((weightage t / totalWeight_spec topics) * T)).

End Quota.

(* ===================================================================== *)
(** ** Structural validation before an item is persisted                 *)
(* ===================================================================== *)

Module Validation.

(** The question type a generation run is configured with. *)
Inductive QuestionType := MCQ | MSQ | NAT | Subjective.

Definition type_name (t : QuestionType) : jsstring :=
  match t with
  | MCQ => lit "MCQ"
  | MSQ => lit "MSQ"
  | NAT => lit "NAT"
  | Subjective => lit "Subjective"
  end.

(** The fields of [ExtractedQuestion] the checks read.  The item comes out
    of [JSON.parse]: a field may be missing ([None]) and [question_type]
    is whatever string the completion carried. *)
Record ExtractedQuestion := mkQuestion {
  question_statement : option jsstring;
  question_type : option jsstring;
  options : option (list jsstring);
  answer : option jsstring;
  solution : option jsstring;
  is_wrong : bool            (* [is_wrong === true] *)
}.

Record validation := mkValidation {
  isValid : bool;
  reason : jsstring
}.

Definition str_eqb (a b : jsstring) : bool := bool_decide (a = b).

(** [!s] for an optional string: missing or empty. *)
Definition falsy (s : option jsstring) : bool :=
  match s with
  | None | Some [] => true
  | Some (_ :: _) => false
  end.

Definition type_is (t : QuestionType) (question : ExtractedQuestion) : bool :=
  match question_type question with
  | Some s => str_eqb s (type_name t)
  | None => false
  end.

Definition validateQuestionAnswer (question : ExtractedQuestion) : validation :=
  if falsy (question_statement question)
     || (length (trim (default [] (question_statement question))) =? 0)%nat
  then mkValidation false (lit "Empty question statement")
  else if falsy (question_type question)
          || negb (existsb (fun t => type_is t question) [MCQ; MSQ; NAT; Subjective])
  then mkValidation false (lit "Invalid question type")
  else if (type_is MCQ question || type_is MSQ question)
          && match options question with
             | None => true
             | Some opts => (length opts =? 0)%nat
             end
  then mkValidation false (lit "MCQ/MSQ questions require options")
  else mkValidation true (lit "Question passes basic validation").

(** What an attempt of the generation loop does with the provider's
    answer, up to the point where the item is written. *)
Inductive verdict :=
| RetryEmptyResponse
| RetryInvalid (reason : jsstring)
| RetryOptionCount (got : nat)
| RetrySelfFlagged
| Save (question : ExtractedQuestion).

Definition with_options (o : option (list jsstring)) (q : ExtractedQuestion)
    : ExtractedQuestion :=
  mkQuestion (question_statement q) (question_type q) o (answer q) (solution q) (is_wrong q).

(** The checks of [generateNewQuestions] on [generatedQuestions], for a
    run configured with [questionType]. *)
Definition checkGenerated (questionType : QuestionType)
    (generatedQuestions : list ExtractedQuestion) : verdict :=
  match generatedQuestions with
  | [] => RetryEmptyResponse
  | question :: _ =>
      let validation := validateQuestionAnswer question in
      if negb (isValid validation) then RetryInvalid (reason validation)
      else
        let count := match options question with Some o => length o | None => 0%nat end in
        if match questionType with MCQ | MSQ => true | _ => false end
           && match options question with
              | None => true
              | Some o => negb (length o =? 4)%nat
              end
        then RetryOptionCount count
        else
          let question :=
            match questionType with
            | NAT | Subjective => with_options None question
            | _ => question
            end in
          if is_wrong question then RetrySelfFlagged else Save question
  end.

(** The item of the specification's scenario, with 3 and with 4 options. *)
Definition three_options : ExtractedQuestion :=
  mkQuestion (Some (lit "Which planet is closest to the Sun?")) (Some (lit "MCQ"))
    (Some [lit "Mercury"; lit "Venus"; lit "Mars"]) (Some (lit "A")) None false.

Definition four_options : ExtractedQuestion :=
  with_options (Some [lit "Mercury"; lit "Venus"; lit "Mars"; lit "Earth"]) three_options.

End Validation.

(* ===================================================================== *)
(** ** The pool under calls that run one after another                   *)
(* ===================================================================== *)

Module Session.
Import KeyPool Client.

(** The pool states reached when the exported functions are called one
    at a time, each call running to its end before the next one starts:
    [setGeminiApiKeys], [getNextGeminiKey] and [callGeminiAPI]
    ([markKeyError] and [markKeySuccess] are not exported and run inside
    [callGeminiAPI] only).  The generator does not always wait: a call
    it gives up after 60 s keeps running while the next one starts, and
    the two then take turns at every [await].  Every state such
    overlapping calls can leave is in [KeyPool.reachable], which lets the
    four functions that write the pool run in any order. *)
Inductive one_at_a_time : Pool -> Prop :=
| turn_initial : one_at_a_time initial
| turn_set keys p r p' :
    one_at_a_time p -> setGeminiApiKeys keys p = (r, p') -> one_at_a_time p'
| turn_next now p r p' :
    one_at_a_time p -> getNextGeminiKey now p = Some (r, p') -> one_at_a_time p'
| turn_call provider clock prompt st r st' :
    one_at_a_time (pool st) ->
    callGeminiAPI provider clock prompt st = Some (r, st') ->
    one_at_a_time (pool st').

(** A key is out of rotation exactly when three errors or more are
    recorded against it, and no more than four are. *)
Definition consistent (s : ApiKeyState) : Prop :=
  isActive s = (errorCount s <? 3)%nat /\ (errorCount s <= 4)%nat.

Definition active_flags (p : Pool) : list bool := map isActive (API_KEY_STATES p).

Definition keys_of (p : Pool) : list jsstring := map key (API_KEY_STATES p).

(** A provider that rejects every key as invalid. *)
Definition invalid_key : nat -> jsstring -> fetch_result :=
  fun _ _ => NotOk 400 (Str (lit "API key not valid. Please pass a valid API key.")).

(** Three keys, the first one out of rotation. *)
Definition first_down : Pool := fail3 0 three_keys.

(** The pool three keys are left in by a call made while the provider is
    down. *)
Definition after_outage : Pool :=
  match callGeminiAPI server_down Z.of_nat (lit "Write one question.") (fresh three_keys) with
  | Some (_, st') => pool st'
  | None => initial
  end.

(** A provider whose first four answers are a 403 with an error body
    whose [error.message] is an object, and which answers after that. *)
Definition unreadable_then_fine : nat -> jsstring -> fetch_result :=
  fun n _ => if (n <? 5)%nat then NotOk 403 Opaque
             else Ok (mkData true None (Some (lit "[]"))).

(** The pool three keys are left in by one call to that provider. *)
Definition after_unreadable : Pool :=
  match callGeminiAPI unreadable_then_fine Z.of_nat (lit "Write one question.")
          (fresh three_keys) with
  | Some (_, st') => pool st'
  | None => initial
  end.

(** Two overlapping calls on a pool of one key.  The first call takes the
    key and waits for its answer; the second one runs meanwhile, against
    a provider that is down, and spends its budget; then the answer to
    the first call arrives, and it is a good one. *)
Definition one_key : Pool := (setGeminiApiKeys [lit "key-1"] initial).2.

Definition overtaken : Pool :=
  match getNextGeminiKey 0 one_key with
  | Some (inl (_, keyIndex), p) =>
      match callGeminiAPI server_down Z.of_nat (lit "Write one question.") (fresh p) with
      | Some (_, st') => markKeySuccess keyIndex (pool st')
      | None => initial
      end
  | _ => initial
  end.

End Session.

(* ===================================================================== *)
(** ** The key list of the generator form                                *)
(* ===================================================================== *)

Module KeyInput.
Import KeyPool.

(** [useState<string[]>(['', '', ''])] *)
Definition initialKeys : list jsstring := [[]; []; []].

Definition getValidApiKeys (apiKeys : list jsstring) : list jsstring :=
  List.filter (fun key => negb (is_blank key)) apiKeys.

Definition addApiKey (apiKeys : list jsstring) : list jsstring :=
  if (length apiKeys <? 100)%nat then apiKeys ++ [[]] else apiKeys.

(** [l.filter((_, i) => keep(i))], the first element having index [i]. *)
Fixpoint filter_index {A : Type} (keep : nat -> bool) (i : nat) (l : list A) : list A :=
  match l with
  | [] => []
  | x :: l' =>
      if keep i then x :: filter_index keep (S i) l' else filter_index keep (S i) l'
  end.

Definition removeApiKey (index : nat) (apiKeys : list jsstring) : list jsstring :=
  if (1 <? length apiKeys)%nat
  then filter_index (fun i => negb (i =? index)%nat) 0 apiKeys
  else apiKeys.

(** [newKeys[index] = value] for the row [index] of the form.  [None]
    stands for an index beyond the rows, where the assignment would leave
    a sparse array; the handler is bound to the rows of [apiKeys] only. *)
Definition updateApiKey (index : nat) (value : jsstring) (apiKeys : list jsstring)
    : option (list jsstring) :=
  if (index <? length apiKeys)%nat then Some (<[index := value]> apiKeys) else None.

(** [[a-zA-Z0-9_-]] *)
Definition key_char (c : char) : bool :=
  in_range 97 122 c || in_range 65 90 c || in_range 48 57 c || (c =? 95) || (c =? 45).

(** [/AIzaSy[a-zA-Z0-9_-]+/g] *)
Definition keyPattern : regex := re_lit (lit "AIzaSy") ++ [Rep key_char 1 None].

(** [s.match(/r/g) || []]: the matches in order, found by the same walk
    as a global replace. *)
Definition match_all (r : regex) (s : jsstring) : list jsstring :=
  (gsub_st r (fun (found : list jsstring) m => (found ++ [m], m)) true 0 [] s).1.

(** [Array.from(new Set(l))]: the first occurrence of each element, in
    order; [seen] holds the elements already in the set. *)
Fixpoint dedupe (seen : list jsstring) (l : list jsstring) : list jsstring :=
  match l with
  | [] => []
  | x :: l' =>
      if bool_decide (elem_of x seen) then dedupe seen l' else x :: dedupe (x :: seen) l'
  end.

Inductive paste_result :=
| NoKeysFound            (* the first [toast.error] *)
| NoKeysAfterCleaning    (* the second [toast.error] *)
| KeysSet (uniqueKeys : list jsstring).

Definition cleanText (pastedText : jsstring) : jsstring :=
  trim (replace_all [Rep (chr 44) 1 None] [44]
          (replace_all [Rep is_space 1 None] [sp] pastedText)).

Definition cleanKey (key : jsstring) : jsstring :=
  replace_all [Cls (chr 44)] [] (trim key).

Definition keyIsValid (key : jsstring) : bool :=
  negb (includes [sp] key) && negb (includes [44] key).

Definition handleBulkApiKeyPaste (pastedText : jsstring) : paste_result :=
  let cleanedText := cleanText pastedText in
  let extractedKeys := match_all keyPattern cleanedText in
  if (length extractedKeys =? 0)%nat then NoKeysFound
  else
    let cleanedKeys := map cleanKey extractedKeys in
    let validKeys := List.filter keyIsValid cleanedKeys in
    if (length validKeys =? 0)%nat then NoKeysAfterCleaning
    else
      let keysToAdd := firstn 100 validKeys in
      KeysSet (dedupe [] keysToAdd).

(** The key list after a paste: [setApiKeys] is reached only when keys
    were found. *)
Definition paste (pastedText : jsstring) (apiKeys : list jsstring) : list jsstring :=
  match handleBulkApiKeyPaste pastedText with
  | KeysSet uniqueKeys => uniqueKeys
  | _ => apiKeys
  end.

(** The values the [apiKeys] state can take. *)
Inductive editable : list jsstring -> Prop :=
| edit_initial : editable initialKeys
| edit_add apiKeys : editable apiKeys -> editable (addApiKey apiKeys)
| edit_remove index apiKeys : editable apiKeys -> editable (removeApiKey index apiKeys)
| edit_update index value apiKeys newKeys :
    editable apiKeys -> updateApiKey index value apiKeys = Some newKeys -> editable newKeys
| edit_paste pastedText apiKeys : editable apiKeys -> editable (paste pastedText apiKeys).

(** Checkpoints 3 and 4 of [startGeneration]. *)
Inductive start_keys :=
| StartNoKeys                 (* no valid key: the run is not started *)
| StartFailed (error : exn)   (* the [catch] around [setGeminiApiKeys] *)
| StartConfigured.

Definition startGeneration_keys (apiKeys : list jsstring) (p : Pool) : start_keys * Pool :=
  let validApiKeys := getValidApiKeys apiKeys in
  if (length validApiKeys =? 0)%nat then (StartNoKeys, p)
  else
    match setGeminiApiKeys validApiKeys p with
    | (inl _, p') => (StartConfigured, p')
    | (inr error, p') => (StartFailed error, p')
    end.

(** A pasted text: two keys, one of them twice, among other words. *)
Definition pasted_sample : jsstring :=
  lit "keys: AIzaSyA-1_b, AIzaSyC2,,  AIzaSyA-1_b and AIzaSy".

End KeyInput.

(* ===================================================================== *)
(** ** Brackets in a response                                            *)
(* ===================================================================== *)

Module Brackets.
Import Parser.

(** Occurrences of [c] in [s]. *)
Definition count (c : char) (s : jsstring) : nat :=
  length (List.filter (fun x => x =? c) s).

(** Opening brackets minus closing brackets in [s]. *)
Definition net (o c : char) (s : jsstring) : Z :=
  (Z.of_nat (count o s) - Z.of_nat (count c s))%Z.

(** A stand-in for [JSON.parse] in the examples: it takes a text that
    opens with a bracket of either kind and returns it as the value. *)
Definition lenient_parse (text : jsstring) : outcome jsstring :=
  match text with
  | c :: _ => if (c =? 91) || (c =? 123) then inl text
              else throw "Unexpected token"
  | [] => throw "Unexpected end of JSON input"
  end.

End Brackets.

(* ===================================================================== *)
(** ** One item of a generation run                                      *)
(* ===================================================================== *)

Module Generation.
Import Validation.

(** The row handed to the [new_questions] table, as far as it comes from
    the generated item and the run's configuration. *)
Record SavedRow := mkRow {
  row_statement : option jsstring;
  row_type : QuestionType;                  (* [question_type: questionType] *)
  row_options : option (list jsstring);
  row_answer : option jsstring;
  row_solution : option jsstring;
  row_is_wrong : option bool                (* [is_wrong: isWrong || null] *)
}.

Definition questionToSave (questionType : QuestionType) (question : ExtractedQuestion)
    : SavedRow :=
  mkRow (question_statement question) questionType (options question)
    (answer question) (solution question)
    (if is_wrong question then Some true else None).

Section WithServices.

(** What [generateQuestionsForTopic] gives on the attempt of that number:
    the items, or the message of the error it (or the 60 s timeout)
    throws; and whether the insert of a row goes through. *)
Context (questionType : QuestionType)
        (generate : nat -> list ExtractedQuestion + jsstring)
        (insert : SavedRow -> bool).

(** The log of an item: the attempts made, and the rows handed to the
    table with the outcome of each insert, latest first. *)
Record item_log := mkLog {
  attempts_made : nat;
  inserts : list (SavedRow * bool)
}.

(** The loop [while (!validQuestionGenerated && attempts < maxAttempts)];
    [remaining] is [maxAttempts - attempts].  The result is
    [validQuestionGenerated]. *)
Fixpoint item_loop (remaining : nat) (log : item_log) : bool * item_log :=
  match remaining with
  | O => (false, log)
  | S remaining' =>
      let attempts := S (attempts_made log) in
      let log := mkLog attempts (inserts log) in
      match generate attempts with
      | inr _ => item_loop remaining' log                 (* the [catch] clause *)
      | inl generatedQuestions =>
          match checkGenerated questionType generatedQuestions with
          | Save question =>
              let row := questionToSave questionType question in
              if insert row
              then (true, mkLog attempts ((row, true) :: inserts log))
              else (false, mkLog attempts ((row, false) :: inserts log))   (* [break] *)
          | _ => item_loop remaining' log                 (* [continue] *)
          end
      end
  end.

Definition maxAttempts : nat := 3.

Definition generate_item : bool * item_log := item_loop maxAttempts (mkLog 0 []).

End WithServices.

(** Services for the examples: a generator that gives the item with four
    options at every attempt, and a table that takes every row. *)
Definition four_options_each_time : nat -> list ExtractedQuestion + jsstring :=
  fun _ => inl [four_options].

Definition accepting_table : SavedRow -> bool := fun _ => true.

(** A run configured for NAT that is given the item of the key-pool
    scenario, typed MCQ, with its four options. *)
Definition mistyped_run : bool * item_log :=
  generate_item NAT (fun _ => inl [four_options]) (fun _ => true).

End Generation.

(* ===================================================================== *)
(** ** The functions built on the client and the parser                  *)
(* ===================================================================== *)

Module Pipeline.
Import KeyPool Client Parser Validation.

(** [error.message] of what [callGeminiAPI] throws.  A [TypeError] comes
    from the key pool only there, with the text V8 gives it. *)
Definition message_of (e : exn) : jsstring :=
  match e with
  | Error message => message
  | TypeError => lit "Cannot read properties of undefined (reading 'isActive')"
  end.

(** [lastError?.message || 'Unknown error'] *)
Definition last_message (lastError : option jsstring) : jsstring :=
  match lastError with
  | Some (c :: m) => c :: m
  | _ => lit "Unknown error"
  end.

(** *** Arguments typed [any]

    [validateQuestionWithGeminiAI] and [generateSolutionsForPYQs] build
    their prompt from questions typed [any], outside their [try] block.
    The expressions of the two templates that can throw are the property
    reads on the question itself ([question.question_statement],
    [pyqs[0].topics], [q.question_statement]) and the method call on its
    options ([question.options ? question.options.join(', ') : 'None'],
    [q.options ? ...q.options.map(...)... : '']); the values put into the
    text are JSON data, whose conversion to a string does not throw.  So
    a question is told apart by what its [options] are. *)
Inductive options_kind :=
| NoOptions      (* missing, [null], or another falsy value *)
| OptionArray    (* an array *)
| NotAnArray.    (* a non-empty string, a non-zero number, [true] or an
                    object: truthy, without a [join] or [map] method *)

(** A question handed over: [None] for [null] or [undefined]. *)
Definition asked : Type := option options_kind.

(** Whether the expressions that read a question go through. *)
Definition readable (question : asked) : bool :=
  match question with
  | Some NoOptions | Some OptionArray => true
  | Some NotAnArray | None => false
  end.

(** *** The retry loop of [generateQuestionsForTopic] and
        [generateSolutionsForPYQs]

    Both functions wrap one completion call and the checks on its answer
    in the same loop; they differ in [maxRetries], in the checks
    ([process], which gives the result or the message of the error
    thrown) and in the text of the final error.  The prompt is a
    template literal evaluated at the top of every iteration, before the
    [try] block: [prompt] is its text, or the error its evaluation
    throws, which then leaves the function. *)
Section RetryLoop.

Context {R : Type}
        (provider : nat -> nat -> jsstring -> fetch_result)
        (clock : nat -> nat -> Z)
        (maxRetries : nat)
        (prompt : jsstring + exn)
        (process : jsstring -> R + jsstring)
        (failure : jsstring).

(** [Math.min(3000 * attempt, 15000)] *)
Definition waitTime (attempt : nat) : Z := Z.min (3000 * Z.of_nat attempt) 15000.

(** The loop [while (attempt < maxRetries)]; [remaining] is
    [maxRetries - attempt].  The provider and the clock of the call made
    by attempt [n] are [provider n] and [clock n]. *)
Fixpoint retry_loop (remaining attempt : nat) (lastError : option jsstring) (st : state)
    : option ((R + exn) * state) :=
  match remaining with
  | O => Some (inr (Error (failure ++ last_message lastError)), st)
  | S remaining' =>
      let attempt := S attempt in
      match prompt with
      | inr e => Some (inr e, st)
      | inl prompt =>
          match callGeminiAPI (provider attempt) (clock attempt) prompt st with
          | None => None
          | Some (response, st) =>
              let outcome :=
                match response with
                | inl response => process response
                | inr e => inr (message_of e)
                end in
              match outcome with
              | inl result => Some (inl result, st)
              | inr message =>
                  (* the [catch] clause *)
                  let st := if (attempt <? maxRetries)%nat
                            then sleep (waitTime attempt) st else st in
                  retry_loop remaining' attempt (Some message) st
              end
          end
      end
  end.

Definition retry : state -> option ((R + exn) * state) :=
  retry_loop maxRetries 0 None.

(** The most the loop itself can wait from attempt [attempt] on, over
    [remaining] attempts. *)
Fixpoint backoff (remaining attempt : nat) : Z :=
  match remaining with
  | O => 0
  | S remaining' =>
      ((if (S attempt <? maxRetries)%nat then waitTime (S attempt) else 0)
       + backoff remaining' (S attempt))%Z
  end.

End RetryLoop.

(** *** [generateQuestionsForTopic] *)

Definition format_error : jsstring := lit "AI response format error. Retrying...".

(** The checks on one parsed item. *)
Definition missing_fields (q : ExtractedQuestion) : bool :=
  falsy (question_statement q) || falsy (question_type q) || falsy (answer q).

Definition wrong_option_count (q : ExtractedQuestion) : bool :=
  (type_is MCQ q || type_is MSQ q)
  && match options q with
     | None => true
     | Some opts => negb (length opts =? 4)%nat
     end.

Section Questions.

Context (JSON_parse : jsstring -> outcome (list ExtractedQuestion)).

(** From the response to the questions returned, or the message of the
    error thrown.  Every error raised between the parse and the end of
    the checks is replaced by the format error. *)
Definition check_questions (response : jsstring) : list ExtractedQuestion + jsstring :=
  if is_blank response then inr (lit "Empty response from Gemini API")
  else
    match parseJsonRobust JSON_parse response ExpArray with
    | inr _ => inr format_error
    | inl questions =>
        if (length questions =? 0)%nat then inr format_error
        else if existsb (fun q => missing_fields q || wrong_option_count q) questions
        then inr format_error
        else inl questions
    end.

Definition generateQuestionsForTopic (provider : nat -> nat -> jsstring -> fetch_result)
    (clock : nat -> nat -> Z) (prompt : jsstring)
    : state -> option ((list ExtractedQuestion + exn) * state) :=
  retry provider clock 8 (inl prompt) check_questions
    (lit "Failed to generate questions after 8 attempts: ").

End Questions.

(** *** [performExtraction] *)

(** What [parseJsonRobust] hands back for a page.  The parser returns
    whatever [JSON.parse] made of the text it settled on, array or not.
    The items of an array go through [{...q, page_number}], which makes
    an object of any of them. *)
Inductive parsed_page :=
| PageArray (questions : list ExtractedQuestion)
| PageNull       (* [null] *)
| PageOther.     (* a number, a string, a boolean or an object *)

(** The message of the [TypeError] that [questions.map] throws on a value
    that is not an array, with the text V8 gives it. *)
Definition no_map (null : bool) : jsstring :=
  if null then lit "Cannot read properties of null (reading 'map')"
  else lit "questions.map is not a function".

Section Extraction.

Context (JSON_parse : jsstring -> outcome parsed_page).

(** The error of the outer [catch]. *)
Definition extraction_error (pageNumber : nat) (message : jsstring) : exn :=
  Error (lit "Failed to extract questions from page " ++ dec pageNumber
         ++ lit ": " ++ message).

(** [performExtraction]: one call.  A response that cannot be parsed
    gives no question; one parsed to a value that is not an array makes
    [questions.map] throw into the outer [catch].  [prompt] is the text
    built from the arguments, which are typed. *)
Definition performExtraction (provider : nat -> jsstring -> fetch_result)
    (clock : nat -> Z) (prompt : jsstring) (pageNumber : nat) (st : state)
    : option ((list ExtractedQuestion + exn) * state) :=
  match callGeminiAPI provider clock prompt st with
  | None => None
  | Some (inr e, st) => Some (inr (extraction_error pageNumber (message_of e)), st)
  | Some (inl response, st) =>
      match parseJsonRobust JSON_parse response ExpArray with
      | inr _ => Some (inl [], st)
      | inl (PageArray questions) => Some (inl questions, st)
      | inl PageNull => Some (inr (extraction_error pageNumber (no_map true)), st)
      | inl PageOther => Some (inr (extraction_error pageNumber (no_map false)), st)
      end
  end.

End Extraction.

(** *** [generateSolutionsForPYQs] *)

Module Pyq.

(** [{ answer: string; solution: string }], either field possibly
    missing in what the completion carried. *)
Record Solution := mkSolution {
  answer : option jsstring;
  solution : option jsstring
}.

End Pyq.

(** What [parseJsonRobust] hands back for the solutions: an array, whose
    items may be [null]; a string; or a value that cannot be iterated. *)
Inductive parsed_solutions :=
| SolutionArray (items : list (option Pyq.Solution))   (* [None]: a [null] item *)
| SolutionText (s : jsstring)
| NotIterable.   (* [null], a number, a boolean or an object *)

(** The loop [for (const solution of solutions)] on an array.  The
    messages of the two errors: the one the code throws, and the one of
    the [TypeError] on a [null] item, with the text V8 gives it. *)
Fixpoint check_items (items : list (option Pyq.Solution)) : list Pyq.Solution + jsstring :=
  match items with
  | [] => inl []
  | None :: _ => inr (lit "Cannot read properties of null (reading 'answer')")
  | Some solution :: items' =>
      if falsy (Pyq.answer solution) || falsy (Pyq.solution solution)
      then inr (lit "Solution missing answer or solution text")
      else match check_items items' with
           | inl solutions => inl (solution :: solutions)
           | inr message => inr message
           end
  end.

Section Solutions.

Context (JSON_parse : jsstring -> outcome parsed_solutions).

(** From the response to the solutions returned, or the message of the
    error thrown.  A string is iterated character by character, and a
    character has no [answer]; the empty string passes the loop and is
    returned as it is,
    which a caller that reads its [length] takes for the empty list. *)
Definition check_solutions (response : jsstring) : list Pyq.Solution + jsstring :=
  match parseJsonRobust JSON_parse response ExpArray with
  | inr _ => inr format_error
  | inl (SolutionArray items) => check_items items
  | inl (SolutionText []) => inl []
  | inl (SolutionText (_ :: _)) => inr (lit "Solution missing answer or solution text")
  | inl NotIterable => inr (lit "solutions is not iterable")
  end.

(** The template of the prompt reads every question. *)
Definition solutions_prompt (pyqs : list asked) (prompt : jsstring) : jsstring + exn :=
  if forallb readable pyqs then inl prompt else inr TypeError.

(** [pyqs] are the questions handed over, an array; [prompt] is what the
    template makes of them and of the topic notes, a string, when it can
    be evaluated. *)
Definition generateSolutionsForPYQs (provider : nat -> nat -> jsstring -> fetch_result)
    (clock : nat -> nat -> Z) (pyqs : list asked) (prompt : jsstring) (st : state)
    : option ((list Pyq.Solution + exn) * state) :=
  if (length pyqs =? 0)%nat then Some (inl [], st)
  else retry provider clock 5 (solutions_prompt pyqs prompt) check_solutions
         (lit "Failed to generate PYQ solutions after 5 attempts: ") st.

End Solutions.

(** *** [validateQuestionWithGeminiAI] *)

Module Ai.

(** [{ isWrong: boolean; reason: string }], as the caller reads it: the
    truth value of [isWrong], and [reason] when it is a string. *)
Record verdict := mkVerdict {
  isWrong : bool;
  reason : option jsstring
}.

End Ai.

Section AiValidation.

(** What [parseJsonRobust] hands back: [None] for [null], on which the
    read of [isWrong] throws; any other value is returned as it is. *)
Context (JSON_parse : jsstring -> outcome (option Ai.verdict)).

(** The template of the prompt reads the question. *)
Definition validation_prompt (question : asked) (prompt : jsstring) : jsstring + exn :=
  if readable question then inl prompt else inr TypeError.

(** The verdict of the outer [catch]. *)
Definition validation_failed (message : jsstring) : Ai.verdict :=
  Ai.mkVerdict false
    (Some (lit "Validation failed: " ++ message ++ lit " - marked as correct by default")).

(** [prompt] is what the template makes of the question when it can be
    evaluated. *)
Definition validateQuestionWithGeminiAI (provider : nat -> jsstring -> fetch_result)
    (clock : nat -> Z) (question : asked) (prompt : jsstring) (st : state)
    : option ((Ai.verdict + exn) * state) :=
  match validation_prompt question prompt with
  | inr e => Some (inr e, st)
  | inl prompt =>
      match callGeminiAPI provider clock prompt st with
      | None => None
      | Some (inr e, st) => Some (inl (validation_failed (message_of e)), st)
      | Some (inl response, st) =>
          match parseJsonRobust JSON_parse response ExpObject with
          | inr _ =>
              Some (inl (Ai.mkVerdict false
                           (Some (lit "Validation skipped - marked as correct"))), st)
          | inl None =>
              Some (inl (validation_failed
                           (lit "Cannot read properties of null (reading 'isWrong')")), st)
          | inl (Some validation) => Some (inl validation, st)
          end
      end
  end.

End AiValidation.


Definition every_call (provider : nat -> jsstring -> fetch_result)
    : nat -> nat -> jsstring -> fetch_result :=
  fun _ => provider.

Definition steady_clock : nat -> nat -> Z := fun _ => Z.of_nat.

Definition prose : nat -> jsstring -> fetch_result :=
  fun _ _ => Ok (mkData true None (Some (lit "Sorry, I cannot help with that."))).

(** A provider that answers with an array, and parsers that read a fixed
    value from any text. *)
Definition array_reply : nat -> jsstring -> fetch_result :=
  fun _ _ => Ok (mkData true None (Some (lit "[{}]"))).

Definition canned {V : Type} (value : V) (text : jsstring) : outcome V := inl value.

Definition solved : Pyq.Solution :=
  Pyq.mkSolution (Some (lit "A")) (Some (lit "Mercury is the innermost planet.")).

(** An answer whose brackets are the wrong way round, and a parser that
    reads the number 5 from the text between them, as [JSON.parse]
    does. *)
Definition swapped : nat -> jsstring -> fetch_result :=
  fun _ _ => Ok (mkData true None (Some (lit "] 5 ["))).

Definition reads_five (text : jsstring) : outcome parsed_page :=
  if str_eqb (trim text) (lit "5") then inl PageOther else throw "Unexpected token".

End Pipeline.

(* ===================================================================== *)
(** ** The LaTeX cleaner: [cleanLatexSyntax]                             *)
(* ===================================================================== *)

Module Latex.

(** One [.replace(/pattern/g, replacement)] of the chain: the pattern,
    and the replacement as a function of the matched text. *)
Definition rule : Type := regex * (jsstring -> jsstring).

Definition apply_rule (cleaned : jsstring) (r : rule) : jsstring :=
  gsub r.1 r.2 cleaned.

(** A replacement free of [$] patterns. *)
Definition literal_rule (pattern replacement : jsstring) : rule :=
  (re_lit pattern, fun _ => replacement).

Definition ackslash : jsstring := lit "ackslash".

(** [/ackslash/g] to one backslash. *)
Definition rule_ackslash : rule := literal_rule ackslash [bs].

(** [[a-zA-Z]] *)
Definition is_letter (c : char) : bool := in_range 97 122 c || in_range 65 90 c.

(** [/\\backslash([a-zA-Z])/g] to ['\\$1']: group 1 is the last code
    unit of the match. *)
Definition rule_backslash_letter : rule :=
  (re_lit (bs :: lit "backslash") ++ [Cls is_letter],
   fun m => bs :: Parser.last_char m).

(** [/\\backslash\{/g], [/\\backslash\}/g] and [/\\backslash /g]. *)
Definition backslash_rules : list rule :=
  [ rule_backslash_letter;
    literal_rule (bs :: lit "backslash{") [bs; 123];
    literal_rule (bs :: lit "backslash}") [bs; 125];
    literal_rule (bs :: lit "backslash ") [bs; sp] ].

Definition rac : jsstring := lit "rac{".

Definition not_backslash (c : char) : bool := negb (c =? bs).

(** [/([^\\])rac\{/g] to ['$1\\frac{']: group 1 is the first code unit of
    the match. *)
Definition rule_frac_after : rule :=
  (Cls not_backslash :: re_lit rac, fun m => firstn 1 m ++ bs :: lit "frac{").

(** [/^rac\{/g] to ['\\frac{']. *)
Definition rule_frac_start : rule :=
  (Bol :: re_lit rac, fun _ => bs :: lit "frac{").

(** [/\srac\{/g] to [' \\frac{']. *)
Definition rule_frac_space : rule :=
  (Cls is_space :: re_lit rac, fun _ => sp :: bs :: lit "frac{").

Definition frac_rules : list rule :=
  [rule_frac_after; rule_frac_start; rule_frac_space].

(** [/\\backslashNAME/g] to ['\\REPLACEMENT']. *)
Definition command (name replacement : string) : rule :=
  literal_rule (bs :: lit "backslash" ++ lit name) (bs :: lit replacement).

Definition same (name : string) : rule := command name name.

Definition lowercase_greek : list rule :=
  map same
    [ "alpha"; "beta"; "gamma"; "delta"; "epsilon"; "zeta"; "eta"; "theta"; "tau";
      "lambda"; "mu"; "nu"; "xi"; "pi"; "rho"; "sigma"; "omega"; "phi"; "psi";
      "chi" ]%string.

Definition uppercase_greek : list rule :=
  map same
    [ "Gamma"; "Delta"; "Theta"; "Lambda"; "Sigma"; "Pi"; "Omega"; "Phi"; "Psi" ]%string.

Definition math_commands : list rule :=
  map same [ "frac"; "sqrt"; "hat"; "vec"; "bar"; "tilde"; "dot"; "ddot"; "infty";
             "int"; "sum"; "prod" ]%string
  ++ [command "ot" "lim"]
  ++ map same [ "limits"; "partial"; "nabla" ]%string.

Definition operators : list rule :=
  map same [ "times"; "div"; "cdot"; "pm"; "mp"; "leq"; "geq"; "neq"; "approx";
             "equiv"; "propto" ]%string.

(** A Greek or operator symbol followed by [ackslash], to one backslash.
    The symbols, by code unit: capital delta, the circled times, alpha to
    epsilon, theta, lambda, mu, sigma, tau, omega, pi, and the capitals
    sigma, pi, omega, lambda, theta, gamma. *)
Definition symbol (c : char) : rule := literal_rule (c :: ackslash) [bs].

Definition symbol_rules : list rule :=
  map symbol [ 916; 8855; 945; 946; 947; 948; 949; 952; 955; 956; 963; 964; 969;
               960; 931; 928; 937; 923; 920; 915 ].

(** The chain, in the order of the source. *)
Definition rules : list rule :=
  rule_ackslash :: backslash_rules ++ frac_rules ++ lowercase_greek
  ++ uppercase_greek ++ math_commands ++ operators ++ symbol_rules.

(** [text] is a string: the guard at the top returns the empty string as
    it is, which is also what the chain makes of it. *)
Definition cleanLatexSyntax (text : jsstring) : jsstring :=
  fold_left apply_rule rules text.

(** Words without a backslash, the letter f or a space: the code units
    the live rules bring in before the text they keep. *)
Definition plain (w : jsstring) : Prop :=
  Forall (fun c => c <> bs /\ c <> 102 /\ c <> sp) w.

(** The four rules that can change a text. *)
Definition live_rules : list rule := rule_ackslash :: frac_rules.

(** A formula the cleaner has nothing to do on. *)
Definition clean_formula : jsstring := bs :: lit "alpha + x^2".

End Latex.


(* ===================================================================== *)
(** * Properties                                                         *)
(* ===================================================================== *)

(** ** Global replacement *)

Module JsFacts.

(** A replacement keeps whatever holds of every code unit of the subject
    and of every replacement text; [I] is an invariant of the callback's
    state. *)
Lemma gsub_st_preserves {St : Type} (I : St -> Prop) (P : char -> Prop)
    (r : regex) (f : St -> jsstring -> St * jsstring) :
  (forall st m, I st -> Forall P m -> I (f st m).1 /\ Forall P (f st m).2) ->
  forall s bol skip st, I st -> Forall P s ->
    I (gsub_st r f bol skip st s).1 /\ Forall P (gsub_st r f bol skip st s).2.
Proof.
  intros Hf. induction s as [|c s IH]; intros bol skip st Hst Hs.
  - simpl. destruct skip; [destruct (match_here r bol [])|]; simpl; auto.
  - pose proof Hs as Hcs. inversion_clear Hs as [|? ? Hc Hs']. simpl.
    destruct skip as [|k]; [|by apply IH].
    destruct (match_here r bol (c :: s)) as [[|n]|] eqn:E.
    + generalize (Hf st [] Hst (Forall_nil_2 _)).
      destruct (f st []) as [st1 rep]. intros [H1 H2].
      generalize (IH false 0%nat st1 H1 Hs').
      destruct (gsub_st r f false 0 st1 s) as [st2 out]. intros [H3 H4].
      split; [done|]. apply Forall_app; split; [done|]. by constructor.
    + assert (Hm : Forall P (c :: firstn n s))
        by (constructor; [done|by apply Forall_take]).
      generalize (Hf st (c :: firstn n s) Hst Hm).
      destruct (f st (c :: firstn n s)) as [st1 rep]. intros [H1 H2].
      generalize (IH false n st1 H1 Hs').
      destruct (gsub_st r f false n st1 s) as [st2 out]. intros [H3 H4].
      split; [done|]. apply Forall_app; by split.
    + generalize (IH false 0%nat st Hst Hs').
      destruct (gsub_st r f false 0 st s) as [st2 out]. intros [H3 H4].
      split; [done|]. by constructor.
Qed.

Lemma gsub_preserves (P : char -> Prop) (r : regex) (f : jsstring -> jsstring) (s : jsstring) :
  (forall m, Forall P m -> Forall P (f m)) ->
  Forall P s -> Forall P (gsub r f s).
Proof.
  intros Hf Hs. unfold gsub.
  apply (gsub_st_preserves (fun _ => True) P r (fun (_ : unit) m => (tt, f m)));
    simpl; auto.
Qed.

Lemma replace_all_preserves (P : char -> Prop) (r : regex) (rep s : jsstring) :
  Forall P rep -> Forall P s -> Forall P (replace_all r rep s).
Proof. intros Hrep Hs. apply gsub_preserves; auto. Qed.

(** Replacing a one-character class rewrites the subject unit by unit. *)
Lemma replace_class_flat_map (p : char -> bool) (rep s : jsstring) :
  replace_all [Cls p] rep s = flat_map (fun c => if p c then rep else [c]) s.
Proof.
  unfold replace_all, gsub. generalize true.
  induction s as [|c s IH]; intros bol; [done|].
  cbn [gsub_st match_here flat_map]. destruct (p c); cbn [option_map].
  - specialize (IH false).
    destruct (gsub_st [Cls p] _ false 0 () s) as [st2 out]. simpl in *. by rewrite IH.
  - specialize (IH false).
    destruct (gsub_st [Cls p] _ false 0 () s) as [st2 out]. simpl in *. by rewrite IH.
Qed.

Lemma replace_class_Forall (Q P : char -> Prop) (p : char -> bool) (rep s : jsstring) :
  Forall Q s -> Forall P rep -> (forall c, Q c -> p c = false -> P c) ->
  Forall P (replace_all [Cls p] rep s).
Proof.
  intros Hs Hrep Hc. rewrite replace_class_flat_map.
  induction Hs as [|c s Hq Hs IH]; simpl; [constructor|].
  apply Forall_app; split; [|done].
  destruct (p c) eqn:E; [done|]. constructor; [by apply Hc|constructor].
Qed.

Lemma replace_first_preserves (P : char -> Prop) (pat rep s : jsstring) :
  Forall P rep -> Forall P s -> Forall P (replace_first pat rep s).
Proof.
  intros Hrep. induction s as [|c s IH]; intros Hs; simpl.
  - destruct (is_prefix pat []); [|done]. apply Forall_app; split; [done|].
    by apply Forall_drop.
  - destruct (is_prefix pat (c :: s)).
    + apply Forall_app; split; [done|]. by apply Forall_drop.
    + inversion_clear Hs. constructor; auto.
Qed.

Lemma trimStart_preserves (P : char -> Prop) (s : jsstring) :
  Forall P s -> Forall P (trimStart s).
Proof.
  induction 1 as [|c s Hc Hs IH]; simpl; [constructor|].
  destruct (is_space c); [done|by constructor].
Qed.

Lemma trim_preserves (P : char -> Prop) (s : jsstring) :
  Forall P s -> Forall P (trim s).
Proof.
  intros Hs. unfold trim, trimEnd.
  apply Forall_rev, trimStart_preserves, Forall_rev. by apply trimStart_preserves.
Qed.

Lemma tail_preserves (P : char -> Prop) (m : jsstring) :
  Forall P m -> Forall P (tail m).
Proof. destruct 1; simpl; [constructor|done]. Qed.

(** The decimal digits of a number. *)
Lemma string_of_uint_digits (d : Decimal.uint) :
  Forall (fun c => in_range 48 57 c = true) (lit (NilEmpty.string_of_uint d)).
Proof. induction d; simpl; constructor; done. Qed.

Lemma dec_digits (n : nat) : Forall (fun c => in_range 48 57 c = true) (dec n).
Proof. apply string_of_uint_digits. Qed.

End JsFacts.

(** ** The sanitizer *)

Module SanitizerFacts.
Import JsFacts.

Lemma printable_forallb (l : jsstring) :
  forallb (fun c => negb (is_control c)) l = true -> Forall printable l.
Proof.
  intros H. apply Forall_forall. intros c Hc.
  apply list_elem_of_In in Hc.
  eapply forallb_forall in H; [|exact Hc]. by apply negb_true_iff in H.
Qed.

Ltac printable_lit := apply printable_forallb; vm_compute; reflexivity.

Lemma digit_printable (c : char) : in_range 48 57 c = true -> printable c.
Proof.
  unfold printable, is_control, in_range. intros H.
  apply andb_true_iff in H as [H1 H2]. apply N.leb_le in H1, H2.
  apply orb_false_iff; split.
  - apply andb_false_iff; right. apply N.leb_gt. lia.
  - apply N.eqb_neq. lia.
Qed.

Lemma unicode_placeholder_printable (index : nat) :
  Forall printable (unicode_placeholder index).
Proof.
  unfold unicode_placeholder. repeat (apply Forall_app; split).
  - printable_lit.
  - eapply Forall_impl; [apply dec_digits|apply digit_printable].
  - printable_lit.
Qed.

(** After step 2b no raw control character is left, whatever the input. *)
Lemma blank_controls_printable (s : jsstring) : Forall printable (blank_controls s).
Proof.
  unfold blank_controls.
  assert (Hsp : forall Q : char -> Prop, Q sp -> Forall Q [sp]) by (by repeat constructor).
  eapply (replace_class_Forall
            (fun c => control_class c = false /\ c <> 10 /\ c <> 13)%N).
  2: printable_lit.
  - eapply (replace_class_Forall (fun c => control_class c = false /\ c <> 10)%N).
    2: by apply Hsp.
    + eapply (replace_class_Forall (fun c => control_class c = false)).
      2: by apply Hsp.
      * eapply (replace_class_Forall (fun _ => True)).
        -- by apply Forall_true.
        -- by apply Hsp.
        -- intros c _ Hc. exact Hc.
      * intros c Hc Hn. split; [done|]. unfold chr in Hn. by apply N.eqb_neq.
    + intros c [Hc H10] Hn. repeat split; try done. unfold chr in Hn. by apply N.eqb_neq.
  - intros c (Hc & H10 & H13) H9. unfold chr in H9. apply N.eqb_neq in H9.
    unfold printable, is_control. unfold control_class, in_range in Hc.
    unfold in_range.
    repeat match goal with
           | H : (_ || _) = false |- _ => apply orb_false_iff in H as [? ?]
           end.
    destruct (N.leb_spec 0 c), (N.leb_spec c 8), (N.leb_spec 11 c), (N.leb_spec c 12),
      (N.leb_spec 14 c), (N.leb_spec c 31), (N.eqb_spec c 127);
      simpl in *; try done; lia.
Qed.

Lemma restore_escapes_printable (s : jsstring) :
  Forall printable s -> Forall printable (restore_escapes s).
Proof.
  intros H. unfold restore_escapes.
  repeat (apply replace_all_preserves; [printable_lit|]). done.
Qed.

Lemma fix_quotes_printable (s : jsstring) :
  Forall printable s -> Forall printable (fix_quotes s).
Proof.
  intros H. unfold fix_quotes.
  repeat (apply replace_all_preserves; [printable_lit|]). done.
Qed.

Lemma restore_unicode_printable (validUnicodes : list jsstring) :
  Forall (Forall printable) validUnicodes ->
  forall index s, Forall printable s ->
    Forall printable (restore_unicode index validUnicodes s).
Proof.
  induction 1 as [|u rest Hu Hrest IH]; intros index s Hs; simpl; [done|].
  apply IH. by apply replace_first_preserves.
Qed.

Lemma fix_unicode_printable (s : jsstring) :
  Forall printable s -> Forall printable (fix_unicode s).
Proof.
  intros H. unfold fix_unicode, protect_unicode.
  generalize (gsub_st_preserves (Forall (Forall printable)) printable
                validUnicodePattern
                (fun validUnicodes m =>
                   (validUnicodes ++ [m], unicode_placeholder (length validUnicodes)))).
  intros Hg. specialize (Hg ltac:(intros st m Hst Hm; simpl; split;
    [apply Forall_app; split; [done|by repeat constructor]
    |apply unicode_placeholder_printable]) s true 0%nat [] (Forall_nil_2 _) H).
  revert Hg.
  destruct (gsub_st validUnicodePattern _ true 0 [] s) as [validUnicodes cleaned].
  intros [Hv Hc]. simpl in Hv, Hc.
  apply restore_unicode_printable; [done|].
  repeat (apply replace_all_preserves; [printable_lit|]). done.
Qed.

Lemma final_steps_printable (s : jsstring) :
  Forall printable s ->
  Forall printable
    (final_safety (drop_invalid_escapes (collapse_spaces (strip_trailing_commas s)))).
Proof.
  intros H. unfold final_safety, drop_invalid_escapes, collapse_spaces,
    strip_trailing_commas.
  repeat first [ apply replace_all_preserves; [printable_lit|]
               | apply gsub_preserves; [apply tail_preserves|] ].
  done.
Qed.

(** C10: the string returned by the sanitizer holds no raw control
    character: no code unit in 0x00-0x1F and no 0x7F, for every input. *)
Theorem sanitizeJsonString_no_control (x : jsstring) :
  Forall (fun c => is_control c = false) (sanitizeJsonString x).
Proof.
  unfold sanitizeJsonString.
  apply final_steps_printable, fix_unicode_printable, fix_quotes_printable,
    restore_escapes_printable, blank_controls_printable.
Qed.

End SanitizerFacts.

(** ** Quota computation *)

Module QuotaFacts.
Import Quota.
Local Open Scope float_scope.

Lemma compare_cont_Eq (p q : positive) :
  PosDef.Pos.compare_cont Eq p q = Pos.compare p q.
Proof. reflexivity. Qed.

(** Below or at one finite positive number is not above or at a larger
    one with the same exponent. *)
Lemma SFleb_finite_lt (x : spec_float) (ma mb : positive) (e0 : Z) :
  (ma < mb)%positive ->
  SFleb x (S754_finite false ma e0) = true ->
  SFleb (S754_finite false mb e0) x = false.
Proof.
  intros Hab. destruct x as [s| s | | s m e]; unfold SFleb, SFcompare;
    [reflexivity | destruct s; [reflexivity|discriminate] | discriminate |].
  destruct s; [reflexivity|].
  rewrite (Z.compare_antisym e e0), (compare_cont_Eq m ma), (compare_cont_Eq mb m).
  destruct (e ?= e0)%Z; cbn [CompOpp]; [|reflexivity|discriminate].
  intros H.
  assert (Hle : (m <= ma)%positive)
    by (apply Pos.compare_le_iff; intros Hgt; rewrite Hgt in H; discriminate).
  assert (Hlt : (mb ?= m)%positive = Gt)
    by (apply Pos.compare_gt_iff; eapply Pos.le_lt_trans; [exact Hle|exact Hab]).
  by rewrite Hlt.
Qed.

Lemma leb_499_not_geb_500 (T : number) : (T <=? 499) = true -> (500 <=? T) = false.
Proof.
  rewrite !FloatAxioms.leb_spec.
  assert (E1 : Prim2SF 499 = S754_finite false (499 * 2 ^ 44) (-44))
    by (vm_compute; reflexivity).
  assert (E2 : Prim2SF 500 = S754_finite false (500 * 2 ^ 44) (-44))
    by (vm_compute; reflexivity).
  rewrite E1, E2. apply SFleb_finite_lt. vm_compute; reflexivity.
Qed.

(** A number above zero is not a zero. *)
Lemma positive_not_zero (x : number) : (0 <? x) = true -> (x =? 0) = false.
Proof.
  rewrite FloatAxioms.ltb_spec, FloatAxioms.eqb_spec.
  change (Prim2SF 0) with (S754_zero false).
  destruct (Prim2SF x) as [s| s | | s m e]; unfold SFltb, SFeqb, SFcompare;
    try done; by destruct s.
Qed.

(** On a weighted topic neither fallback of [||] fires. *)
Lemma hasWeightage_or_else (t : Topic) (d : number) :
  hasWeightage t = true -> or_else (weightage t) 0 = weightage t
                           /\ or_else (weightage t) d = weightage t.
Proof.
  unfold hasWeightage, or_else. destruct (to_boolean (weightage t)); [done|].
  intros H. by vm_compute in H.
Qed.

Lemma hasWeightage_not_zero (t : Topic) :
  hasWeightage t = true -> (or_else (weightage t) 0 =? 0) = false.
Proof. unfold hasWeightage. apply positive_not_zero. Qed.

(** The reducer's [|| 0.02] never fires: the denominator is the plain sum
    of the weights of the weighted topics. *)
Lemma totalWeightage_plain (l : list Topic) (acc : number) :
  Forall (fun t => hasWeightage t = true) l ->
  fold_left (fun sum t => sum + or_else (weightage t) 0.02) l acc
  = fold_left (fun sum t => sum + weightage t) l acc.
Proof.
  intros H. revert acc. induction H as [|t l Ht Hl IH]; intros acc; simpl; [done|].
  destruct (hasWeightage_or_else t 0.02 Ht) as [_ ->]. apply IH.
Qed.

Lemma filter_hasWeightage (topics : list Topic) :
  Forall (fun t => hasWeightage t = true) (List.filter hasWeightage topics).
Proof. apply Forall_forall. intros t Ht. apply list_elem_of_In, filter_In in Ht. tauto. Qed.

Lemma plan_of_topic (ts : list Topic) (T : number) (pl : TopicPlan) :
  In pl (topics (calculateTopicQuestions ts T)) ->
  In (topic pl) ts /\
  questionsToGenerate pl =
    if or_else (weightage (topic pl)) 0 =? 0
    then (if 500 <=? T then 1 else 0)
    else Math_max 1 (Math_round
           ((or_else (weightage (topic pl)) 0
               / fold_left (fun sum t => sum + or_else (weightage t) 0.02)
                   (List.filter hasWeightage ts) 0) * T)).
Proof.
  unfold calculateTopicQuestions. cbn [topics]. intros H.
  apply in_map_iff in H as (t & <- & Ht).
  destruct (or_else (weightage t) 0 =? 0) eqn:E;
    cbn [topic questionsToGenerate]; by rewrite E.
Qed.

(** C1 (amended): every weighted topic gets the quota
    [max(1, round(weight / totalWeight * T))], where [totalWeight] is the
    sum of the weights of the weighted topics alone: the reducer's
    [|| 0.02] never fires and a zero-weight topic adds nothing to the
    denominator. *)
Theorem weighted_topic_quota (ts : list Topic) (T : number) (pl : TopicPlan) :
  In pl (topics (calculateTopicQuestions ts T)) ->
  hasWeightage (topic pl) = true ->
  questionsToGenerate pl
  = Math_max 1 (Math_round ((weightage (topic pl) / totalWeight ts) * T)).
Proof.
  intros Hin Hw. apply plan_of_topic in Hin as [_ ->].
  rewrite (hasWeightage_not_zero _ Hw).
  destruct (hasWeightage_or_else (topic pl) 0 Hw) as [-> _].
  by rewrite (totalWeightage_plain _ _ (filter_hasWeightage ts)).
Qed.

Lemma weighted_topic_quota_witness :
  let ts := [mkTopic (lit "t1") (lit "Algebra") 0.5;
             mkTopic (lit "t2") (lit "Calculus") 0.3;
             mkTopic (lit "t3") (lit "Geometry") 0.2] in
  let pl := mkPlan (mkTopic (lit "t2") (lit "Calculus") 0.3) 9 in
  In pl (topics (calculateTopicQuestions ts 30))
  /\ hasWeightage (topic pl) = true
  /\ questionsToGenerate pl
     = Math_max 1 (Math_round ((weightage (topic pl) / totalWeight ts) * 30)).
Proof.
  split; [|split].
  - right; left. reflexivity.
  - reflexivity.
  - apply (weighted_topic_quota
             [mkTopic (lit "t1") (lit "Algebra") 0.5;
              mkTopic (lit "t2") (lit "Calculus") 0.3;
              mkTopic (lit "t3") (lit "Geometry") 0.2] 30
             (mkPlan (mkTopic (lit "t2") (lit "Calculus") 0.3) 9)).
    + right; left. reflexivity.
    + reflexivity.
Defined.

(** C1 as stated fails: with weights 0.5, 0.5 and 0 and a target of 100
    the code gives the first topic 50 questions (denominator 1), where a
    denominator that counts 0.02 for the zero-weight topic gives 49. *)
Lemma zero_weight_topic_not_in_denominator :
  let ts := [mkTopic (lit "t1") (lit "Algebra") 0.5;
             mkTopic (lit "t2") (lit "Calculus") 0.5;
             mkTopic (lit "t3") (lit "Geometry") 0] in
  exists pl,
    In pl (topics (calculateTopicQuestions ts 100))
    /\ hasWeightage (topic pl) = true
    /\ questionsToGenerate pl = 50
    /\ quota_spec ts 100 (topic pl) = 49
    /\ (questionsToGenerate pl =? quota_spec ts 100 (topic pl)) = false.
Proof.
  exists (mkPlan (mkTopic (lit "t1") (lit "Algebra") 0.5) 50).
  split; [left; reflexivity|]. repeat split; reflexivity.
Qed.

(** The scenario of the specification: weights 0.5, 0.3, 0.2 and a target
    of 30 give 15, 9 and 6. *)
Example quota_scenario :
  map questionsToGenerate
    (topics (calculateTopicQuestions
               [mkTopic (lit "t1") (lit "Algebra") 0.5;
                mkTopic (lit "t2") (lit "Calculus") 0.3;
                mkTopic (lit "t3") (lit "Geometry") 0.2] 30))
  = [15; 9; 6].
Proof. reflexivity. Qed.

(** C5: a zero-weighted topic gets quota 1 when the target is at least
    500 and quota 0 when it is at most 499; the result carries, next to
    the total, the number of extra items: the number of zero-weight
    topics in the first case and 0 in the second. *)
Theorem zero_weight_topic_quota (ts : list Topic) (T : number) :
  let r := calculateTopicQuestions ts T in
  map topic (topics r) = ts
  /\ totalQuestionsToGenerate r = T + of_length (extraQuestionsCount r)
  /\ ((500 <=? T) = true ->
      extraQuestionsCount r = length (List.filter hasNoWeightage ts)
      /\ forall pl, In pl (topics r) -> hasNoWeightage (topic pl) = true ->
                    questionsToGenerate pl = 1)
  /\ ((T <=? 499) = true ->
      extraQuestionsCount r = 0%nat
      /\ forall pl, In pl (topics r) -> hasNoWeightage (topic pl) = true ->
                    questionsToGenerate pl = 0).
Proof.
  cbv zeta. split; [|split; [|split]].
  - unfold calculateTopicQuestions. cbn [topics]. rewrite map_map.
    erewrite map_ext; [apply map_id|].
    intros t. cbn beta. by destruct (or_else (weightage t) 0 =? 0).
  - reflexivity.
  - intros HT. split.
    + unfold calculateTopicQuestions. cbn [extraQuestionsCount]. by rewrite HT.
    + intros pl Hin Hz. apply plan_of_topic in Hin as [_ ->].
      unfold hasNoWeightage in Hz. by rewrite Hz, HT.
  - intros HT. apply leb_499_not_geb_500 in HT. split.
    + unfold calculateTopicQuestions. cbn [extraQuestionsCount]. by rewrite HT.
    + intros pl Hin Hz. apply plan_of_topic in Hin as [_ ->].
      unfold hasNoWeightage in Hz. by rewrite Hz, HT.
Qed.

(** The threshold scenario: one zero-weight topic, targets 500 and 499. *)
Example zero_weight_threshold :
  let ts := [mkTopic (lit "t1") (lit "Appendix") 0] in
  map questionsToGenerate (topics (calculateTopicQuestions ts 500)) = [1]
  /\ extraQuestionsCount (calculateTopicQuestions ts 500) = 1%nat
  /\ totalQuestionsToGenerate (calculateTopicQuestions ts 500) = 501
  /\ map questionsToGenerate (topics (calculateTopicQuestions ts 499)) = [0]
  /\ extraQuestionsCount (calculateTopicQuestions ts 499) = 0%nat.
Proof. repeat split; reflexivity. Qed.

(** [loadStats] computes the same target for every topic. *)
Lemma statsTarget_agrees (ts : list Topic) (T : number) :
  map questionsToGenerate (topics (calculateTopicQuestions ts T))
  = map (statsTarget ts T) ts.
Proof.
  unfold calculateTopicQuestions, statsTarget. cbn [topics]. rewrite map_map.
  apply map_ext. intros t. cbn beta.
  by destruct (or_else (weightage t) 0 =? 0).
Qed.

End QuotaFacts.

(** ** Bare [\u] escapes *)

Module UnicodeEscapeFacts.

(** C7: what the sanitizer does with [\u] escapes, on three inputs (each
    starts with a backslash).  A bare [\u] followed by [Z] loses the [Z]
    with the backslash; a bare [\u] followed by an underscore is left as
    it is; an escape with four hex digits is kept. *)
Theorem bare_unicode_escape_behaviour :
  sanitizeJsonString (bs :: lit "uZ1") = lit "u1"
  /\ sanitizeJsonString (bs :: lit "u_x") = bs :: lit "u_x"
  /\ sanitizeJsonString (bs :: lit "u00e9") = bs :: lit "u00e9".
Proof. repeat split; vm_compute; reflexivity. Qed.

(** The pattern of step 4 consumes the code unit after [\u]. *)
Example fix_unicode_consumes_next :
  fix_unicode (lit "a" ++ bs :: lit "u12g4b") = lit "au2g4b".
Proof. vm_compute. reflexivity. Qed.

End UnicodeEscapeFacts.

(** ** The parser *)

Module ParserFacts.
Import Parser.

(** Whatever the strategies reported, a failed parse throws the same
    message: [errors] is not part of it. *)
Lemma parseJsonRobust_failure {V : Type} (JSON_parse : jsstring -> outcome V)
    (response : jsstring) (t : expected) (message : jsstring) :
  parseJsonRobust JSON_parse response t = inr message -> message = failure_message.
Proof.
  unfold parseJsonRobust.
  destruct (run_strategies 0 [] (strategies JSON_parse response t));
    congruence.
Qed.

(** C8: on a response without any bracket all six strategies throw, each
    with its own reason; the loop collects the six reasons in [errors],
    and the error thrown is the fixed message, which carries none of
    them. *)
Theorem parse_failure_drops_reasons (V : Type) (JSON_parse : jsstring -> outcome V) :
  let response := lit "Sorry, I cannot help with that." in
  run_strategies 0 [] (strategies JSON_parse response ExpArray)
  = inr [ lit "Strategy 1: No JSON found in response";
          lit "Strategy 2: No opening bracket found";
          lit "Strategy 3: Invalid bracket positions";
          lit "Strategy 4: No JSON after aggressive cleaning";
          lit "Strategy 5: Cannot find JSON boundaries";
          lit "Strategy 6: No opening bracket found" ]
  /\ parseJsonRobust JSON_parse response ExpArray
     = inr (lit "Failed to parse AI response. Please try again.")
  /\ includes (lit "Strategy") (lit "Failed to parse AI response. Please try again.")
     = false.
Proof. repeat split; vm_compute; reflexivity. Qed.

End ParserFacts.

(** ** Structural validation *)

Module ValidationFacts.
Import Validation Generation.

(** C6 as stated fails: the validator accepts a single-select item with
    3 options. *)
Lemma validator_accepts_three_options :
  isValid (validateQuestionAnswer three_options) = true
  /\ reason (validateQuestionAnswer three_options)
     = lit "Question passes basic validation".
Proof. split; vm_compute; reflexivity. Qed.

(** The checks on the first item, in a run configured for MCQ or MSQ. *)
Lemma choice_item_checks (questionType : QuestionType)
    (question : ExtractedQuestion) (rest : list ExtractedQuestion) :
  questionType = MCQ \/ questionType = MSQ ->
  (checkGenerated questionType (question :: rest) = Save question
   <-> isValid (validateQuestionAnswer question) = true
       /\ (exists opts, options question = Some opts /\ length opts = 4%nat)
       /\ is_wrong question = false)
  /\ (forall saved, checkGenerated questionType (question :: rest) = Save saved ->
        saved = question).
Proof.
  intros Ht. unfold checkGenerated.
  destruct (isValid (validateQuestionAnswer question)); cbn [negb].
  2: { split; [|discriminate]. split; [discriminate|]. by intros [? _]. }
  assert (Hc : match questionType with MCQ | MSQ => true | _ => false end = true)
    by (by destruct Ht as [-> | ->]).
  rewrite Hc. cbn [andb].
  destruct (options question) as [opts|].
  2: { split; [|discriminate]. split; [discriminate|]. by intros (_ & (? & ? & _) & _). }
  destruct (Nat.eqb_spec (length opts) 4) as [H4|H4]; cbn [negb].
  - assert (Hq : match questionType with
                 | NAT | Subjective => with_options None question
                 | _ => question
                 end = question) by (by destruct Ht as [-> | ->]).
    rewrite Hq. destruct (is_wrong question).
    + split; [|discriminate]. split; [discriminate|]. by intros (_ & _ & ?).
    + split; [|by intros ? [= <-]]. split; [|done]. intros _. repeat split. by exists opts.
  - split; [|discriminate]. split; [discriminate|].
    intros (_ & (o & Ho & Hl) & _). congruence.
Qed.

(** A loop that ends with an item saved has made an attempt. *)
Lemma item_loop_saved_later (questionType : QuestionType)
    (generate : nat -> list ExtractedQuestion + jsstring) (insert : SavedRow -> bool) :
  forall (remaining : nat) (log final : item_log),
    item_loop questionType generate insert remaining log = (true, final) ->
    (attempts_made log < attempts_made final)%nat.
Proof.
  induction remaining as [|remaining IH]; intros log final; cbn [item_loop]; [discriminate|].
  assert (Hnext : item_loop questionType generate insert remaining
                    (mkLog (S (attempts_made log)) (inserts log)) = (true, final) ->
                  (attempts_made log < attempts_made final)%nat).
  { intros H. apply IH in H. cbn in H. lia. }
  destruct (generate (S (attempts_made log))) as [generatedQuestions|]; [|exact Hnext].
  destruct (checkGenerated questionType generatedQuestions); try exact Hnext.
  destruct (insert _); [|discriminate]. intros [= <-]. cbn. lia.
Qed.

(** C6 (amended): the exactly-4 rule is a check of the generation loop,
    made on the first item of the generated array once the validator has
    accepted it.  In an attempt of a run configured for MCQ or MSQ that
    item is handed to the insert exactly when the validator accepts it,
    it carries exactly 4 options and it is not flagged wrong; the attempt
    saves it, and ends the loop of the item with success, exactly when
    moreover the insert goes through.  When the insert fails the loop
    ends without a retry and the item is not saved; when a check fails
    nothing is inserted and the loop goes on with the attempts left.
    The items after the first play no part. *)
Theorem choice_item_saved_iff (questionType : QuestionType)
    (generate : nat -> list ExtractedQuestion + jsstring) (insert : SavedRow -> bool)
    (remaining : nat) (log : item_log)
    (question : ExtractedQuestion) (rest : list ExtractedQuestion) :
  questionType = MCQ \/ questionType = MSQ ->
  generate (S (attempts_made log)) = inl (question :: rest) ->
  (checkGenerated questionType (question :: rest) = Save question
   <-> isValid (validateQuestionAnswer question) = true
       /\ (exists opts, options question = Some opts /\ length opts = 4%nat)
       /\ is_wrong question = false)
  /\ (item_loop questionType generate insert (S remaining) log
      = (true, mkLog (S (attempts_made log))
                 ((questionToSave questionType question, true) :: inserts log))
      <-> (isValid (validateQuestionAnswer question) = true
           /\ (exists opts, options question = Some opts /\ length opts = 4%nat)
           /\ is_wrong question = false)
          /\ insert (questionToSave questionType question) = true)
  /\ (isValid (validateQuestionAnswer question) = true
      /\ (exists opts, options question = Some opts /\ length opts = 4%nat)
      /\ is_wrong question = false ->
      insert (questionToSave questionType question) = false ->
      item_loop questionType generate insert (S remaining) log
      = (false, mkLog (S (attempts_made log))
                  ((questionToSave questionType question, false) :: inserts log)))
  /\ (~ (isValid (validateQuestionAnswer question) = true
         /\ (exists opts, options question = Some opts /\ length opts = 4%nat)
         /\ is_wrong question = false) ->
      item_loop questionType generate insert (S remaining) log
      = item_loop questionType generate insert remaining
          (mkLog (S (attempts_made log)) (inserts log))).
Proof.
  intros Ht Hgen. destruct (choice_item_checks questionType question rest Ht) as [Hiff Hsame].
  split; [exact Hiff|]. rewrite <- Hiff. cbn [item_loop]. rewrite Hgen.
  destruct (checkGenerated questionType (question :: rest)) as [|reason|got| |saved] eqn:Ec.
  1-4: split; [|split; [|done]].
  1,3,5,7: split; [|by intros [? _]].
  1-4: intros H; apply item_loop_saved_later in H; cbn in H; lia.
  1-4: by intros ?.
  rewrite (Hsame saved eq_refl).
  destruct (insert (questionToSave questionType question)) eqn:Ei.
  - split; [done|]. split; [discriminate|]. by intros [].
  - split; [|split; [done|by intros []]]. split; [discriminate|]. by intros [_ ?].
Qed.

Lemma choice_item_saved_iff_witness :
  (MCQ = MCQ \/ MCQ = MSQ)
  /\ four_options_each_time (S (attempts_made (mkLog 0 []))) = inl [four_options]
  /\ (checkGenerated MCQ [four_options] = Save four_options
      <-> isValid (validateQuestionAnswer four_options) = true
          /\ (exists opts, options four_options = Some opts /\ length opts = 4%nat)
          /\ is_wrong four_options = false)
  /\ (item_loop MCQ four_options_each_time accepting_table 3 (mkLog 0 [])
      = (true, mkLog (S (attempts_made (mkLog 0 [])))
                 ((questionToSave MCQ four_options, true) :: inserts (mkLog 0 [])))
      <-> (isValid (validateQuestionAnswer four_options) = true
           /\ (exists opts, options four_options = Some opts /\ length opts = 4%nat)
           /\ is_wrong four_options = false)
          /\ accepting_table (questionToSave MCQ four_options) = true)
  /\ (isValid (validateQuestionAnswer four_options) = true
      /\ (exists opts, options four_options = Some opts /\ length opts = 4%nat)
      /\ is_wrong four_options = false ->
      accepting_table (questionToSave MCQ four_options) = false ->
      item_loop MCQ four_options_each_time accepting_table 3 (mkLog 0 [])
      = (false, mkLog (S (attempts_made (mkLog 0 [])))
                  ((questionToSave MCQ four_options, false) :: inserts (mkLog 0 []))))
  /\ (~ (isValid (validateQuestionAnswer four_options) = true
         /\ (exists opts, options four_options = Some opts /\ length opts = 4%nat)
         /\ is_wrong four_options = false) ->
      item_loop MCQ four_options_each_time accepting_table 3 (mkLog 0 [])
      = item_loop MCQ four_options_each_time accepting_table 2
          (mkLog (S (attempts_made (mkLog 0 []))) (inserts (mkLog 0 [])))).
Proof.
  split; [by left|]. split; [reflexivity|].
  apply (choice_item_saved_iff MCQ four_options_each_time accepting_table
           2 (mkLog 0 []) four_options []); [by left|reflexivity].
Defined.

(** The scenario of the specification, on the generation loop. *)
Example three_then_four_options :
  checkGenerated MCQ [three_options] = RetryOptionCount 3
  /\ checkGenerated MCQ [four_options] = Save four_options.
Proof. split; vm_compute; reflexivity. Qed.

(** In a run configured for NAT or Subjective the options are nulled
    out, whatever the item carried. *)
Lemma numeric_run_drops_options (question saved : ExtractedQuestion)
    (rest : list ExtractedQuestion) :
  checkGenerated NAT (question :: rest) = Save saved -> options saved = None.
Proof.
  unfold checkGenerated.
  destruct (isValid (validateQuestionAnswer question)); [|discriminate].
  cbn. destruct (is_wrong question); [discriminate|]. by intros [= <-].
Qed.

End ValidationFacts.

(** ** The key pool *)

Module KeyPoolFacts.
Import KeyPool.

Lemma lookup_map {A B : Type} (f : A -> B) (l : list A) (i : nat) :
  map f l !! i = f <$> (l !! i).
Proof. revert i. induction l as [|x l IH]; intros [|i]; simpl; auto. Qed.

Lemma scan_defined (states : list ApiKeyState) (k i : nat) :
  (i < length states)%nat -> scan states k i <> Undefined.
Proof.
  revert i. induction k as [|k IH]; intros i Hi; simpl; [done|].
  destruct (states !! i) as [s|] eqn:E.
  - destruct (isActive s); [done|]. apply IH, Nat.mod_upper_bound. lia.
  - apply lookup_ge_None in E. lia.
Qed.

Lemma scan_found (states : list ApiKeyState) (k i j : nat) (s : ApiKeyState) :
  scan states k i = Found j s -> states !! j = Some s /\ isActive s = true.
Proof.
  revert i. induction k as [|k IH]; intros i; simpl; [done|].
  destruct (states !! i) as [s'|] eqn:E; [|done].
  destruct (isActive s') eqn:Ea; [|apply IH].
  by intros [= <- <-].
Qed.

Lemma scan_inactive (states : list ApiKeyState) (k i : nat) :
  Forall (fun s => isActive s = false) states ->
  (i < length states)%nat -> scan states k i = AllInactive.
Proof.
  intros Hall. revert i. induction k as [|k IH]; intros i Hi; simpl; [done|].
  destruct (states !! i) as [s|] eqn:E.
  - rewrite (proj1 (Forall_lookup _ _) Hall i s E).
    apply IH, Nat.mod_upper_bound. lia.
  - apply lookup_ge_None in E. lia.
Qed.

(** What one call does: after the bulk reset the key under the cursor is
    active, so the inner call returns it. *)
Lemma getNextGeminiKey_unfold (now : Z) (p : Pool) :
  getNextGeminiKey now p =
  let states := API_KEY_STATES p in
  if (length states =? 0)%nat
  then Some (inr (Error (lit "No Gemini API keys configured. Please add API keys first.")), p)
  else
    match scan states (length states) (currentKeyIndex p) with
    | Found i s =>
        Some (inl (key s, i),
              mkPool (<[i := use_key now s]> states) ((i + 1) mod length states))
    | Undefined => Some (inr TypeError, p)
    | AllInactive =>
        match states !! currentKeyIndex p with
        | Some s =>
            Some (inl (key s, currentKeyIndex p),
                  mkPool (<[currentKeyIndex p := use_key now (reset_key s)]>
                            (map reset_key states))
                         ((currentKeyIndex p + 1) mod length states))
        | None => Some (inr TypeError, mkPool (map reset_key states) (currentKeyIndex p))
        end
    end.
Proof.
  unfold getNextGeminiKey. cbn [getNextGeminiKey_rec]. cbv zeta.
  destruct (length (API_KEY_STATES p) =? 0)%nat eqn:El; [done|].
  destruct (scan _ _ _); try done.
  cbn [API_KEY_STATES currentKeyIndex]. rewrite length_map, El.
  destruct (length (API_KEY_STATES p)) as [|n] eqn:En; [done|].
  cbn [scan]. rewrite lookup_map.
  destruct (API_KEY_STATES p !! currentKeyIndex p) as [s|]; [|done].
  cbn [fmap option_fmap option_map reset_key isActive key]. by rewrite ?length_map, ?En.
Qed.

(** One level of recursion is enough: more fuel changes nothing. *)
Lemma getNextGeminiKey_fuel (fuel : nat) (now : Z) (p : Pool) :
  (2 <= fuel)%nat -> getNextGeminiKey_rec fuel now p = getNextGeminiKey now p.
Proof.
  intros Hf. destruct fuel as [|[|fuel]]; try lia.
  unfold getNextGeminiKey. cbn [getNextGeminiKey_rec]. cbv zeta.
  destruct (length (API_KEY_STATES p) =? 0)%nat eqn:El; [done|].
  destruct (scan _ _ _); try done.
  cbn [API_KEY_STATES currentKeyIndex]. rewrite length_map, El.
  destruct (length (API_KEY_STATES p)) as [|n] eqn:En; [done|].
  cbn [scan]. rewrite lookup_map.
  destruct (API_KEY_STATES p !! currentKeyIndex p) as [s|]; done.
Qed.

Lemma getNextGeminiKey_empty (now : Z) (p : Pool) :
  API_KEY_STATES p = [] ->
  getNextGeminiKey now p
  = Some (inr (Error (lit "No Gemini API keys configured. Please add API keys first.")), p).
Proof. intros H. rewrite getNextGeminiKey_unfold. cbv zeta. by rewrite H. Qed.

(** On a non-empty pool whose cursor is in range a call returns a key of
    the pool and leaves the cursor in range. *)
Lemma getNextGeminiKey_ok (now : Z) (p : Pool) :
  cursor_ok p -> API_KEY_STATES p <> [] ->
  exists i s p',
    getNextGeminiKey now p = Some (inl (key s, i), p')
    /\ API_KEY_STATES p !! i = Some s
    /\ length (API_KEY_STATES p') = length (API_KEY_STATES p)
    /\ cursor_ok p'
    /\ (Forall (fun s => isActive s = false) (API_KEY_STATES p) ->
        i = currentKeyIndex p
        /\ Forall (fun s => isActive s = true /\ errorCount s = 0%nat) (API_KEY_STATES p')).
Proof.
  intros [Hc|Hc] Hne; [done|].
  rewrite getNextGeminiKey_unfold. cbv zeta.
  assert (Hlen : length (API_KEY_STATES p) <> 0%nat) by lia.
  destruct (Nat.eqb_spec (length (API_KEY_STATES p)) 0) as [|_]; [done|].
  destruct (scan _ _ _) as [i s| |] eqn:Es.
  - apply scan_found in Es as [Hi Ha].
    exists i, s, (mkPool (<[i := use_key now s]> (API_KEY_STATES p))
                         ((i + 1) mod length (API_KEY_STATES p))).
    split; [done|]. split; [done|]. split; [cbn; by rewrite length_insert|].
    split.
    + right. cbn. rewrite length_insert. by apply Nat.mod_upper_bound.
    + intros Hall. rewrite (proj1 (Forall_lookup _ _) Hall i s Hi) in Ha. done.
  - destruct (API_KEY_STATES p !! currentKeyIndex p) as [s|] eqn:El.
    2: { apply lookup_ge_None in El. lia. }
    eexists _, s, _. split; [done|]. split; [done|].
    split; [cbn; by rewrite length_insert, length_map|]. split.
    + right. cbn. rewrite length_insert, length_map. by apply Nat.mod_upper_bound.
    + intros _. split; [done|]. cbn. apply Forall_insert; [|done].
      apply Forall_forall. intros x Hx. apply list_elem_of_In, in_map_iff in Hx.
      by destruct Hx as (y & <- & _).
  - by apply scan_defined in Es.
Qed.

Lemma setGeminiApiKeys_cursor_ok (keys : list jsstring) (p : Pool) :
  cursor_ok p -> cursor_ok (setGeminiApiKeys keys p).2.
Proof.
  intros Hp. unfold setGeminiApiKeys.
  destruct (List.filter _ keys); [done|]. right. cbn. lia.
Qed.

Lemma markKeyError_shape (i : nat) (m : error_message) (p : Pool) :
  length (API_KEY_STATES (markKeyError i m p)) = length (API_KEY_STATES p)
  /\ currentKeyIndex (markKeyError i m p) = currentKeyIndex p.
Proof.
  unfold markKeyError. destruct (API_KEY_STATES p !! i); [|done].
  cbn. by rewrite length_insert.
Qed.

Lemma markKeySuccess_shape (i : nat) (p : Pool) :
  length (API_KEY_STATES (markKeySuccess i p)) = length (API_KEY_STATES p)
  /\ currentKeyIndex (markKeySuccess i p) = currentKeyIndex p.
Proof.
  unfold markKeySuccess. destruct (API_KEY_STATES p !! i); [|done].
  cbn. by rewrite length_insert.
Qed.

(** The cursor's range depends on the pool's length and the cursor only. *)
Lemma cursor_ok_shape (p q : Pool) :
  length (API_KEY_STATES q) = length (API_KEY_STATES p) ->
  currentKeyIndex q = currentKeyIndex p ->
  cursor_ok p -> cursor_ok q.
Proof.
  unfold cursor_ok. intros Hl Hc [H|H].
  - left. apply length_zero_iff_nil. by rewrite Hl, H.
  - right. lia.
Qed.

Lemma reachable_cursor_ok (p : Pool) : reachable p -> cursor_ok p.
Proof.
  induction 1 as [|keys p r p' _ IH Hs|now p r p' _ IH Hn|i m p _ IH|i p _ IH].
  - by left.
  - replace p' with (setGeminiApiKeys keys p).2 by (by rewrite Hs).
    by apply setGeminiApiKeys_cursor_ok.
  - destruct (API_KEY_STATES p) eqn:E.
    + rewrite (getNextGeminiKey_empty now p E) in Hn. by injection Hn as _ <-.
    + destruct (getNextGeminiKey_ok now p IH) as (i & s & q & Hq & _ & _ & Hok & _).
      { by rewrite E. }
      rewrite Hq in Hn. by injection Hn as _ <-.
  - destruct (markKeyError_shape i m p). by eapply cursor_ok_shape.
  - destruct (markKeySuccess_shape i p). by eapply cursor_ok_shape.
Qed.

(** C3: selection throws only on an empty pool.  On a non-empty pool it
    returns a key of the pool; if every key is deactivated, the call
    reactivates them all, with error counts at zero, and returns the key
    under the cursor. *)
Theorem getNextGeminiKey_selects (now : Z) (p : Pool) :
  reachable p ->
  (API_KEY_STATES p = [] ->
   getNextGeminiKey now p
   = Some (inr (Error (lit "No Gemini API keys configured. Please add API keys first.")), p))
  /\ (API_KEY_STATES p <> [] ->
      exists i s p',
        getNextGeminiKey now p = Some (inl (key s, i), p')
        /\ API_KEY_STATES p !! i = Some s
        /\ length (API_KEY_STATES p') = length (API_KEY_STATES p)
        /\ (Forall (fun s => isActive s = false) (API_KEY_STATES p) ->
            i = currentKeyIndex p
            /\ Forall (fun s => isActive s = true /\ errorCount s = 0%nat)
                 (API_KEY_STATES p'))).
Proof.
  intros Hr. split; [apply getNextGeminiKey_empty|].
  intros Hne.
  destruct (getNextGeminiKey_ok now p (reachable_cursor_ok p Hr) Hne)
    as (i & s & p' & H1 & H2 & H3 & _ & H4).
  by exists i, s, p'.
Qed.

Lemma getNextGeminiKey_selects_witness :
  reachable all_failed
  /\ (API_KEY_STATES all_failed = [] ->
      getNextGeminiKey 0 all_failed
      = Some (inr (Error (lit "No Gemini API keys configured. Please add API keys first.")),
              all_failed))
  /\ (API_KEY_STATES all_failed <> [] ->
      exists i s p',
        getNextGeminiKey 0 all_failed = Some (inl (key s, i), p')
        /\ API_KEY_STATES all_failed !! i = Some s
        /\ length (API_KEY_STATES p') = length (API_KEY_STATES all_failed)
        /\ (Forall (fun s => isActive s = false) (API_KEY_STATES all_failed) ->
            i = currentKeyIndex all_failed
            /\ Forall (fun s => isActive s = true /\ errorCount s = 0%nat)
                 (API_KEY_STATES p'))).
Proof.
  assert (Hr : reachable all_failed).
  { unfold all_failed, fail3. repeat apply reach_error.
    apply (reach_set [lit "key-1"; lit "key-2"; lit "key-3"] initial (inl tt));
      [apply reach_initial|reflexivity]. }
  split; [exact Hr|]. apply (getNextGeminiKey_selects 0 all_failed Hr).
Defined.

(** Pool exhaustion and reset: three keys with three failures each are all
    deactivated, and the next selection returns the first key, every key
    active again with no error counted. *)
Example pool_exhaustion_reset :
  map isActive (API_KEY_STATES all_failed) = [false; false; false]
  /\ map errorCount (API_KEY_STATES all_failed) = [3; 3; 3]%nat
  /\ exists p',
       getNextGeminiKey 0 all_failed = Some (inl (lit "key-1", 0%nat), p')
       /\ map isActive (API_KEY_STATES p') = [true; true; true]
       /\ map errorCount (API_KEY_STATES p') = [0; 0; 0]%nat.
Proof. split; [|split]; [reflexivity..|]. eexists. by vm_compute. Qed.

(** Round-robin: six selections over three healthy keys take each key
    twice, in cyclic order from the first. *)
Example round_robin_fairness :
  (select_many [1; 2; 3; 4; 5; 6]%Z three_keys).1 = [0; 1; 2; 0; 1; 2]%nat
  /\ map usageCount (API_KEY_STATES (select_many [1; 2; 3; 4; 5; 6]%Z three_keys).2)
     = [2; 2; 2]%nat.
Proof. split; vm_compute; reflexivity. Qed.

End KeyPoolFacts.

(** ** The completion client *)

Module ClientFacts.
Import KeyPool Client KeyPoolFacts.

Lemma getNextGeminiKey_usable (now : Z) (p : Pool) :
  (currentKeyIndex p < length (API_KEY_STATES p))%nat ->
  exists i s p',
    getNextGeminiKey now p = Some (inl (key s, i), p')
    /\ (currentKeyIndex p' < length (API_KEY_STATES p'))%nat
    /\ length (API_KEY_STATES p') = length (API_KEY_STATES p).
Proof.
  intros Hc.
  destruct (getNextGeminiKey_ok now p) as (i & s & p' & H1 & _ & H3 & [H4|H4] & _).
  - by right.
  - intros E. rewrite E in Hc. simpl in Hc. lia.
  - rewrite H4 in H3. simpl in H3. lia.
  - by exists i, s, p'.
Qed.

(** The [try] block sends no request and leaves the pool's length and
    cursor alone. *)
Lemma try_block_shape (keyIndex : nat) (r : fetch_result) (st : state) :
  requests (try_block keyIndex r st).2 = requests st
  /\ length (API_KEY_STATES (pool (try_block keyIndex r st).2))
     = length (API_KEY_STATES (pool st))
  /\ currentKeyIndex (pool (try_block keyIndex r st).2) = currentKeyIndex (pool st).
Proof.
  unfold try_block, and_then.
  destruct r as [m|status m|[hc [reason|] [t|]]]; cbn [has_content blockReason text negb];
    repeat match goal with
           | |- context [match message_includes ?a ?b with _ => _ end] =>
               destruct (message_includes a b) as [[|]|]
           | |- context [if ?b then _ else _] => destruct b
           end;
    cbn [snd requests pool with_pool sleep];
    try done;
    first [ by destruct (markKeyError_shape keyIndex m (pool st))
          | by destruct (markKeySuccess_shape keyIndex (pool st))
          | by match goal with
               | |- context [markKeyError ?i ?m ?p] => destruct (markKeyError_shape i m p)
               end ].
Qed.

(** The [try] block returns a text only when the response carries one. *)
Lemma try_block_return (keyIndex : nat) (r : fetch_result) (st : state)
    (responseText : jsstring) (st' : state) :
  try_block keyIndex r st = (Return responseText, st') ->
  exists data, r = Ok data /\ has_content data = true /\ text data = Some responseText.
Proof.
  unfold try_block, and_then.
  destruct r as [m|status m|[hc reason t]]; cbn [has_content blockReason text].
  - discriminate.
  - repeat match goal with
           | |- context [match message_includes ?a ?b with _ => _ end] =>
               destruct (message_includes a b) as [[|]|]
           | |- context [if ?b then _ else _] => destruct b
           end; discriminate.
  - destruct hc; cbn [negb].
    + destruct t as [t|]; [|discriminate]. intros [= <- _]. by eexists.
    + by destruct reason.
Qed.

(** The loop always ends: after [remaining] requests at most; with an
    error only when all of them were made; with a text only when the
    last request made was answered with it; and with the error whenever
    no request in the budget is answered with a text. *)
Lemma attempts_bounded (provider : nat -> jsstring -> fetch_result) (clock : nat -> Z)
    (maxTotalRetries : nat) :
  forall (remaining attemptCount : nat) (st : state),
    (currentKeyIndex (pool st) < length (API_KEY_STATES (pool st)))%nat ->
    exists r st' made,
      attempts provider clock maxTotalRetries remaining attemptCount st = Some (r, st')
      /\ requests st' = made ++ requests st
      /\ (length made <= remaining)%nat
      /\ (forall e, r = inr e ->
            e = Error (exhausted_message (attemptCount + remaining))
            /\ length made = remaining)
      /\ (forall responseText, r = inl responseText ->
            exists apiKey data,
              provider (attemptCount + length made)%nat apiKey = Ok data
              /\ has_content data = true /\ text data = Some responseText)
      /\ ((forall n apiKey data,
             (attemptCount < n <= attemptCount + remaining)%nat ->
             provider n apiKey = Ok data ->
             has_content data = false \/ text data = None) ->
          r = inr (Error (exhausted_message (attemptCount + remaining)))).
Proof.
  induction remaining as [|remaining IH]; intros attemptCount st Hc.
  - exists (inr (Error (exhausted_message attemptCount))), st, [].
    cbn [attempts]. rewrite Nat.add_0_r. split; [done|]. split; [done|]. split; [done|].
    split; [by intros e [= <-]|]. split; [discriminate|done].
  - cbn [attempts].
    destruct (getNextGeminiKey_usable (clock (S attemptCount)) (pool st) Hc)
      as (i & s & p' & -> & Hc' & Hl').
    set (st1 := mkState p' (i :: requests st) (slept st)).
    destruct (try_block_shape i (provider (S attemptCount) (key s)) st1)
      as (Hreq & Hlen & Hcur).
    destruct (try_block i (provider (S attemptCount) (key s)) st1) as [[t| |m] st2] eqn:Etb.
    + apply try_block_return in Etb as (data & Ed & Hcontent & Htext).
      exists (inl t), st2, [i]. cbn in Hreq. rewrite Hreq.
      split; [done|]. split; [done|]. split; [simpl; lia|]. split; [done|]. split.
      * intros ? [= <-]. exists (key s), data. cbn [length].
        by rewrite Nat.add_1_r.
      * intros Hnone. destruct (Hnone (S attemptCount) (key s) data) as [H|H];
          [lia|done|congruence|congruence].
    + destruct (IH (S attemptCount) st2) as (r & st' & made & -> & Hm & Hle & He & Ht & Hn).
      { cbn in Hlen, Hcur. rewrite Hlen, Hcur. exact Hc'. }
      exists r, st', (made ++ [i]). split; [done|]. cbn in Hreq.
      rewrite Hm, Hreq, <- app_assoc. split; [done|]. rewrite length_app. cbn [length].
      replace (attemptCount + S remaining)%nat with (S attemptCount + remaining)%nat by lia.
      replace (attemptCount + (length made + 1))%nat with (S attemptCount + length made)%nat
        by lia.
      split; [lia|]. split.
      { intros e Hr. destruct (He e Hr) as [-> ->]. split; [done|lia]. }
      split; [exact Ht|]. intros Hnone. apply Hn. intros n k data Hrange.
      apply Hnone. lia.
    + set (st3 := if (S attemptCount <? maxTotalRetries)%nat
                  then sleep 10000 (with_pool (markKeyError i (Str m)) st2)
                  else with_pool (markKeyError i (Str m)) st2).
      assert (H3 : requests st3 = requests st2
                   /\ length (API_KEY_STATES (pool st3)) = length (API_KEY_STATES (pool st2))
                   /\ currentKeyIndex (pool st3) = currentKeyIndex (pool st2)).
      { unfold st3. destruct (markKeyError_shape i (Str m) (pool st2)).
        by destruct (S attemptCount <? maxTotalRetries)%nat. }
      destruct H3 as (Hreq3 & Hlen3 & Hcur3).
      destruct (IH (S attemptCount) st3) as (r & st' & made & -> & Hm & Hle & He & Ht & Hn).
      { cbn in Hlen, Hcur. rewrite Hlen3, Hcur3, Hlen, Hcur. exact Hc'. }
      exists r, st', (made ++ [i]). split; [done|]. cbn in Hreq.
      rewrite Hm, Hreq3, Hreq, <- app_assoc. split; [done|]. rewrite length_app. cbn [length].
      replace (attemptCount + S remaining)%nat with (S attemptCount + remaining)%nat by lia.
      replace (attemptCount + (length made + 1))%nat with (S attemptCount + length made)%nat
        by lia.
      split; [lia|]. split.
      { intros e Hr. destruct (He e Hr) as [-> ->]. split; [done|lia]. }
      split; [exact Ht|]. intros Hnone. apply Hn. intros n k data Hrange.
      apply Hnone. lia.
Qed.

(** The call always returns or throws. *)
Lemma callGeminiAPI_returns (provider : nat -> jsstring -> fetch_result)
    (clock : nat -> Z) (prompt : jsstring) (st : state) :
  cursor_ok (pool st) ->
  exists r st', callGeminiAPI provider clock prompt st = Some (r, st').
Proof.
  intros Hok. unfold callGeminiAPI. destruct (is_blank prompt); [by eauto|].
  destruct Hok as [He|Hc].
  - rewrite He. cbn. eauto.
  - destruct (attempts_bounded provider clock
                (length (API_KEY_STATES (pool st)) * 3)
                (length (API_KEY_STATES (pool st)) * 3) 0 st Hc)
      as (r & st' & _ & -> & _). eauto.
Qed.

(** C4: with a blank prompt the call throws at once, before any key is
    taken or any request sent.  Otherwise it sends at most 3 * poolSize
    requests; when it throws it has sent exactly that many and the
    message names that count; when it returns a text, the last request
    it sent was answered with that text in a well-formed body; and when
    no request of the budget is answered with a text in a well-formed
    body, it throws. *)
Theorem callGeminiAPI_budget (provider : nat -> jsstring -> fetch_result)
    (clock : nat -> Z) (prompt : jsstring) (st : state) :
  reachable (pool st) ->
  let poolSize := length (API_KEY_STATES (pool st)) in
  exists r st',
    callGeminiAPI provider clock prompt st = Some (r, st')
    /\ (is_blank prompt = true ->
        r = inr (Error (lit "Prompt cannot be empty")) /\ st' = st)
    /\ (is_blank prompt = false ->
        exists made,
          requests st' = made ++ requests st
          /\ (length made <= 3 * poolSize)%nat
          /\ (forall e, r = inr e ->
                e = Error (lit "Failed to generate content after " ++ dec (3 * poolSize)
                           ++ lit " attempts across all API keys. Please check your API keys and try again.")
                /\ length made = (3 * poolSize)%nat)
          /\ (forall responseText, r = inl responseText ->
                exists apiKey data,
                  provider (length made) apiKey = Ok data
                  /\ has_content data = true /\ text data = Some responseText)
          /\ ((forall n apiKey data,
                 (1 <= n <= 3 * poolSize)%nat ->
                 provider n apiKey = Ok data ->
                 has_content data = false \/ text data = None) ->
              r = inr (Error (lit "Failed to generate content after " ++ dec (3 * poolSize)
                              ++ lit " attempts across all API keys. Please check your API keys and try again.")))).
Proof.
  intros Hr poolSize. apply reachable_cursor_ok in Hr.
  unfold callGeminiAPI. destruct (is_blank prompt).
  { eexists _, _. split; [done|]. split; [done|discriminate]. }
  fold poolSize. replace (poolSize * 3)%nat with (3 * poolSize)%nat by lia.
  destruct Hr as [He|Hc].
  - assert (H0 : poolSize = 0%nat) by (unfold poolSize; by rewrite He).
    rewrite H0. cbn [Nat.mul attempts].
    eexists _, _. split; [done|]. split; [discriminate|]. intros _.
    exists []. split; [done|]. split; [done|]. split; [by intros e [= <-]|].
    split; [discriminate|done].
  - destruct (attempts_bounded provider clock (3 * poolSize) (3 * poolSize) 0 st Hc)
      as (r & st' & made & -> & Hm & Hle & He & Ht & Hn).
    exists r, st'. split; [done|]. split; [discriminate|]. intros _.
    rewrite !Nat.add_0_l in He, Ht, Hn.
    exists made. split; [done|]. split; [done|]. split; [exact He|]. split; [exact Ht|].
    intros Hnone. apply Hn. intros n k data Hrange. apply Hnone. lia.
Qed.

Lemma callGeminiAPI_budget_witness :
  reachable (pool (fresh three_keys))
  /\ exists r st',
       callGeminiAPI server_down Z.of_nat (lit "Write one question.") (fresh three_keys)
       = Some (r, st')
       /\ (is_blank (lit "Write one question.") = true ->
           r = inr (Error (lit "Prompt cannot be empty")) /\ st' = fresh three_keys)
       /\ (is_blank (lit "Write one question.") = false ->
           exists made,
             requests st' = made ++ requests (fresh three_keys)
             /\ (length made <= 3 * length (API_KEY_STATES (pool (fresh three_keys))))%nat
             /\ (forall e, r = inr e ->
                   e = Error (lit "Failed to generate content after "
                              ++ dec (3 * length (API_KEY_STATES (pool (fresh three_keys))))
                              ++ lit " attempts across all API keys. Please check your API keys and try again.")
                   /\ length made
                      = (3 * length (API_KEY_STATES (pool (fresh three_keys))))%nat)
             /\ (forall responseText, r = inl responseText ->
                   exists apiKey data,
                     server_down (length made) apiKey = Ok data
                     /\ has_content data = true /\ text data = Some responseText)
             /\ ((forall n apiKey data,
                    (1 <= n <= 3 * length (API_KEY_STATES (pool (fresh three_keys))))%nat ->
                    server_down n apiKey = Ok data ->
                    has_content data = false \/ text data = None) ->
                 r = inr (Error (lit "Failed to generate content after "
                                 ++ dec (3 * length (API_KEY_STATES (pool (fresh three_keys))))
                                 ++ lit " attempts across all API keys. Please check your API keys and try again.")))).
Proof.
  assert (Hr : reachable (pool (fresh three_keys))).
  { apply (reach_set [lit "key-1"; lit "key-2"; lit "key-3"] initial (inl tt));
      [apply reach_initial|reflexivity]. }
  split; [exact Hr|].
  apply (callGeminiAPI_budget server_down Z.of_nat (lit "Write one question.")
           (fresh three_keys) Hr).
Defined.

(** The budget on three keys: nine requests, then the error naming 9. *)
Example budget_exhausted :
  exists st',
    callGeminiAPI server_down Z.of_nat (lit "Write one question.") (fresh three_keys)
    = Some (inr (Error (lit "Failed to generate content after 9 attempts across all API keys. Please check your API keys and try again.")), st')
    /\ requests st' = [2; 1; 0; 2; 1; 0; 2; 1; 0]%nat
    /\ slept st' = 90000%Z.
Proof. eexists. by vm_compute. Qed.

Example blank_prompt_fails_fast :
  callGeminiAPI server_down Z.of_nat (lit "   ") (fresh three_keys)
  = Some (inr (Error (lit "Prompt cannot be empty")), fresh three_keys).
Proof. reflexivity. Qed.

(** The block reason leaves the [try] block as a thrown error, which the
    [catch] clause of the same iteration takes. *)
Lemma block_is_thrown_inside_try (keyIndex : nat) (reason : jsstring)
    (t : option jsstring) (st : state) :
  try_block keyIndex (Ok (mkData false (Some reason) t)) st
  = (Throw (lit "Content blocked by Gemini: " ++ reason), st).
Proof. reflexivity. Qed.

(** C2: a content-safety block does not end the call.  The error built
    for it is thrown inside the [try] block, so the [catch] clause
    records a key failure and the loop goes on: a provider that always
    blocks is asked nine times on three keys and the call ends with the
    exhaustion error; a provider that blocks once is asked again and the
    call returns the second answer. *)
Theorem content_block_is_retried :
  (exists st',
     callGeminiAPI always_blocked Z.of_nat (lit "Write one question.") (fresh three_keys)
     = Some (inr (Error (lit "Failed to generate content after 9 attempts across all API keys. Please check your API keys and try again.")), st')
     /\ requests st' = [2; 1; 0; 2; 1; 0; 2; 1; 0]%nat
     /\ map lastError (API_KEY_STATES (pool st'))
        = [Some (Str (lit "Content blocked by Gemini: SAFETY"));
           Some (Str (lit "Content blocked by Gemini: SAFETY"));
           Some (Str (lit "Content blocked by Gemini: SAFETY"))])
  /\ (exists st',
        callGeminiAPI blocked_once Z.of_nat (lit "Write one question.") (fresh three_keys)
        = Some (inl (lit "[]"), st')
        /\ requests st' = [1; 0]%nat).
Proof. split; eexists; by vm_compute. Qed.

End ClientFacts.

(** ** Where no pattern matches *)

Module RegexFacts.

Lemma try_down_none (k : nat -> option nat) (lo n : nat) :
  (forall i, k i = None) -> try_down k lo n = None.
Proof.
  intros Hk. induction n as [|n IH]; simpl.
  - by destruct (lo =? 0)%nat.
  - destruct (S n <? lo)%nat; [done|]. by rewrite Hk.
Qed.

(** With no lower bound, and no match for any shorter count, the greedy
    repetition takes the longest count. *)
Lemma try_down_longest (k : nat -> option nat) (n : nat) :
  (forall i, (i < n)%nat -> k i = None) -> try_down k 0 n = k n.
Proof.
  induction n as [|n IH]; intros Hk; simpl; [done|].
  destruct (k (S n)) eqn:E; [done|].
  rewrite IH by (intros i Hi; apply Hk; lia). apply Hk. lia.
Qed.

(** A pattern with a mandatory class matches nowhere in a subject
    without a code unit of that class. *)
Lemma match_here_needs (p : char -> bool) (r : regex) :
  In (Cls p) r ->
  forall bol s, Forall (fun c => p c = false) s -> match_here r bol s = None.
Proof.
  induction r as [|a r IH]; intros Hin bol s Hs; [done|].
  destruct a as [q|q lo hi| |]; cbn [match_here].
  - destruct s as [|c s]; [done|]. inversion_clear Hs as [|? ? Hc Hs'].
    destruct Hin as [[= ->]|Hin]; [by rewrite Hc|].
    destruct (q c); [|done]. by rewrite (IH Hin false s Hs').
  - destruct Hin as [|Hin]; [done|].
    apply try_down_none. intros i.
    by rewrite (IH Hin _ (skipn i s) (Forall_drop _ _ _ Hs)).
  - destruct Hin as [|Hin]; [done|]. destruct bol; [|done]. by apply IH.
  - destruct Hin as [|Hin]; [done|]. destruct s; [|done]. by apply IH.
Qed.

Lemma search_needs (p : char -> bool) (r : regex) (bol : bool) (s : jsstring) :
  In (Cls p) r -> Forall (fun c => p c = false) s -> search r bol s = None.
Proof.
  intros Hin Hs. revert bol. induction Hs as [|c s Hc Hs IH]; intros bol.
  - cbn [search]. by rewrite (match_here_needs p r Hin bol []).
  - cbn [search]. rewrite (match_here_needs p r Hin bol (c :: s)) by by constructor.
    apply IH.
Qed.

(** Where the pattern occurs nowhere, the replacement changes nothing. *)
Lemma gsub_st_search_none {St : Type} (r : regex)
    (f : St -> jsstring -> St * jsstring) (st : St) (s : jsstring) :
  forall bol, search r bol s = None -> gsub_st r f bol 0 st s = (st, s).
Proof.
  induction s as [|c s IH]; intros bol H; cbn [search] in H; cbn [gsub_st].
  - by destruct (match_here r bol []).
  - destruct (match_here r bol (c :: s)); [done|]. by rewrite (IH false H).
Qed.

Lemma gsub_search_none (r : regex) (f : jsstring -> jsstring) (s : jsstring) :
  search r true s = None -> gsub r f s = s.
Proof. intros H. unfold gsub. by rewrite gsub_st_search_none. Qed.

Lemma replace_all_search_none (r : regex) (rep s : jsstring) :
  search r true s = None -> replace_all r rep s = s.
Proof. apply gsub_search_none. Qed.

Lemma replace_all_needs (p : char -> bool) (r : regex) (rep s : jsstring) :
  In (Cls p) r -> Forall (fun c => p c = false) s -> replace_all r rep s = s.
Proof. intros Hin Hs. by apply replace_all_search_none, (search_needs p). Qed.

(** A literal pattern matches only where its text starts. *)
Lemma match_here_literal (pat rest : jsstring) :
  forall bol s n, match_here (re_lit (pat ++ rest)) bol s = Some n ->
                  is_prefix pat s = true.
Proof.
  induction pat as [|a pat IH]; intros bol s n H; [by destruct s|].
  destruct s as [|c s]; [done|]. cbn in H. unfold chr in H.
  destruct (N.eqb_spec c a) as [->|]; [|done]. cbn. rewrite N.eqb_refl.
  destruct (match_here _ false s) as [m|] eqn:E; [|done].
  cbn. exact (IH false s m E).
Qed.

Lemma search_literal (pat rest : jsstring) (s : jsstring) :
  includes pat s = false -> forall bol, search (re_lit (pat ++ rest)) bol s = None.
Proof.
  induction s as [|c s IH]; intros H bol; cbn [search]; cbn [includes] in H;
    apply orb_false_iff in H as [Hp Hi].
  - destruct (match_here _ bol []) eqn:E; [|done].
    apply match_here_literal in E. congruence.
  - destruct (match_here _ bol (c :: s)) eqn:E.
    + apply match_here_literal in E. congruence.
    + by apply IH.
Qed.

End RegexFacts.

(** ** Whitespace *)

Module SpaceFacts.
Import RegexFacts JsFacts Steady.

Lemma skipn_span (s : jsstring) : skipn (span is_space s) s = trimStart s.
Proof. induction s as [|c s IH]; simpl; [done|]. by destruct (is_space c). Qed.

Lemma skipn_below_span (p : char -> bool) (s : jsstring) (i : nat) :
  (i < span p s)%nat -> exists c s', skipn i s = c :: s' /\ p c = true.
Proof.
  revert i. induction s as [|c s IH]; intros i Hi; simpl in Hi; [lia|].
  destruct (p c) eqn:E; [|lia]. destruct i as [|i]; [by exists c, s|].
  apply IH. lia.
Qed.

(** Optional whitespace before a class without whitespace: the
    repetition takes the whole run. *)
Lemma rep_space_then (p : char -> bool) (r : regex) (bol : bool) (s : jsstring) :
  (forall c, is_space c = true -> p c = false) ->
  match_here (Rep is_space 0 None :: Cls p :: r) bol s
  = option_map (Nat.add (span is_space s))
      (match_here (Cls p :: r) (bol && (span is_space s =? 0)%nat) (trimStart s)).
Proof.
  intros Hp. cbn [match_here span_upto].
  rewrite try_down_longest; [by rewrite skipn_span|].
  intros i Hi. destruct (skipn_below_span is_space s i Hi) as (c & s' & -> & Hc).
  by rewrite (Hp c Hc).
Qed.

(** A trailing optional repetition always matches. *)
Lemma rep_last_some (p : char -> bool) (bol : bool) (s : jsstring) :
  match_here [Rep p 0 None] bol s = Some (span p s + 0)%nat.
Proof.
  cbn [match_here span_upto]. destruct (span p s) as [|n]; [done|]. by cbn.
Qed.

(** Step 6 is [squeeze]. *)
Lemma collapse_squeeze (s : jsstring) :
  forall bol,
    gsub_st [Rep is_space 1 None] (fun (_ : unit) _ => (tt, [sp])) bol 0 tt s
    = (tt, squeeze false s)
    /\ gsub_st [Rep is_space 1 None] (fun (_ : unit) _ => (tt, [sp])) bol
         (span is_space s) tt s
       = (tt, squeeze true s).
Proof.
  induction s as [|c s IH]; intros bol; [done|].
  assert (H0 : gsub_st [Rep is_space 1 None] (fun (_ : unit) _ => (tt, [sp])) bol 0 tt
                 (c :: s) = (tt, squeeze false (c :: s))).
  { cbn [gsub_st match_here span_upto span squeeze].
    destruct (is_space c) eqn:Ec.
    - cbn [try_down Nat.ltb Nat.leb match_here option_map Nat.add].
      rewrite Nat.add_0_r. by rewrite (proj2 (IH false)).
    - cbn [try_down Nat.eqb]. by rewrite (proj1 (IH false)). }
  split; [exact H0|].
  cbn [span squeeze]. destruct (is_space c) eqn:Ec.
  - cbn [gsub_st]. apply IH.
  - change (squeeze false (c :: s)) with
      (if is_space c then sp :: squeeze true s else c :: squeeze false s) in H0.
    by rewrite Ec in H0.
Qed.

Lemma collapse_spaces_squeeze (s : jsstring) : collapse_spaces s = squeeze false s.
Proof.
  unfold collapse_spaces, replace_all, gsub.
  by rewrite (proj1 (collapse_squeeze s true)).
Qed.

(** Step 2b rewrites the subject unit by unit. *)
Lemma blank_controls_map (s : jsstring) : blank_controls s = map blank s.
Proof.
  unfold blank_controls. rewrite !replace_class_flat_map.
  induction s as [|c s IH]; [done|].
  cbn [flat_map map]. rewrite !flat_map_app, IH. unfold blank.
  destruct (control_class c); cbn [flat_map app];
    [done|].
  destruct (chr 10 c); cbn [flat_map app]; [done|].
  destruct (chr 13 c); cbn [flat_map app]; [done|].
  by destruct (chr 9 c).
Qed.

(** The quote classes of step 3 put back what they take. *)
Lemma replace_same (a : char) (s : jsstring) :
  replace_all [Cls (fun x => (x =? a) || (x =? a))] [a] s = s.
Proof.
  rewrite replace_class_flat_map. induction s as [|c s IH]; [done|].
  cbn [flat_map]. rewrite IH.
  destruct (N.eqb_spec c a) as [->|]; by cbn.
Qed.

End SpaceFacts.

(** ** The two patterns a steady text is free of *)

Module TagFacts.
Import RegexFacts JsFacts SpaceFacts Steady.

Lemma search_bol_false (r : regex) (s : jsstring) : search (Bol :: r) false s = None.
Proof. induction s as [|c s IH]; cbn; done. Qed.

Lemma space_cases (c : char) :
  is_space c = true ->
  c = 9 \/ c = 10 \/ c = 11 \/ c = 12 \/ c = 13 \/ c = 32 \/ 160 <= c.
Proof.
  unfold is_space. intros H.
  repeat (apply orb_true_iff in H as [H|H]);
    try (apply N.eqb_eq in H; subst; lia).
  apply andb_true_iff in H as [H _]. apply N.leb_le in H. lia.
Qed.

Lemma space_not_letter (a c : char) :
  65 <= a <= 90 \/ 97 <= a <= 122 -> is_space c = true -> chr_ci a c = false.
Proof.
  intros Ha Hc. apply space_cases in Hc.
  unfold chr_ci, ascii_upper, in_range. apply N.eqb_neq.
  destruct (N.leb_spec 97 c), (N.leb_spec c 122), (N.leb_spec 97 a), (N.leb_spec a 122);
    cbn [andb]; lia.
Qed.

Lemma space_not_closer (c : char) : is_space c = true -> is_closer c = false.
Proof.
  intros Hc. apply space_cases in Hc. unfold is_closer.
  apply orb_false_iff; split; apply N.eqb_neq; lia.
Qed.

Lemma json_tag_cons :
  json_tag
  = Bol :: Rep is_space 0 None :: Cls (chr_ci 106) :: Cls (chr_ci 115)
      :: Cls (chr_ci 111) :: Cls (chr_ci 110) :: [Rep is_space 0 None].
Proof. reflexivity. Qed.

Lemma json_letters (bol : bool) (t : jsstring) :
  match_here [Cls (chr_ci 106); Cls (chr_ci 115); Cls (chr_ci 111); Cls (chr_ci 110);
              Rep is_space 0 None] bol t = None
  <-> starts_json t = false.
Proof.
  unfold starts_json.
  destruct t as [|a [|b [|c [|d t]]]]; cbn [match_here starts_with]; try done;
    try (destruct (chr_ci 106 a); [|done]); try (destruct (chr_ci 115 b); [|done]);
    try (destruct (chr_ci 111 c); [|done]); try done.
  destruct (chr_ci 110 d); [|done].
  pose proof (rep_last_some is_space false t) as Hl. cbn [match_here] in Hl.
  by rewrite Hl.
Qed.

(** The tag pattern occurs exactly when the text, after its leading
    whitespace, starts with the four letters. *)
Lemma json_tag_search (s : jsstring) :
  search json_tag true s = None <-> starts_json (trimStart s) = false.
Proof.
  assert (Hm : match_here json_tag true s = None <-> starts_json (trimStart s) = false).
  { rewrite json_tag_cons. cbn [match_here].
    change (try_down _ 0 (span_upto is_space None s))
      with (match_here [Rep is_space 0 None; Cls (chr_ci 106); Cls (chr_ci 115);
                        Cls (chr_ci 111); Cls (chr_ci 110); Rep is_space 0 None] true s).
    rewrite rep_space_then by (intros c; apply space_not_letter; lia).
    rewrite <- (json_letters (true && (span is_space s =? 0)%nat) (trimStart s)).
    by destruct (match_here _ _ (trimStart s)). }
  rewrite <- Hm. destruct s as [|c s]; cbn [search].
  - by destruct (match_here json_tag true []).
  - destruct (match_here json_tag true (c :: s)); [done|].
    rewrite json_tag_cons. by rewrite search_bol_false.
Qed.

Lemma closer_follows_trimStart (s : jsstring) :
  closer_follows s = match trimStart s with d :: _ => is_closer d | [] => false end.
Proof.
  induction s as [|c s IH]; [done|]. cbn [closer_follows trimStart].
  destruct (is_space c) eqn:E; [done|]. done.
Qed.

Lemma trailing_comma_here (bol : bool) (c : char) (s : jsstring) :
  match_here trailing_comma bol (c :: s) = None
  <-> (c =? 44) && closer_follows s = false.
Proof.
  unfold trailing_comma. cbn [match_here]. unfold chr at 1.
  destruct (c =? 44); [|done]. cbn [andb].
  change (try_down _ 0 (span_upto is_space None s))
    with (match_here [Rep is_space 0 None; Cls is_closer] false s).
  rewrite rep_space_then by apply space_not_closer.
  rewrite closer_follows_trimStart. cbn [match_here].
  destruct (trimStart s) as [|d t]; [done|]. by destruct (is_closer d).
Qed.

(** The comma pattern occurs exactly where a comma stands before a
    closing bracket, whitespace apart. *)
Lemma trailing_comma_search (s : jsstring) :
  forall bol, search trailing_comma bol s = None <-> comma_before_closer s = false.
Proof.
  induction s as [|c s IH]; intros bol; cbn [search comma_before_closer]; [done|].
  pose proof (trailing_comma_here bol c s) as Hh.
  destruct (match_here trailing_comma bol (c :: s)).
  - split; [done|]. intros H. apply orb_false_iff in H as [H _].
    by apply Hh in H.
  - rewrite (proj1 Hh eq_refl). cbn [orb]. apply IH.
Qed.

End TagFacts.

(** ** Steady texts *)

Module SteadyFacts.
Import RegexFacts JsFacts SpaceFacts TagFacts Steady.

Lemma is_prefix_starts_with (pat s : jsstring) :
  is_prefix pat s = starts_with (map N.eqb pat) s.
Proof.
  revert s. induction pat as [|a pat IH]; intros [|c s]; cbn; try done.
  by rewrite IH.
Qed.

Lemma starts_with_app (classes : list (char -> bool)) (s w : jsstring) :
  starts_with classes s = true -> starts_with classes (s ++ w) = true.
Proof.
  revert s. induction classes as [|p classes IH]; intros [|c s]; cbn; try done.
  intros H. apply andb_true_iff in H as [-> H]. by apply IH.
Qed.

(** *** Characters *)

Lemma inert_sp : inert sp = true.
Proof. reflexivity. Qed.

Lemma inert_cases (c : char) :
  inert c = true ->
  c <> bs /\ c <> bt /\ c <> 226 /\ (is_control c = true -> is_space c = true).
Proof.
  unfold inert. intros H. apply negb_true_iff in H.
  repeat (apply orb_false_iff in H as [H ?]).
  repeat split; try (by apply N.eqb_neq).
  intros Hc. rewrite Hc in *. by destruct (is_space c).
Qed.

Lemma control_class_control (c : char) : control_class c = true -> is_control c = true.
Proof.
  unfold control_class, is_control, in_range. intros H.
  repeat (apply orb_true_iff in H as [H|H]);
    try (apply andb_true_iff in H as [H1 H2]; apply N.leb_le in H1, H2);
    try apply N.eqb_eq in H;
    apply orb_true_iff;
    first [ right; apply N.eqb_eq; lia
          | left; apply andb_true_iff; split; apply N.leb_le; lia ].
Qed.

Lemma blank_cases (c : char) : blank c = sp \/ blank c = c.
Proof.
  unfold blank. destruct (control_class c); [by left|].
  destruct (chr 10 c); [by left|]. destruct (chr 13 c); [by left|].
  destruct (chr 9 c); [by left|by right].
Qed.

Lemma blank_solid (c : char) :
  inert c = true -> is_space c = false -> blank c = c.
Proof.
  intros Hi Hs. apply inert_cases in Hi as (_ & _ & _ & Hc).
  unfold blank. destruct (control_class c) eqn:E.
  { apply control_class_control, Hc in E. congruence. }
  unfold chr.
  destruct (N.eqb_spec c 10) as [->|_]; [done|].
  destruct (N.eqb_spec c 13) as [->|_]; [done|].
  by destruct (N.eqb_spec c 9) as [->|_].
Qed.

Lemma blank_space (c : char) : is_space c = true -> is_space (blank c) = true.
Proof. intros Hs. by destruct (blank_cases c) as [-> | ->]. Qed.

Lemma blank_inert (c : char) : inert c = true -> inert (blank c) = true.
Proof. intros Hi. by destruct (blank_cases c) as [-> | ->]. Qed.

Lemma space_not_comma (c : char) : is_space c = true -> (c =? 44) = false.
Proof. intros H. apply space_cases in H. apply N.eqb_neq. lia. Qed.

Lemma sp_space : is_space sp = true.
Proof. reflexivity. Qed.

Lemma eqb_solid (a : char) : is_space a = false -> solid (N.eqb a).
Proof.
  intros Ha c Hc. apply N.eqb_neq. intros ->. congruence.
Qed.

(** *** Step 2b on a steady text *)

Lemma starts_with_blank (classes : list (char -> bool)) (s : jsstring) :
  Forall solid classes -> Forall (fun c => inert c = true) s ->
  starts_with classes (map blank s) = starts_with classes s.
Proof.
  intros Hcl. revert s. induction Hcl as [|p classes Hp _ IH]; intros s Hs; [done|].
  destruct Hs as [|c s Hc Hs]; [done|]. cbn. rewrite (IH s Hs).
  destruct (is_space c) eqn:E.
  - by rewrite (Hp c E), (Hp _ (blank_space c E)).
  - by rewrite (blank_solid c Hc E).
Qed.

Lemma includes_blank (pat s : jsstring) :
  Forall (fun a => is_space a = false) pat -> Forall (fun c => inert c = true) s ->
  includes pat (map blank s) = includes pat s.
Proof.
  intros Hpat Hs.
  assert (Hcl : Forall solid (map N.eqb pat)).
  { apply Forall_forall. intros p Hp. apply list_elem_of_In, in_map_iff in Hp.
    destruct Hp as (a & <- & Ha). apply eqb_solid.
    by apply (proj1 (Forall_forall _ _) Hpat), list_elem_of_In. }
  induction Hs as [|c s Hc Hs IH]; [done|].
  cbn [map includes]. rewrite IH. f_equal.
  rewrite !is_prefix_starts_with.
  by apply (starts_with_blank _ (c :: s)); [|constructor].
Qed.

Lemma closer_follows_blank (s : jsstring) :
  Forall (fun c => inert c = true) s -> closer_follows (map blank s) = closer_follows s.
Proof.
  induction 1 as [|c s Hc Hs IH]; [done|]. cbn. rewrite IH.
  destruct (is_space c) eqn:E.
  - by rewrite (blank_space c E).
  - by rewrite (blank_solid c Hc E), E.
Qed.

Lemma comma_before_closer_blank (s : jsstring) :
  Forall (fun c => inert c = true) s ->
  comma_before_closer (map blank s) = comma_before_closer s.
Proof.
  induction 1 as [|c s Hc Hs IH]; [done|]. cbn. rewrite IH, (closer_follows_blank s Hs).
  destruct (is_space c) eqn:E.
  - by rewrite (space_not_comma c E), (space_not_comma _ (blank_space c E)).
  - by rewrite (blank_solid c Hc E).
Qed.

Lemma squeeze_blank (s : jsstring) :
  Forall (fun c => inert c = true) s ->
  forall m, squeeze m (map blank s) = squeeze m s.
Proof.
  induction 1 as [|c s Hc Hs IH]; intros m; [done|]. cbn.
  destruct (is_space c) eqn:E.
  - rewrite (blank_space c E). by rewrite IH.
  - by rewrite (blank_solid c Hc E), E, IH.
Qed.

Lemma blank_all_inert (s : jsstring) :
  Forall (fun c => inert c = true) s -> Forall (fun c => inert c = true) (map blank s).
Proof.
  induction 1 as [|c s Hc Hs IH]; cbn; constructor; [by apply blank_inert|done].
Qed.

(** *** Squeezing *)

Lemma squeeze_inert (s : jsstring) :
  Forall (fun c => inert c = true) s ->
  forall m, Forall (fun c => inert c = true) (squeeze m s).
Proof.
  induction 1 as [|c s Hc Hs IH]; intros m; cbn; [constructor|].
  destruct (is_space c), m; repeat constructor; auto.
Qed.

Lemma squeeze_idem (s : jsstring) : forall m, squeeze m (squeeze m s) = squeeze m s.
Proof.
  induction s as [|c s IH]; intros m; cbn; [done|].
  destruct (is_space c) eqn:E.
  - destruct m; [apply IH|]. cbn. by rewrite IH.
  - cbn. by rewrite E, IH.
Qed.

Lemma starts_with_squeeze (classes : list (char -> bool)) :
  Forall solid classes ->
  forall s, starts_with classes (squeeze false s) = true -> starts_with classes s = true.
Proof.
  induction 1 as [|p classes Hp _ IH]; intros s H; [done|].
  destruct s as [|c s]; [done|]. cbn in H |- *.
  destruct (is_space c) eqn:E.
  - cbn in H. by rewrite (Hp sp sp_space) in H.
  - cbn in H. apply andb_true_iff in H as [-> H]. by apply IH.
Qed.

Lemma includes_squeeze (pat : jsstring) (a : char) (s : jsstring) :
  Forall (fun a => is_space a = false) (a :: pat) ->
  forall m, includes (a :: pat) (squeeze m s) = true -> includes (a :: pat) s = true.
Proof.
  intros Hpat.
  assert (Hcl : Forall solid (map N.eqb (a :: pat))).
  { apply Forall_forall. intros p Hp. apply list_elem_of_In, in_map_iff in Hp.
    destruct Hp as (b & <- & Hb). apply eqb_solid.
    by apply (proj1 (Forall_forall _ _) Hpat), list_elem_of_In. }
  assert (Ha : is_space a = false) by (by inversion Hpat).
  induction s as [|c s IH]; intros m H; [done|].
  cbn [includes]. apply orb_true_iff.
  cbn [squeeze] in H. destruct (is_space c) eqn:E.
  - right. destruct m; [by apply (IH true)|].
    cbn [includes is_prefix] in H.
    destruct (N.eqb_spec a sp) as [->|_]; [done|]. by apply (IH true).
  - cbn [includes] in H. apply orb_true_iff in H as [H|H].
    + left. rewrite is_prefix_starts_with in H |- *.
      apply (starts_with_squeeze _ Hcl (c :: s)). cbn [squeeze]. by rewrite E.
    + right. by apply (IH false).
Qed.

Lemma closer_follows_squeeze (s : jsstring) :
  forall m, closer_follows (squeeze m s) = closer_follows s.
Proof.
  induction s as [|c s IH]; intros m; cbn; [done|].
  destruct (is_space c) eqn:E.
  - destruct m; [apply IH|]. cbn. apply IH.
  - cbn. by rewrite E.
Qed.

Lemma comma_before_closer_squeeze (s : jsstring) :
  forall m, comma_before_closer (squeeze m s) = comma_before_closer s.
Proof.
  induction s as [|c s IH]; intros m; cbn; [done|].
  destruct (is_space c) eqn:E.
  - rewrite (space_not_comma c E). destruct m; [apply IH|]. cbn. apply IH.
  - cbn. by rewrite closer_follows_squeeze, IH.
Qed.

Lemma squeeze_units (s : jsstring) :
  forall m, Forall (fun c => is_space c = false \/ c = sp) (squeeze m s).
Proof.
  induction s as [|c s IH]; intros m; cbn; [constructor|].
  destruct (is_space c) eqn:E; [destruct m|].
  - apply IH.
  - constructor; [by right|apply IH].
  - constructor; [by left|apply IH].
Qed.

Lemma map_blank_squeeze (s : jsstring) (m : bool) :
  Forall (fun c => inert c = true) s -> map blank (squeeze m s) = squeeze m s.
Proof.
  intros Hs. pose proof (squeeze_inert s Hs m) as Hi.
  pose proof (squeeze_units s m) as Hu. revert Hi Hu.
  generalize (squeeze m s). intros y Hi Hu.
  induction Hi as [|c y Hc Hy IH]; [done|]. inversion_clear Hu as [|? ? Hcu Hyu].
  cbn. rewrite (IH Hyu). f_equal. destruct Hcu as [E| ->]; [|done].
  by apply blank_solid.
Qed.

Lemma no_lead_squeeze (s : jsstring) :
  no_lead s = true -> no_lead (squeeze false s) = true.
Proof.
  destruct s as [|c s]; [done|]. cbn. intros H. apply negb_true_iff in H.
  rewrite H. cbn. by rewrite H.
Qed.

Lemma squeeze_snoc (c : char) (s : jsstring) :
  is_space c = false -> forall m, squeeze m (s ++ [c]) = squeeze m s ++ [c].
Proof.
  intros Hc. induction s as [|d s IH]; intros m; cbn.
  - by rewrite Hc.
  - destruct (is_space d); [destruct m|]; by rewrite IH.
Qed.

Lemma no_trail_squeeze (s : jsstring) :
  no_lead (rev s) = true -> no_lead (rev (squeeze false s)) = true.
Proof.
  intros H. destruct (rev s) as [|c r] eqn:E.
  - apply (f_equal (@rev N)) in E. rewrite rev_involutive in E. by subst.
  - apply (f_equal (@rev N)) in E. rewrite rev_involutive in E. subst s.
    cbn in H |- *. apply negb_true_iff in H.
    rewrite (squeeze_snoc c (rev r) H), rev_app_distr. cbn. by rewrite H.
Qed.

(** *** Trimming *)

Lemma trimStart_no_lead (s : jsstring) : no_lead (trimStart s) = true.
Proof.
  induction s as [|c s IH]; [done|]. cbn. destruct (is_space c) eqn:E; [done|].
  cbn. by rewrite E.
Qed.

Lemma trimStart_id (s : jsstring) : no_lead s = true -> trimStart s = s.
Proof.
  destruct s as [|c s]; [done|]. cbn. intros H. apply negb_true_iff in H.
  by rewrite H.
Qed.

Lemma trimStart_split (s : jsstring) : exists w, s = w ++ trimStart s.
Proof.
  induction s as [|c s [w IH]]; [by exists []|]. cbn.
  destruct (is_space c); [|by exists []].
  exists (c :: w). cbn. by rewrite <- IH.
Qed.

Lemma trimEnd_split (s : jsstring) : exists w, s = trimEnd s ++ w.
Proof.
  destruct (trimStart_split (rev s)) as [w Hw]. exists (rev w). unfold trimEnd.
  rewrite <- rev_app_distr, <- Hw. by rewrite rev_involutive.
Qed.

Lemma trim_no_trail (x : jsstring) : no_lead (rev (trim x)) = true.
Proof.
  unfold trim, trimEnd. rewrite rev_involutive. apply trimStart_no_lead.
Qed.

Lemma trim_no_lead (x : jsstring) : no_lead (trim x) = true.
Proof.
  unfold trim. destruct (trimEnd_split (trimStart x)) as [w Hw].
  pose proof (trimStart_no_lead x) as H. rewrite Hw in H.
  by destruct (trimEnd (trimStart x)).
Qed.

Lemma trim_id (t : jsstring) :
  no_lead t = true -> no_lead (rev t) = true -> trim t = t.
Proof.
  intros H1 H2. unfold trim, trimEnd.
  rewrite (trimStart_id t H1), (trimStart_id (rev t) H2). apply rev_involutive.
Qed.

(** What occurs in a piece of a text occurs in the text. *)
Lemma includes_app_r (pat w s : jsstring) :
  includes pat s = true -> includes pat (w ++ s) = true.
Proof.
  intros H. induction w as [|c w IH]; [done|]. cbn [app includes].
  by rewrite IH, orb_true_r.
Qed.

Lemma includes_app_l (pat s w : jsstring) :
  includes pat s = true -> includes pat (s ++ w) = true.
Proof.
  induction s as [|c s IH]; cbn [app includes]; intros H.
  - rewrite orb_false_r in H. destruct pat; [|done]. by destruct w.
  - apply orb_true_iff in H as [H|H].
    + rewrite is_prefix_starts_with in H.
      change (c :: s ++ w) with ((c :: s) ++ w).
      by rewrite is_prefix_starts_with, (starts_with_app _ _ w H).
    + by rewrite (IH H), orb_true_r.
Qed.

Lemma includes_trim (pat x : jsstring) :
  includes pat (trim x) = true -> includes pat x = true.
Proof.
  intros H. unfold trim in H.
  destruct (trimEnd_split (trimStart x)) as [w Hw].
  destruct (trimStart_split x) as [v Hv].
  rewrite Hv. apply includes_app_r. rewrite Hw. by apply includes_app_l.
Qed.

Lemma closer_follows_app (s w : jsstring) :
  closer_follows s = true -> closer_follows (s ++ w) = true.
Proof.
  induction s as [|c s IH]; [done|]. cbn. by destruct (is_space c).
Qed.

Lemma comma_before_closer_app_l (s w : jsstring) :
  comma_before_closer s = true -> comma_before_closer (s ++ w) = true.
Proof.
  induction s as [|c s IH]; [done|]. cbn. intros H.
  apply orb_true_iff in H as [H|H].
  - apply andb_true_iff in H as [-> H]. by rewrite (closer_follows_app s w H).
  - by rewrite (IH H), orb_true_r.
Qed.

Lemma comma_before_closer_app_r (w s : jsstring) :
  comma_before_closer s = true -> comma_before_closer (w ++ s) = true.
Proof.
  intros H. induction w as [|c w IH]; [done|]. cbn. by rewrite IH, orb_true_r.
Qed.

Lemma comma_before_closer_trim (x : jsstring) :
  comma_before_closer (trim x) = true -> comma_before_closer x = true.
Proof.
  intros H. unfold trim in H.
  destruct (trimEnd_split (trimStart x)) as [w Hw].
  destruct (trimStart_split x) as [v Hv].
  rewrite Hv. apply comma_before_closer_app_r. rewrite Hw.
  by apply comma_before_closer_app_l.
Qed.

(** *** The sanitizer on a steady text *)

Lemma escapeProtector_solid : Forall (fun a => is_space a = false) escapeProtector.
Proof.
  assert (H : forallb (fun a => negb (is_space a)) escapeProtector = true)
    by (vm_compute; reflexivity).
  apply Forall_forall. intros a Ha. apply list_elem_of_In in Ha.
  eapply forallb_forall in H; [|exact Ha]. by apply negb_true_iff.
Qed.

Lemma inert_not (a : char) (s : jsstring) :
  inert a = false ->
  Forall (fun c => inert c = true) s -> Forall (fun c => chr a c = false) s.
Proof.
  intros Ha Hs. eapply Forall_impl; [exact Hs|]. intros c Hc. unfold chr.
  apply N.eqb_neq. intros ->. congruence.
Qed.

Lemma inert_not_fence (s : jsstring) :
  Forall (fun c => inert c = true) s -> Forall (fun c => chr_ci bt c = false) s.
Proof.
  intros Hs. eapply Forall_impl; [exact Hs|]. cbn beta.
  intros c Hc. apply inert_cases in Hc as (_ & Hb & _).
  unfold chr_ci, ascii_upper, in_range, bt in *. apply N.eqb_neq.
  destruct (N.leb_spec 97 c), (N.leb_spec c 122); cbn [andb]; cbn; lia.
Qed.

Lemma control_class_final_control (c : char) :
  control_class_final c = true -> is_control c = true.
Proof.
  unfold control_class_final, is_control, in_range. intros H.
  repeat (apply orb_true_iff in H as [H|H]);
    try (apply andb_true_iff in H as [H1 H2]; apply N.leb_le in H1, H2);
    try apply N.eqb_eq in H;
    apply orb_true_iff;
    first [ right; apply N.eqb_eq; lia
          | left; apply andb_true_iff; split; apply N.leb_le; lia ].
Qed.

Lemma squeeze_no_control (s : jsstring) (m : bool) :
  Forall (fun c => inert c = true) s ->
  Forall (fun c => control_class_final c = false) (squeeze m s).
Proof.
  intros Hs. pose proof (squeeze_inert s Hs m) as Hi.
  pose proof (squeeze_units s m) as Hu.
  apply Forall_forall. intros c Hc.
  pose proof (proj1 (Forall_forall _ _) Hi c Hc) as Hic.
  pose proof (proj1 (Forall_forall _ _) Hu c Hc) as Huc.
  destruct Huc as [E| ->]; [|done].
  destruct (control_class_final c) eqn:Ec; [|done].
  apply control_class_final_control in Ec.
  apply inert_cases in Hic as (_ & _ & _ & Hcs). rewrite (Hcs Ec) in E. done.
Qed.

(** Every step but the whitespace ones leaves a steady text alone. *)
Lemma sanitize_steady (x : jsstring) : steady x -> sanitizeJsonString x = normal x.
Proof.
  intros (Hi & Hesc & Hcomma & Htag).
  assert (Hbs : forall s, Forall (fun c => inert c = true) s ->
                          Forall (fun c => chr bs c = false) s)
    by (intros s; by apply inert_not).
  unfold sanitizeJsonString.
  (* step 1 *)
  assert (E1 : strip_markdown x = trim x).
  { unfold strip_markdown.
    rewrite (replace_all_needs (chr_ci bt) _ [] x); [|by left|by apply inert_not_fence].
    rewrite (replace_all_needs (chr_ci bt) _ [] x); [|by left|by apply inert_not_fence].
    rewrite (replace_all_needs (chr_ci bt) _ [] x); [|by left|by apply inert_not_fence].
    rewrite (replace_all_needs (chr bt) _ [] x); [|by left|by apply inert_not].
    by rewrite (replace_all_search_none json_tag [] x Htag). }
  rewrite E1. set (t := trim x).
  assert (Ht : Forall (fun c => inert c = true) t) by (by apply trim_preserves).
  (* step 2 *)
  assert (E2 : protect_escapes t = t).
  { unfold protect_escapes.
    by rewrite !(replace_all_needs (chr bs) _ _ t) by (by left || by apply Hbs). }
  rewrite E2, blank_controls_map. set (b := map blank t).
  assert (Hb : Forall (fun c => inert c = true) b) by (by apply blank_all_inert).
  assert (Hbesc : includes escapeProtector b = false).
  { unfold b. rewrite includes_blank; [|apply escapeProtector_solid|done].
    destruct (includes escapeProtector t) eqn:E; [|done].
    apply includes_trim in E. congruence. }
  assert (E3 : restore_escapes b = b).
  { unfold restore_escapes.
    by rewrite !(replace_all_search_none _ _ b) by (by apply search_literal). }
  rewrite E3.
  (* step 3 *)
  assert (E4 : fix_quotes b = b).
  { unfold fix_quotes. rewrite !replace_same.
    apply (replace_all_needs (chr 226)); [by left|by apply inert_not]. }
  rewrite E4.
  (* step 4 *)
  assert (E5 : fix_unicode b = b).
  { unfold fix_unicode, protect_unicode.
    rewrite gsub_st_search_none by (apply (search_needs (chr bs)); [by left|by apply Hbs]).
    by rewrite !(replace_all_needs (chr bs) _ _ b) by (by left || by apply Hbs). }
  rewrite E5.
  (* step 5 *)
  assert (E6 : strip_trailing_commas b = b).
  { unfold strip_trailing_commas. apply gsub_search_none.
    apply trailing_comma_search. unfold b. rewrite comma_before_closer_blank by done.
    destruct (comma_before_closer t) eqn:E; [|done].
    apply comma_before_closer_trim in E.
    apply trailing_comma_search in Hcomma. congruence. }
  rewrite E6.
  (* step 6 *)
  rewrite collapse_spaces_squeeze. unfold b. rewrite squeeze_blank by done.
  change (squeeze false t) with (normal x). set (y := normal x).
  assert (Hy : Forall (fun c => inert c = true) y) by (by apply squeeze_inert).
  (* steps 7 and 8 *)
  assert (E7 : drop_invalid_escapes y = y).
  { unfold drop_invalid_escapes. apply gsub_search_none.
    apply (search_needs (chr bs)); [by left|by apply Hbs]. }
  rewrite E7. unfold final_safety.
  rewrite !(replace_all_needs (chr bs) _ _ y) by (by left || by apply Hbs).
  apply (replace_all_needs control_class_final); [by left|].
  by apply squeeze_no_control.
Qed.

Lemma letters_solid :
  Forall solid [chr_ci 106; chr_ci 115; chr_ci 111; chr_ci 110].
Proof. repeat constructor; intros c; apply space_not_letter; lia. Qed.

(** The normal form of a steady text is steady. *)
Lemma normal_steady (x : jsstring) : steady x -> steady (normal x).
Proof.
  intros (Hi & Hesc & Hcomma & Htag). unfold normal.
  assert (Ht : Forall (fun c => inert c = true) (trim x)) by (by apply trim_preserves).
  split; [by apply squeeze_inert|]. split; [|split].
  - destruct (includes escapeProtector (squeeze false (trim x))) eqn:E; [|done].
    apply (includes_squeeze _ _ _ escapeProtector_solid), includes_trim in E.
    change (includes escapeProtector x = true) in E. congruence.
  - apply trailing_comma_search. rewrite comma_before_closer_squeeze.
    destruct (comma_before_closer (trim x)) eqn:E; [|done].
    apply comma_before_closer_trim in E.
    apply trailing_comma_search in Hcomma. congruence.
  - apply json_tag_search.
    rewrite trimStart_id by apply no_lead_squeeze, trim_no_lead.
    destruct (starts_json (squeeze false (trim x))) eqn:E; [|done].
    apply (starts_with_squeeze _ letters_solid) in E.
    apply json_tag_search in Htag.
    unfold trim in E. destruct (trimEnd_split (trimStart x)) as [w Hw].
    unfold starts_json in Htag. rewrite Hw, (starts_with_app _ _ w E) in Htag. done.
Qed.

Lemma normal_idem (x : jsstring) : normal (normal x) = normal x.
Proof.
  unfold normal at 1.
  rewrite trim_id.
  - apply squeeze_idem.
  - apply no_lead_squeeze, trim_no_lead.
  - apply no_trail_squeeze, trim_no_trail.
Qed.

(** C9 (amended): on a steady text the sanitizer is idempotent; a steady
    text has no backslash, backtick, U+00E2 or control character other
    than whitespace, does not contain the placeholder prefix of step 2,
    has no comma before a closing bracket and does not open with a
    [json] tag. *)
Theorem sanitize_idempotent_on_steady (x : jsstring) :
  steady x ->
  sanitizeJsonString (sanitizeJsonString x) = sanitizeJsonString x.
Proof.
  intros Hx. rewrite (sanitize_steady x Hx).
  rewrite (sanitize_steady (normal x) (normal_steady x Hx)). apply normal_idem.
Qed.

Lemma sample_steady : steady sample.
Proof.
  split; [|split; [|split]]; [|vm_compute; reflexivity..].
  assert (H : forallb inert sample = true) by (vm_compute; reflexivity).
  apply Forall_forall. intros c Hc. apply list_elem_of_In in Hc.
  by eapply forallb_forall in H.
Qed.

Lemma sanitize_idempotent_on_steady_witness :
  steady sample
  /\ sanitizeJsonString (sanitizeJsonString sample) = sanitizeJsonString sample.
Proof.
  split; [exact sample_steady|].
  exact (sanitize_idempotent_on_steady sample sample_steady).
Defined.

Example sanitize_sample :
  sanitizeJsonString sample = lit "[ {'topic_id': 7, 'options': ['a', 'b'] } ]".
Proof. vm_compute. reflexivity. Qed.

(** C9 as stated fails: the trailing-comma pattern of step 5 is applied
    once, so of two commas before a closing brace one survives the first
    pass and goes in the second. *)
Lemma sanitize_not_idempotent :
  sanitizeJsonString (lit ",,}") = lit ",}"
  /\ sanitizeJsonString (sanitizeJsonString (lit ",,}")) = lit "}"
  /\ sanitizeJsonString (sanitizeJsonString (lit ",,}"))
     <> sanitizeJsonString (lit ",,}").
Proof. repeat split; vm_compute; [reflexivity..|discriminate]. Qed.

(** Other inputs on which a second pass changes the result: a doubled
    [json] tag, and a control character at the start. *)
Example sanitize_twice_more :
  sanitizeJsonString (lit "jsonjson[]") = lit "json[]"
  /\ sanitizeJsonString (lit "json[]") = lit "[]"
  /\ sanitizeJsonString (1 :: lit "[]") = lit " []"
  /\ sanitizeJsonString (lit " []") = lit "[]".
Proof. repeat split; vm_compute; reflexivity. Qed.

End SteadyFacts.

(** ** Rotation of the keys *)

Module RotationFacts.
Import KeyPool Client Session KeyPoolFacts.

Lemma cyclic_step (c d n : nat) :
  (((c + 1) mod n + d) mod n = (c + S d) mod n)%nat.
Proof.
  destruct n as [|n]; [simpl; lia|].
  rewrite Nat.Div0.add_mod_idemp_l. f_equal. lia.
Qed.

Lemma cyclic_cover (n c j : nat) :
  (c < n)%nat -> (j < n)%nat -> exists d, (d < n)%nat /\ ((c + d) mod n = j)%nat.
Proof.
  intros Hc Hj. destruct (le_lt_dec c j) as [Hle|Hlt].
  - exists (j - c)%nat. split; [lia|].
    replace (c + (j - c))%nat with j by lia. by apply Nat.mod_small.
  - exists (j + n - c)%nat. split; [lia|].
    replace (c + (j + n - c))%nat with (j + 1 * n)%nat by lia.
    rewrite Nat.Div0.mod_add. by apply Nat.mod_small.
Qed.

Lemma map_insert_same {A B : Type} (f : A -> B) (l : list A) (i : nat) (x y : A) :
  l !! i = Some y -> f x = f y -> map f (<[i := x]> l) = map f l.
Proof.
  revert i. induction l as [|a l IH]; intros [|i]; simpl; try done.
  - intros [= ->] ->. done.
  - intros Hl Hf. f_equal. by apply IH.
Qed.

(** The loop stops at the first active key met from the cursor on. *)
Lemma scan_first (states : list ApiKeyState) (k : nat) :
  forall c i s,
    (c < length states)%nat ->
    scan states k c = Found i s ->
    exists d, (d < k)%nat /\ i = ((c + d) mod length states)%nat
      /\ forall d', (d' < d)%nat ->
           isActive <$> states !! ((c + d') mod length states)%nat = Some false.
Proof.
  induction k as [|k IH]; intros c i s Hc; simpl; [done|].
  destruct (states !! c) as [a|] eqn:E; [|done].
  destruct (isActive a) eqn:Ea.
  - intros [= <- <-]. exists 0%nat. split; [lia|].
    rewrite Nat.add_0_r, Nat.mod_small by done. split; [done|]. intros; lia.
  - intros H. apply IH in H as (d & Hd & Hi & Hbefore).
    2: { apply Nat.mod_upper_bound. lia. }
    exists (S d). split; [lia|]. rewrite <- cyclic_step. split; [done|].
    intros [|d'] Hd'.
    + rewrite Nat.add_0_r, Nat.mod_small by done. rewrite E. simpl. by rewrite Ea.
    + rewrite <- cyclic_step. apply Hbefore. lia.
Qed.

Lemma scan_none (states : list ApiKeyState) (k : nat) :
  forall c,
    (c < length states)%nat ->
    scan states k c = AllInactive ->
    forall d, (d < k)%nat ->
      isActive <$> states !! ((c + d) mod length states)%nat = Some false.
Proof.
  induction k as [|k IH]; intros c Hc; simpl; [intros; lia|].
  destruct (states !! c) as [a|] eqn:E; [|done].
  destruct (isActive a) eqn:Ea; [done|].
  intros H [|d] Hd.
  - rewrite Nat.add_0_r, Nat.mod_small by done. rewrite E. simpl. by rewrite Ea.
  - rewrite <- cyclic_step. apply IH; [|done|lia].
    apply Nat.mod_upper_bound. lia.
Qed.

(** A full turn that finds nothing has seen every key. *)
Lemma scan_none_all (states : list ApiKeyState) (c : nat) :
  (c < length states)%nat ->
  scan states (length states) c = AllInactive ->
  Forall (fun s => isActive s = false) states.
Proof.
  intros Hc Hs. apply Forall_lookup. intros j s Hj.
  assert (Hlt : (j < length states)%nat) by (by eapply lookup_lt_Some).
  destruct (cyclic_cover (length states) c j Hc Hlt) as (d & Hd & Hcd).
  pose proof (scan_none states (length states) c Hc Hs d Hd) as H.
  rewrite Hcd, Hj in H. simpl in H. congruence.
Qed.

(** X1: the key a selection returns is the first active one met from the
    cursor on, going round the pool; when none is active it is the key
    under the cursor.  The cursor is left just after the key returned,
    whose usage count goes up by one. *)
Theorem getNextGeminiKey_first_active (now : Z) (p : Pool) (k : jsstring) (i : nat)
    (p' : Pool) :
  (currentKeyIndex p < length (API_KEY_STATES p))%nat ->
  getNextGeminiKey now p = Some (inl (k, i), p') ->
  let n := length (API_KEY_STATES p) in
  let c := currentKeyIndex p in
  exists d s,
    (d < n)%nat /\ i = ((c + d) mod n)%nat
    /\ API_KEY_STATES p !! i = Some s /\ k = key s
    /\ (forall d', (d' < d)%nat ->
          isActive <$> API_KEY_STATES p !! ((c + d') mod n)%nat = Some false)
    /\ (isActive s = true
        \/ (d = 0%nat /\ Forall (fun s => isActive s = false) (API_KEY_STATES p)))
    /\ currentKeyIndex p' = ((i + 1) mod n)%nat
    /\ usageCount <$> API_KEY_STATES p' !! i = Some (S (usageCount s))
    /\ lastUsedAt <$> API_KEY_STATES p' !! i = Some (Some now).
Proof.
  intros Hc. rewrite getNextGeminiKey_unfold. cbv zeta.
  destruct (Nat.eqb_spec (length (API_KEY_STATES p)) 0) as [H0|_]; [lia|].
  destruct (scan _ _ _) as [j s| |] eqn:Es.
  - intros [= <- <- <-].
    destruct (scan_first _ _ _ _ _ Hc Es) as (d & Hd & Hi & Hbefore).
    apply scan_found in Es as [Hj Ha].
    assert (Hlt : (j < length (API_KEY_STATES p))%nat) by (by eapply lookup_lt_Some).
    exists d, s. cbn [API_KEY_STATES currentKeyIndex].
    rewrite list_lookup_insert_eq by done.
    repeat (split; [done|]). split; [by left|]. done.
  - destruct (API_KEY_STATES p !! currentKeyIndex p) as [s|] eqn:El; [|done].
    intros [= <- <- <-].
    exists 0%nat, s. cbn [API_KEY_STATES currentKeyIndex].
    rewrite list_lookup_insert_eq by (by rewrite length_map).
    rewrite Nat.add_0_r, Nat.mod_small by done.
    split; [lia|]. repeat (split; [done|]). split; [intros; lia|].
    split; [|done]. right. split; [done|]. by apply (scan_none_all _ _ Hc).
  - by apply scan_defined in Es.
Qed.

Lemma getNextGeminiKey_first_active_witness :
  (currentKeyIndex first_down < length (API_KEY_STATES first_down))%nat
  /\ exists p',
       getNextGeminiKey 7 first_down = Some (inl (lit "key-2", 1%nat), p')
       /\ exists d s,
            (d < length (API_KEY_STATES first_down))%nat
            /\ 1%nat = ((currentKeyIndex first_down + d)
                        mod length (API_KEY_STATES first_down))%nat
            /\ API_KEY_STATES first_down !! 1%nat = Some s /\ lit "key-2" = key s
            /\ (forall d', (d' < d)%nat ->
                  isActive <$> API_KEY_STATES first_down
                                 !! ((currentKeyIndex first_down + d')
                                     mod length (API_KEY_STATES first_down))%nat
                  = Some false)
            /\ (isActive s = true
                \/ (d = 0%nat
                    /\ Forall (fun s => isActive s = false) (API_KEY_STATES first_down)))
            /\ currentKeyIndex p' = ((1 + 1) mod length (API_KEY_STATES first_down))%nat
            /\ usageCount <$> API_KEY_STATES p' !! 1%nat = Some (S (usageCount s))
            /\ lastUsedAt <$> API_KEY_STATES p' !! 1%nat = Some (Some 7%Z).
Proof.
  assert (Hc : (currentKeyIndex first_down < length (API_KEY_STATES first_down))%nat)
    by (vm_compute; lia).
  split; [exact Hc|]. eexists. split; [vm_compute; reflexivity|].
  apply (getNextGeminiKey_first_active 7 first_down (lit "key-2") 1 _ Hc).
  vm_compute. reflexivity.
Defined.

(** X2: while every key is active the selections go round the pool in
    order from the cursor, one step per call, and the keys themselves are
    left as they were. *)
Theorem round_robin (times : list Z) (p : Pool) :
  Forall (fun s => isActive s = true) (API_KEY_STATES p) ->
  (currentKeyIndex p < length (API_KEY_STATES p))%nat ->
  let n := length (API_KEY_STATES p) in
  let c := currentKeyIndex p in
  (select_many times p).1 = map (fun j => ((c + j) mod n)%nat) (seq 0 (length times))
  /\ currentKeyIndex (select_many times p).2 = ((c + length times) mod n)%nat
  /\ keys_of (select_many times p).2 = keys_of p.
Proof.
  cbv zeta. revert p. induction times as [|now rest IH]; intros p Hall Hc.
  - simpl. rewrite Nat.add_0_r, Nat.mod_small by done. done.
  - cbn [select_many]. rewrite getNextGeminiKey_unfold. cbv zeta.
    destruct (Nat.eqb_spec (length (API_KEY_STATES p)) 0) as [H0|_]; [lia|].
    destruct (lookup_lt_is_Some_2 _ _ Hc) as [s Hs].
    pose proof (proj1 (Forall_lookup _ _) Hall _ _ Hs) as Ha.
    destruct (length (API_KEY_STATES p)) as [|n'] eqn:En; [lia|].
    cbn [scan]. rewrite Hs, Ha. rewrite <- En.
    set (p' := mkPool _ _).
    assert (Hlen : length (API_KEY_STATES p') = length (API_KEY_STATES p))
      by (unfold p'; cbn; by rewrite length_insert).
    destruct (IH p') as (H1 & H2 & H3).
    { unfold p'. cbn. by apply Forall_insert. }
    { rewrite Hlen. unfold p'. cbn. apply Nat.mod_upper_bound. lia. }
    destruct (select_many rest p') as [indexes q]. cbn [fst snd] in *.
    rewrite Hlen in H1, H2. replace (currentKeyIndex p') with
      ((currentKeyIndex p + 1) mod length (API_KEY_STATES p))%nat in H1, H2 by done.
    split; [|split].
    + cbn [length seq map]. rewrite Nat.add_0_r, Nat.mod_small by lia.
      f_equal. rewrite H1, <- seq_shift, map_map.
      apply map_ext. intros j. apply cyclic_step.
    + rewrite H2. cbn [length]. apply cyclic_step.
    + rewrite H3. unfold keys_of, p'. cbn. by apply map_insert_same with s.
Qed.

Lemma round_robin_witness :
  Forall (fun s => isActive s = true) (API_KEY_STATES three_keys)
  /\ (currentKeyIndex three_keys < length (API_KEY_STATES three_keys))%nat
  /\ (select_many [1; 2; 3; 4]%Z three_keys).1
     = map (fun j => ((currentKeyIndex three_keys + j)
                      mod length (API_KEY_STATES three_keys))%nat)
         (seq 0 (length [1; 2; 3; 4]%Z))
  /\ currentKeyIndex (select_many [1; 2; 3; 4]%Z three_keys).2
     = ((currentKeyIndex three_keys + length [1; 2; 3; 4]%Z)
        mod length (API_KEY_STATES three_keys))%nat
  /\ keys_of (select_many [1; 2; 3; 4]%Z three_keys).2 = keys_of three_keys.
Proof.
  assert (Ha : Forall (fun s => isActive s = true) (API_KEY_STATES three_keys))
    by (repeat constructor).
  assert (Hc : (currentKeyIndex three_keys < length (API_KEY_STATES three_keys))%nat)
    by (vm_compute; lia).
  split; [exact Ha|]. split; [exact Hc|].
  apply (round_robin [1; 2; 3; 4]%Z three_keys Ha Hc).
Defined.

(** The flags of the pool after a selection that found an active key. *)
Lemma getNextGeminiKey_flags (now : Z) (p : Pool) (r : jsstring * nat + exn) (p' : Pool) :
  (currentKeyIndex p < length (API_KEY_STATES p))%nat ->
  In true (active_flags p) ->
  getNextGeminiKey now p = Some (r, p') ->
  active_flags p' = active_flags p.
Proof.
  intros Hc Hin. rewrite getNextGeminiKey_unfold. cbv zeta.
  destruct (Nat.eqb_spec (length (API_KEY_STATES p)) 0) as [H0|_]; [lia|].
  destruct (scan _ _ _) as [j s| |] eqn:Es.
  - intros [= <- <-]. apply scan_found in Es as [Hj _].
    unfold active_flags. cbn. by apply map_insert_same with s.
  - apply scan_none_all in Es; [|done].
    apply in_map_iff in Hin as (s & Hs & Hin).
    apply list_elem_of_In in Hin.
    rewrite (proj1 (Forall_forall _ _) Es s Hin) in Hs. done.
  - by apply scan_defined in Es.
Qed.

(** X3: a key taken out of rotation comes back through the bulk reset
    only.  Recording a success leaves every flag as it is, recording an
    error can only clear a flag, and a selection that finds an active key
    changes no flag. *)
Theorem reactivation_only_by_reset (now : Z) (i : nat) (m : error_message) (p : Pool) :
  active_flags (markKeySuccess i p) = active_flags p
  /\ (forall j, active_flags (markKeyError i m p) !! j = Some true ->
                active_flags p !! j = Some true)
  /\ (forall r p',
        (currentKeyIndex p < length (API_KEY_STATES p))%nat ->
        In true (active_flags p) ->
        getNextGeminiKey now p = Some (r, p') ->
        active_flags p' = active_flags p).
Proof.
  split; [|split].
  - unfold markKeySuccess.
    destruct (API_KEY_STATES p !! i) as [s|] eqn:E; [|done].
    unfold active_flags. cbn. by apply map_insert_same with s.
  - intros j. unfold markKeyError.
    destruct (API_KEY_STATES p !! i) as [s|] eqn:E; [|done].
    unfold active_flags. cbn [API_KEY_STATES]. rewrite !lookup_map.
    destruct (decide (i = j)) as [<-|Hne].
    + rewrite list_lookup_insert_eq by (by eapply lookup_lt_Some).
      rewrite E. unfold mark_error. cbn [fmap option_fmap option_map isActive].
      by destruct (3 <=? S (errorCount s))%nat.
    + by rewrite list_lookup_insert_ne.
  - intros r p'. apply getNextGeminiKey_flags.
Qed.

End RotationFacts.

(** ** What a call leaves in the pool *)

Module SessionFacts.
Import KeyPool Client Session KeyPoolFacts ClientFacts RotationFacts.

Lemma use_key_consistent (now : Z) (s : ApiKeyState) :
  consistent s -> consistent (use_key now s).
Proof. done. Qed.

Lemma reset_key_consistent (s : ApiKeyState) : consistent (reset_key s).
Proof. split; [done|]. cbn. lia. Qed.

Lemma consistent_active (s : ApiKeyState) :
  consistent s -> isActive s = true -> (errorCount s <= 2)%nat.
Proof.
  intros [H _] Ha. rewrite Ha in H. destruct (Nat.ltb_spec (errorCount s) 3); [lia|done].
Qed.

Lemma mark_error_consistent (m : error_message) (s : ApiKeyState) :
  (errorCount s <= 3)%nat -> consistent s -> consistent (mark_error m s).
Proof.
  unfold consistent, mark_error. cbn [isActive errorCount]. intros Hle [H _]. rewrite H.
  destruct (Nat.leb_spec 3 (S (errorCount s))), (Nat.ltb_spec (S (errorCount s)) 3),
    (Nat.ltb_spec (errorCount s) 3); try done; split; try done; lia.
Qed.

Lemma mark_success_consistent (s : ApiKeyState) :
  isActive s = true -> consistent (mark_success s).
Proof. unfold consistent, mark_success. cbn. intros ->. split; [done|lia]. Qed.

Lemma markKeyError_keys (i : nat) (m : error_message) (p : Pool) :
  keys_of (markKeyError i m p) = keys_of p.
Proof.
  unfold markKeyError. destruct (API_KEY_STATES p !! i) as [s|] eqn:E; [|done].
  unfold keys_of. cbn. by apply map_insert_same with s.
Qed.

Lemma markKeySuccess_keys (i : nat) (p : Pool) :
  keys_of (markKeySuccess i p) = keys_of p.
Proof.
  unfold markKeySuccess. destruct (API_KEY_STATES p !! i) as [s|] eqn:E; [|done].
  unfold keys_of. cbn. by apply map_insert_same with s.
Qed.

Lemma markKeyError_consistent (i : nat) (m : error_message) (p : Pool) :
  (exists s, API_KEY_STATES p !! i = Some s /\ (errorCount s <= 3)%nat) ->
  Forall consistent (API_KEY_STATES p) ->
  Forall consistent (API_KEY_STATES (markKeyError i m p)).
Proof.
  intros (s & E & Ha) H. unfold markKeyError. rewrite E.
  cbn. apply Forall_insert; [done|].
  apply mark_error_consistent; [done|]. by apply (proj1 (Forall_lookup _ _) H i).
Qed.

(** One error recorded against a key that is in rotation. *)
Lemma markKeyError_active (i : nat) (m : error_message) (p : Pool) :
  (exists s, API_KEY_STATES p !! i = Some s /\ isActive s = true) ->
  Forall consistent (API_KEY_STATES p) ->
  Forall consistent (API_KEY_STATES (markKeyError i m p))
  /\ exists s', API_KEY_STATES (markKeyError i m p) !! i = Some s'
                /\ (errorCount s' <= 3)%nat.
Proof.
  intros (s & E & Ha) H.
  assert (Hs : (errorCount s <= 2)%nat).
  { apply consistent_active; [|done]. by apply (proj1 (Forall_lookup _ _) H i). }
  split.
  - apply markKeyError_consistent; [|done]. exists s. split; [done|lia].
  - unfold markKeyError. rewrite E. cbn [API_KEY_STATES].
    exists (mark_error m s). rewrite list_lookup_insert_eq by (by eapply lookup_lt_Some).
    split; [done|]. cbn. lia.
Qed.

Lemma markKeySuccess_active (i : nat) (p : Pool) :
  (exists s, API_KEY_STATES p !! i = Some s /\ isActive s = true) ->
  Forall consistent (API_KEY_STATES p) ->
  Forall consistent (API_KEY_STATES (markKeySuccess i p))
  /\ exists s', API_KEY_STATES (markKeySuccess i p) !! i = Some s'
                /\ (errorCount s' <= 3)%nat.
Proof.
  intros (s & E & Ha) H. unfold markKeySuccess. rewrite E. cbn [API_KEY_STATES]. split.
  - apply Forall_insert; [done|]. unfold consistent, mark_success. cbn.
    rewrite Ha. split; [done|lia].
  - exists (mark_success s). rewrite list_lookup_insert_eq by (by eapply lookup_lt_Some).
    split; [done|]. cbn. lia.
Qed.

Lemma markKeySuccess_consistent (i : nat) (p : Pool) :
  (exists s, API_KEY_STATES p !! i = Some s /\ isActive s = true) ->
  Forall consistent (API_KEY_STATES p) ->
  Forall consistent (API_KEY_STATES (markKeySuccess i p)).
Proof.
  intros (s & E & Ha) H. unfold markKeySuccess. rewrite E.
  cbn. apply Forall_insert; [done|]. by apply mark_success_consistent.
Qed.

(** A selection on a pool whose cursor is in range. *)
Lemma getNextGeminiKey_post (now : Z) (p : Pool) :
  (currentKeyIndex p < length (API_KEY_STATES p))%nat ->
  exists i s p',
    getNextGeminiKey now p = Some (inl (key s, i), p')
    /\ (currentKeyIndex p' < length (API_KEY_STATES p'))%nat
    /\ length (API_KEY_STATES p') = length (API_KEY_STATES p)
    /\ keys_of p' = keys_of p
    /\ In (key s) (keys_of p)
    /\ (exists s', API_KEY_STATES p' !! i = Some s' /\ isActive s' = true)
    /\ (Forall consistent (API_KEY_STATES p) -> Forall consistent (API_KEY_STATES p')).
Proof.
  intros Hc. rewrite getNextGeminiKey_unfold. cbv zeta.
  destruct (Nat.eqb_spec (length (API_KEY_STATES p)) 0) as [H0|_]; [lia|].
  assert (Hin : forall i s, API_KEY_STATES p !! i = Some s -> In (key s) (keys_of p)).
  { intros i s Hs. apply in_map, list_elem_of_In. by eapply list_elem_of_lookup_2. }
  destruct (scan _ _ _) as [j s| |] eqn:Es.
  - apply scan_found in Es as [Hj Ha].
    assert (Hlt : (j < length (API_KEY_STATES p))%nat) by (by eapply lookup_lt_Some).
    eexists j, s, _. split; [done|]. cbn [API_KEY_STATES currentKeyIndex].
    rewrite length_insert. split; [apply Nat.mod_upper_bound; lia|].
    split; [done|]. split; [by apply map_insert_same with s|].
    split; [by eapply Hin|]. split.
    + exists (use_key now s). by rewrite list_lookup_insert_eq.
    + intros H. apply Forall_insert; [done|].
      apply use_key_consistent. by apply (proj1 (Forall_lookup _ _) H j).
  - destruct (API_KEY_STATES p !! currentKeyIndex p) as [s|] eqn:El.
    2: { apply lookup_ge_None in El. lia. }
    eexists (currentKeyIndex p), s, _. split; [done|].
    cbn [API_KEY_STATES currentKeyIndex].
    rewrite length_insert, length_map. split; [apply Nat.mod_upper_bound; lia|].
    split; [done|]. split.
    { unfold keys_of. cbn.
      rewrite (map_insert_same key _ _ _ (reset_key s)); [by rewrite map_map| |done].
      by rewrite lookup_map, El. }
    split; [by eapply Hin|]. split.
    + exists (use_key now (reset_key s)).
      by rewrite list_lookup_insert_eq by (by rewrite length_map).
    + intros _. apply Forall_insert.
      * apply Forall_forall. intros x Hx. apply list_elem_of_In, in_map_iff in Hx.
        destruct Hx as (y & <- & _). apply reset_key_consistent.
      * apply use_key_consistent, reset_key_consistent.
  - by apply scan_defined in Es.
Qed.

(** The [try] block, after a request sent with key [i]. *)
Lemma try_block_post (i : nat) (r : fetch_result) (st : state) :
  keys_of (pool (try_block i r st).2) = keys_of (pool st)
  /\ (slept st <= slept (try_block i r st).2 <= slept st + 10000)%Z
  /\ (forall m, (try_block i r st).1 = Throw m -> slept (try_block i r st).2 = slept st)
  /\ (forall t, (try_block i r st).1 = Return t ->
        exists data, r = Ok data /\ has_content data = true /\ text data = Some t)
  /\ ((exists s, API_KEY_STATES (pool st) !! i = Some s /\ isActive s = true) ->
      Forall consistent (API_KEY_STATES (pool st)) ->
      Forall consistent (API_KEY_STATES (pool (try_block i r st).2))
      /\ exists s', API_KEY_STATES (pool (try_block i r st).2) !! i = Some s'
                    /\ (errorCount s' <= 3)%nat).
Proof.
  assert (Hsame : (exists s, API_KEY_STATES (pool st) !! i = Some s /\ isActive s = true) ->
                  Forall consistent (API_KEY_STATES (pool st)) ->
                  Forall consistent (API_KEY_STATES (pool st))
                  /\ exists s', API_KEY_STATES (pool st) !! i = Some s'
                                /\ (errorCount s' <= 3)%nat).
  { intros (s & E & Ha) H. split; [done|]. exists s. split; [done|].
    enough (errorCount s <= 2)%nat by lia.
    apply consistent_active; [|done]. by apply (proj1 (Forall_lookup _ _) H i). }
  unfold try_block, and_then.
  destruct r as [m|status m|[hc [reason|] [t|]]];
    cbn [has_content blockReason text negb];
    [ | repeat match goal with
               | |- context [match message_includes ?a ?b with _ => _ end] =>
                   destruct (message_includes a b) as [[|]|]
               | |- context [if ?b then _ else _] => destruct b
               end
      | destruct hc; cbn [negb] ..];
    cbn [fst snd pool slept with_pool sleep];
    rewrite ?markKeyError_keys, ?markKeySuccess_keys;
    (split; [done|]); (split; [lia|]); (split; [done|]);
    (split; [intros ? [= <-] || intros ? [=]; eauto|]);
    auto using markKeyError_active, markKeySuccess_active.
Qed.

(** The loop, from a pool whose cursor is in range: what it returns and
    what it leaves. *)
Lemma attempts_trace (provider : nat -> jsstring -> fetch_result) (clock : nat -> Z)
    (maxTotalRetries : nat) :
  forall (remaining attemptCount : nat) (st : state),
    (currentKeyIndex (pool st) < length (API_KEY_STATES (pool st)))%nat ->
    exists r st' made,
      attempts provider clock maxTotalRetries remaining attemptCount st = Some (r, st')
      /\ requests st' = made ++ requests st
      /\ (length made <= remaining)%nat
      /\ (currentKeyIndex (pool st') < length (API_KEY_STATES (pool st')))%nat
      /\ keys_of (pool st') = keys_of (pool st)
      /\ (slept st <= slept st' <= slept st + 10000 * Z.of_nat (length made))%Z
      /\ (Forall consistent (API_KEY_STATES (pool st)) ->
          Forall consistent (API_KEY_STATES (pool st')))
      /\ (forall t, r = inl t ->
            exists k data,
              In k (keys_of (pool st))
              /\ provider (attemptCount + length made)%nat k = Ok data
              /\ has_content data = true /\ text data = Some t
              /\ (0 < length made)%nat).
Proof.
  induction remaining as [|remaining IH]; intros attemptCount st Hc.
  - exists (inr (Error (exhausted_message attemptCount))), st, [].
    cbn [attempts length app]. repeat (split; [done || lia|]). done.
  - cbn [attempts].
    destruct (getNextGeminiKey_post (clock (S attemptCount)) (pool st) Hc)
      as (i & s & p' & -> & Hc' & Hl' & Hk' & Hin & Hact & Hcons).
    set (st1 := mkState p' (i :: requests st) (slept st)).
    destruct (try_block_shape i (provider (S attemptCount) (key s)) st1)
      as (Hreq & Hlen & Hcur).
    destruct (try_block_post i (provider (S attemptCount) (key s)) st1)
      as (Hkeys & Hsl & Hthrow & Hret & Hinv).
    destruct (try_block i (provider (S attemptCount) (key s)) st1) as [res st2].
    cbn [fst snd] in *. cbn [pool requests slept st1] in *.
    destruct res as [t| |m].
    + exists (inl t), st2, [i]. rewrite Hreq, Hlen, Hcur, Hkeys, Hk'.
      cbn [length app]. split; [done|]. split; [done|]. split; [lia|].
      split; [done|]. split; [done|]. split; [lia|].
      split; [intros H; exact (proj1 (Hinv Hact (Hcons H)))|].
      intros t' [= <-]. destruct (Hret t eq_refl) as (data & Hd & Hh & Ht).
      exists (key s), data. rewrite Nat.add_1_r. by repeat (split; [done|]); lia.
    + destruct (IH (S attemptCount) st2) as (r & st' & made & -> & Hm & Hle & Hcf & Hkf & Hsf & Hif & Hrf).
      { by rewrite Hlen, Hcur. }
      exists r, st', (made ++ [i]). split; [done|].
      rewrite Hm, Hreq, <- app_assoc, length_app. cbn [length app].
      split; [done|]. split; [lia|]. split; [done|].
      split; [by rewrite Hkf, Hkeys|]. split; [lia|].
      split; [intros H; apply Hif; exact (proj1 (Hinv Hact (Hcons H)))|].
      intros t Hr. destruct (Hrf t Hr) as (k & data & Hk & Hp & Hh & Ht & _).
      exists k, data. rewrite Hkeys, Hk' in Hk.
      replace (attemptCount + (length made + 1))%nat
        with (S attemptCount + length made)%nat by lia.
      by repeat (split; [done|]); lia.
    + specialize (Hthrow m eq_refl). clear Hret.
      set (st3 := if (S attemptCount <? maxTotalRetries)%nat
                  then sleep 10000 (with_pool (markKeyError i (Str m)) st2)
                  else with_pool (markKeyError i (Str m)) st2).
      assert (H3 : requests st3 = i :: requests st
                   /\ pool st3 = markKeyError i (Str m) (pool st2)
                   /\ (slept st <= slept st3 <= slept st + 10000)%Z).
      { unfold st3. destruct (S attemptCount <? maxTotalRetries)%nat; cbn;
          rewrite ?Hreq, ?Hthrow; repeat split; lia. }
      destruct H3 as (Hreq3 & Hpool3 & Hsl3).
      destruct (markKeyError_shape i (Str m) (pool st2)) as [Hl3 Hc3].
      destruct (IH (S attemptCount) st3) as (r & st' & made & -> & Hm & Hle & Hcf & Hkf & Hsf & Hif & Hrf).
      { rewrite Hpool3, Hl3, Hc3, Hlen, Hcur. exact Hc'. }
      exists r, st', (made ++ [i]). split; [done|].
      rewrite Hm, Hreq3, <- app_assoc, length_app. cbn [length app].
      split; [done|]. split; [lia|]. split; [done|].
      split; [by rewrite Hkf, Hpool3, markKeyError_keys, Hkeys|]. split; [lia|].
      split.
      { intros H. apply Hif. rewrite Hpool3.
        destruct (Hinv Hact (Hcons H)) as [Hall Hi].
        by apply markKeyError_consistent. }
      intros t Hr. destruct (Hrf t Hr) as (k & data & Hk & Hp & Hh & Ht & _).
      exists k, data. rewrite Hpool3, markKeyError_keys, Hkeys, Hk' in Hk.
      replace (attemptCount + (length made + 1))%nat
        with (S attemptCount + length made)%nat by lia.
      by repeat (split; [done|]); lia.
Qed.

Lemma callGeminiAPI_trace (provider : nat -> jsstring -> fetch_result) (clock : nat -> Z)
    (prompt : jsstring) (st : state) (r : jsstring + exn) (st' : state) :
  cursor_ok (pool st) ->
  callGeminiAPI provider clock prompt st = Some (r, st') ->
  exists made,
    requests st' = made ++ requests st
    /\ (length made <= 3 * length (API_KEY_STATES (pool st)))%nat
    /\ cursor_ok (pool st')
    /\ keys_of (pool st') = keys_of (pool st)
    /\ (slept st <= slept st' <= slept st + 10000 * Z.of_nat (length made))%Z
    /\ (Forall consistent (API_KEY_STATES (pool st)) ->
        Forall consistent (API_KEY_STATES (pool st')))
    /\ (forall t, r = inl t ->
          exists k data,
            In k (keys_of (pool st))
            /\ provider (length made) k = Ok data
            /\ has_content data = true /\ text data = Some t
            /\ (0 < length made)%nat).
Proof.
  intros Hok. unfold callGeminiAPI. destruct (is_blank prompt).
  { intros [= <- <-]. exists []. cbn [length app]. repeat (split; [done || lia|]). done. }
  destruct Hok as [He|Hc].
  - replace (length (API_KEY_STATES (pool st)) * 3)%nat with 0%nat by (by rewrite He).
    cbn [attempts]. intros [= <- <-]. exists [].
    cbn [length app]. split; [done|]. split; [lia|]. split; [by left|].
    repeat (split; [done || lia|]). done.
  - destruct (attempts_trace provider clock
                (length (API_KEY_STATES (pool st)) * 3)
                (length (API_KEY_STATES (pool st)) * 3) 0 st Hc)
      as (r0 & st0 & made & -> & Hm & Hle & Hc' & Hk & Hs & Hi & Hr).
    intros [= <- <-]. exists made. split; [done|]. split; [lia|].
    split; [by right|]. by repeat (split; [done|]).
Qed.

Lemma setGeminiApiKeys_consistent (keys : list jsstring) (p : Pool) :
  Forall consistent (API_KEY_STATES p) ->
  Forall consistent (API_KEY_STATES (setGeminiApiKeys keys p).2).
Proof.
  intros H. unfold setGeminiApiKeys. destruct (List.filter _ keys) as [|k l]; [done|].
  cbn [snd API_KEY_STATES]. apply Forall_forall. intros x Hx.
  apply list_elem_of_In, in_map_iff in Hx. destruct Hx as (y & <- & _).
  split; [done|]. cbn. lia.
Qed.

Lemma one_at_a_time_inv (p : Pool) :
  one_at_a_time p -> cursor_ok p /\ Forall consistent (API_KEY_STATES p).
Proof.
  induction 1 as [|keys p r p' _ [IH1 IH2] Hs
                  |now p r p' _ [IH1 IH2] Hn
                  |provider clock prompt st r st' _ [IH1 IH2] Hcall].
  - split; [by left|done].
  - replace p' with (setGeminiApiKeys keys p).2 by (by rewrite Hs).
    split; [by apply setGeminiApiKeys_cursor_ok|by apply setGeminiApiKeys_consistent].
  - destruct IH1 as [E|Hc].
    + rewrite (getNextGeminiKey_empty now p E) in Hn. injection Hn as _ <-.
      split; [by left|done].
    + destruct (getNextGeminiKey_post now p Hc) as (i & s & q & Hq & Hc' & _ & _ & _ & _ & Hq').
      rewrite Hq in Hn. injection Hn as _ <-. split; [by right|auto].
  - destruct (callGeminiAPI_trace _ _ _ _ _ _ IH1 Hcall) as (made & _ & _ & Hc & _ & _ & Hi & _).
    auto.
Qed.

(** The states overlapping calls can leave are reachable: a call is a
    sequence of selections and marks. *)
Lemma try_block_reachable (i : nat) (r : fetch_result) (st : state) :
  reachable (pool st) -> reachable (pool (try_block i r st).2).
Proof.
  intros H. unfold try_block, and_then.
  destruct r as [m|status m|[hc [reason|] [t|]]];
    cbn [has_content blockReason text negb];
    [ | repeat match goal with
               | |- context [match message_includes ?a ?b with _ => _ end] =>
                   destruct (message_includes a b) as [[|]|]
               | |- context [if ?b then _ else _] => destruct b
               end
      | destruct hc; cbn [negb] ..];
    cbn [snd pool with_pool sleep]; auto using reach_error, reach_success.
Qed.

Lemma attempts_reachable (provider : nat -> jsstring -> fetch_result) (clock : nat -> Z)
    (maxTotalRetries : nat) :
  forall (remaining attemptCount : nat) (st : state) (r : jsstring + exn) (st' : state),
    reachable (pool st) ->
    attempts provider clock maxTotalRetries remaining attemptCount st = Some (r, st') ->
    reachable (pool st').
Proof.
  induction remaining as [|remaining IH]; intros attemptCount st r st' Hr; cbn [attempts].
  - by intros [= _ <-].
  - destruct (getNextGeminiKey (clock (S attemptCount)) (pool st))
      as [[[[apiKey keyIndex]|e] p]|] eqn:En; [| |done].
    2: { intros [= _ <-]. cbn [pool]. by eapply reach_next. }
    assert (Hp : reachable p) by (by eapply reach_next).
    set (st1 := mkState p (keyIndex :: requests st) (slept st)).
    assert (H1 : reachable (pool (try_block keyIndex (provider (S attemptCount) apiKey) st1).2))
      by (by apply try_block_reachable).
    destruct (try_block keyIndex (provider (S attemptCount) apiKey) st1) as [[t| |m] st2];
      cbn [snd] in H1.
    + by intros [= _ <-].
    + by apply IH.
    + apply IH. destruct (S attemptCount <? maxTotalRetries)%nat;
        cbn [pool with_pool sleep]; by apply reach_error.
Qed.

Lemma callGeminiAPI_reachable (provider : nat -> jsstring -> fetch_result)
    (clock : nat -> Z) (prompt : jsstring) (st : state) (r : jsstring + exn)
    (st' : state) :
  reachable (pool st) ->
  callGeminiAPI provider clock prompt st = Some (r, st') ->
  reachable (pool st').
Proof.
  intros Hr. unfold callGeminiAPI. destruct (is_blank prompt); [by intros [= _ <-]|].
  by apply attempts_reachable.
Qed.

(** In whatever order the four functions run, a key in rotation has
    fewer than three errors recorded against it. *)
Lemma reachable_in_rotation (p : Pool) :
  reachable p ->
  Forall (fun s => isActive s = true -> (errorCount s < 3)%nat) (API_KEY_STATES p).
Proof.
  induction 1 as [|keys p r p' _ IH Hs|now p r p' _ IH Hn|i m p _ IH|i p _ IH].
  - done.
  - replace p' with (setGeminiApiKeys keys p).2 by (by rewrite Hs).
    unfold setGeminiApiKeys. destruct (List.filter _ keys) as [|k l]; [done|].
    cbn [snd API_KEY_STATES]. apply Forall_forall. intros x Hx.
    apply list_elem_of_In, in_map_iff in Hx. destruct Hx as (y & <- & _). cbn. lia.
  - assert (Hreset : Forall (fun s => isActive s = true -> (errorCount s < 3)%nat)
                       (map reset_key (API_KEY_STATES p))).
    { apply Forall_forall. intros x Hx. apply list_elem_of_In, in_map_iff in Hx.
      destruct Hx as (y & <- & _). cbn. lia. }
    rewrite getNextGeminiKey_unfold in Hn. cbv zeta in Hn.
    destruct (length (API_KEY_STATES p) =? 0)%nat; [by injection Hn as _ <-|].
    destruct (scan _ _ _) as [j s| |] eqn:Es.
    + injection Hn as _ <-. cbn [API_KEY_STATES]. apply scan_found in Es as [Hj Ha].
      apply Forall_insert; [done|]. cbn. intros _.
      by apply (proj1 (Forall_lookup _ _) IH j s Hj).
    + destruct (API_KEY_STATES p !! currentKeyIndex p) as [s|];
        injection Hn as _ <-; cbn [API_KEY_STATES]; [|done].
      apply Forall_insert; [done|]. cbn. lia.
    + by injection Hn as _ <-.
  - unfold markKeyError. destruct (API_KEY_STATES p !! i) as [s|] eqn:E; [|done].
    cbn [API_KEY_STATES]. apply Forall_insert; [done|].
    unfold mark_error. cbn [isActive errorCount].
    destruct (Nat.leb_spec 3 (S (errorCount s))); [done|]. intros _. lia.
  - unfold markKeySuccess. destruct (API_KEY_STATES p !! i) as [s|] eqn:E; [|done].
    cbn [API_KEY_STATES]. apply Forall_insert; [done|]. cbn. lia.
Qed.

(** X4: how the error counts and the rotation go together.  In whatever
    order the four functions that write the pool run, overlapping calls
    included, a key in rotation has fewer than three errors recorded
    against it.  When the exported functions run one at a time, a key is
    out of rotation exactly when three errors or more are recorded
    against it, and never more than four.  Neither can be improved.
    One call can record two errors for one request: the body of a 403
    whose message is not a string makes [includes] throw after the key
    was marked, and the [catch] clause marks it again; so a key ends
    with four errors.  And with overlapping calls a success can clear
    the count of a key that another call has put out of rotation, which
    stays out with no error recorded. *)
Theorem rotation_and_error_count :
  (forall p, reachable p ->
     Forall (fun s => isActive s = true -> (errorCount s < 3)%nat) (API_KEY_STATES p))
  /\ (forall p, one_at_a_time p ->
        Forall (fun s => (isActive s = false <-> (3 <= errorCount s)%nat)
                         /\ (errorCount s <= 4)%nat) (API_KEY_STATES p))
  /\ (one_at_a_time after_unreadable
      /\ map errorCount (API_KEY_STATES after_unreadable) = [4; 0; 2]%nat
      /\ active_flags after_unreadable = [false; true; true])
  /\ (reachable overtaken
      /\ map errorCount (API_KEY_STATES overtaken) = [0]%nat
      /\ active_flags overtaken = [false]).
Proof.
  split; [exact reachable_in_rotation|]. split; [|split].
  - intros p H. apply one_at_a_time_inv in H as [_ H].
    eapply Forall_impl; [exact H|]. intros s [Ha Hle]. split; [|done].
    rewrite Ha. destruct (Nat.ltb_spec (errorCount s) 3); split; (done || lia).
  - split; [|by vm_compute]. unfold after_unreadable.
    destruct (callGeminiAPI unreadable_then_fine Z.of_nat (lit "Write one question.")
                (fresh three_keys)) as [[r st']|] eqn:E; [|apply turn_initial].
    apply (turn_call unreadable_then_fine Z.of_nat (lit "Write one question.")
             (fresh three_keys) r st'); [|exact E].
    apply (turn_set [lit "key-1"; lit "key-2"; lit "key-3"] initial (inl tt));
      [apply turn_initial|reflexivity].
  - split; [|by vm_compute]. unfold overtaken.
    assert (H1 : reachable one_key).
    { apply (reach_set [lit "key-1"] initial (inl tt)); [apply reach_initial|reflexivity]. }
    destruct (getNextGeminiKey 0 one_key) as [[[[apiKey keyIndex]|e] p]|] eqn:En;
      try apply reach_initial.
    assert (Hp : reachable p) by (by eapply reach_next).
    destruct (callGeminiAPI server_down Z.of_nat (lit "Write one question.") (fresh p))
      as [[r st']|] eqn:E; [|apply reach_initial].
    apply reach_success. by eapply (callGeminiAPI_reachable _ _ _ (fresh p)).
Qed.

(** X5: a text the call returns is the text of a response the provider
    sent, to a request made with one of the configured keys: the request
    of the last attempt, and that attempt is within the budget. *)
Theorem returned_text_is_the_providers (provider : nat -> jsstring -> fetch_result)
    (clock : nat -> Z) (prompt : jsstring) (st : state) (t : jsstring) (st' : state) :
  cursor_ok (pool st) ->
  callGeminiAPI provider clock prompt st = Some (inl t, st') ->
  exists n k data,
    (1 <= n <= 3 * length (API_KEY_STATES (pool st)))%nat
    /\ length (requests st') = (n + length (requests st))%nat
    /\ In k (keys_of (pool st))
    /\ provider n k = Ok data
    /\ has_content data = true
    /\ text data = Some t.
Proof.
  intros Hok Hcall.
  destruct (callGeminiAPI_trace _ _ _ _ _ _ Hok Hcall)
    as (made & Hm & Hle & _ & _ & _ & _ & Hr).
  destruct (Hr t eq_refl) as (k & data & Hk & Hp & Hh & Ht & Hpos).
  exists (length made), k, data. rewrite Hm, length_app.
  by repeat (split; [done || lia|]).
Qed.

Lemma returned_text_is_the_providers_witness :
  cursor_ok (pool (fresh three_keys))
  /\ exists st',
       callGeminiAPI blocked_once Z.of_nat (lit "Write one question.") (fresh three_keys)
       = Some (inl (lit "[]"), st')
       /\ exists n k data,
            (1 <= n <= 3 * length (API_KEY_STATES (pool (fresh three_keys))))%nat
            /\ length (requests st') = (n + length (requests (fresh three_keys)))%nat
            /\ In k (keys_of (pool (fresh three_keys)))
            /\ blocked_once n k = Ok data
            /\ has_content data = true
            /\ text data = Some (lit "[]").
Proof.
  assert (Hok : cursor_ok (pool (fresh three_keys))) by (right; vm_compute; lia).
  split; [exact Hok|]. eexists. split; [vm_compute; reflexivity|].
  apply (returned_text_is_the_providers blocked_once Z.of_nat (lit "Write one question.")
           (fresh three_keys) (lit "[]") _ Hok).
  vm_compute. reflexivity.
Defined.

(** X6: a call never touches the configured keys: whatever the provider
    answers, the pool holds the same keys in the same order afterwards. *)
Theorem callGeminiAPI_keeps_keys (provider : nat -> jsstring -> fetch_result)
    (clock : nat -> Z) (prompt : jsstring) (st : state) (r : jsstring + exn)
    (st' : state) :
  cursor_ok (pool st) ->
  callGeminiAPI provider clock prompt st = Some (r, st') ->
  keys_of (pool st') = keys_of (pool st)
  /\ length (API_KEY_STATES (pool st')) = length (API_KEY_STATES (pool st)).
Proof.
  intros Hok Hcall.
  destruct (callGeminiAPI_trace _ _ _ _ _ _ Hok Hcall) as (made & _ & _ & _ & Hk & _).
  split; [done|]. unfold keys_of in Hk.
  by rewrite <- (length_map key), Hk, length_map.
Qed.

Lemma callGeminiAPI_keeps_keys_witness :
  cursor_ok (pool (fresh three_keys))
  /\ exists r st',
       callGeminiAPI server_down Z.of_nat (lit "Write one question.") (fresh three_keys)
       = Some (r, st')
       /\ keys_of (pool st') = keys_of (pool (fresh three_keys))
       /\ length (API_KEY_STATES (pool st'))
          = length (API_KEY_STATES (pool (fresh three_keys))).
Proof.
  assert (Hok : cursor_ok (pool (fresh three_keys))) by (right; vm_compute; lia).
  split; [exact Hok|]. eexists _, _. split; [vm_compute; reflexivity|].
  eapply (callGeminiAPI_keeps_keys server_down Z.of_nat (lit "Write one question.")
           (fresh three_keys) _ _ Hok).
  vm_compute. reflexivity.
Defined.

(** X7: the time a call spends waiting is at most ten seconds for each
    request it sent, and a call that sent none has not waited. *)
Theorem callGeminiAPI_wait_bound (provider : nat -> jsstring -> fetch_result)
    (clock : nat -> Z) (prompt : jsstring) (st : state) (r : jsstring + exn)
    (st' : state) :
  cursor_ok (pool st) ->
  callGeminiAPI provider clock prompt st = Some (r, st') ->
  exists made,
    requests st' = made ++ requests st
    /\ (0 <= slept st' - slept st <= 10000 * Z.of_nat (length made))%Z
    /\ (slept st' - slept st <= 30000 * Z.of_nat (length (API_KEY_STATES (pool st))))%Z.
Proof.
  intros Hok Hcall.
  destruct (callGeminiAPI_trace _ _ _ _ _ _ Hok Hcall) as (made & Hm & Hle & _ & _ & Hs & _).
  exists made. split; [done|]. split; lia.
Qed.

Lemma callGeminiAPI_wait_bound_witness :
  cursor_ok (pool (fresh three_keys))
  /\ exists r st',
       callGeminiAPI always_blocked Z.of_nat (lit "Write one question.") (fresh three_keys)
       = Some (r, st')
       /\ exists made,
            requests st' = made ++ requests (fresh three_keys)
            /\ (0 <= slept st' - slept (fresh three_keys)
                <= 10000 * Z.of_nat (length made))%Z
            /\ (slept st' - slept (fresh three_keys)
                <= 30000 * Z.of_nat (length (API_KEY_STATES (pool (fresh three_keys)))))%Z.
Proof.
  assert (Hok : cursor_ok (pool (fresh three_keys))) by (right; vm_compute; lia).
  split; [exact Hok|]. eexists _, _. split; [vm_compute; reflexivity|].
  eapply (callGeminiAPI_wait_bound always_blocked Z.of_nat (lit "Write one question.")
           (fresh three_keys) _ _ Hok).
  vm_compute. reflexivity.
Defined.

(** The loop against a provider that rejects every key as invalid. *)
Lemma attempts_invalid (provider : nat -> jsstring -> fetch_result) (clock : nat -> Z)
    (maxTotalRetries : nat) :
  (forall n k, exists m,
      provider n k = NotOk 400 m
      /\ message_includes (lit "API key not valid") m = Some true) ->
  forall (remaining attemptCount : nat) (st : state),
    (currentKeyIndex (pool st) < length (API_KEY_STATES (pool st)))%nat ->
    exists st',
      attempts provider clock maxTotalRetries remaining attemptCount st
      = Some (inr (Error (exhausted_message (attemptCount + remaining))), st')
      /\ slept st' = slept st
      /\ length (requests st') = (remaining + length (requests st))%nat.
Proof.
  intros Hp. induction remaining as [|remaining IH]; intros attemptCount st Hc.
  - exists st. cbn [attempts]. by rewrite Nat.add_0_r.
  - cbn [attempts].
    destruct (getNextGeminiKey_post (clock (S attemptCount)) (pool st) Hc)
      as (i & s & p' & -> & Hc' & _).
    destruct (Hp (S attemptCount) (key s)) as (m & -> & Hm).
    unfold try_block, and_then. rewrite Hm. cbn [Z.eqb Pos.eqb].
    destruct (markKeyError_shape i m p') as [Hl3 Hc3].
    destruct (IH (S attemptCount)
                (with_pool (markKeyError i m)
                   (mkState p' (i :: requests st) (slept st))))
      as (st' & -> & Hs & Hr).
    { cbn [with_pool pool]. by rewrite Hl3, Hc3. }
    exists st'. rewrite Nat.add_succ_r. split; [done|]. split; [done|].
    rewrite Hr. cbn. lia.
Qed.

(** X8: keys the provider rejects as invalid are passed over without any
    wait: when every request is answered with status 400 and the message
    [API key not valid], the call spends its whole budget of requests and
    throws without having waited at all. *)
Theorem invalid_keys_cost_no_wait (provider : nat -> jsstring -> fetch_result)
    (clock : nat -> Z) (prompt : jsstring) (st : state) :
  (forall n k, exists m,
      provider n k = NotOk 400 m
      /\ message_includes (lit "API key not valid") m = Some true) ->
  (currentKeyIndex (pool st) < length (API_KEY_STATES (pool st)))%nat ->
  is_blank prompt = false ->
  let budget := (3 * length (API_KEY_STATES (pool st)))%nat in
  exists st',
    callGeminiAPI provider clock prompt st
    = Some (inr (Error (exhausted_message budget)), st')
    /\ slept st' = slept st
    /\ length (requests st') = (budget + length (requests st))%nat.
Proof.
  intros Hp Hc Hb. cbv zeta. unfold callGeminiAPI. rewrite Hb.
  replace (length (API_KEY_STATES (pool st)) * 3)%nat
    with (3 * length (API_KEY_STATES (pool st)))%nat by lia.
  destruct (attempts_invalid provider clock (3 * length (API_KEY_STATES (pool st))) Hp
              (3 * length (API_KEY_STATES (pool st))) 0 st Hc) as (st' & Ha & Hs & Hr).
  exists st'. by rewrite Ha.
Qed.

Lemma invalid_keys_cost_no_wait_witness :
  (forall n k, exists m,
      invalid_key n k = NotOk 400 m
      /\ message_includes (lit "API key not valid") m = Some true)
  /\ (currentKeyIndex (pool (fresh three_keys))
      < length (API_KEY_STATES (pool (fresh three_keys))))%nat
  /\ is_blank (lit "Write one question.") = false
  /\ exists st',
       callGeminiAPI invalid_key Z.of_nat (lit "Write one question.") (fresh three_keys)
       = Some (inr (Error (exhausted_message
                             (3 * length (API_KEY_STATES (pool (fresh three_keys)))))), st')
       /\ slept st' = slept (fresh three_keys)
       /\ length (requests st')
          = (3 * length (API_KEY_STATES (pool (fresh three_keys)))
             + length (requests (fresh three_keys)))%nat.
Proof.
  assert (Hp : forall n k, exists m,
             invalid_key n k = NotOk 400 m
             /\ message_includes (lit "API key not valid") m = Some true).
  { intros n k. eexists. split; [reflexivity|]. vm_compute. reflexivity. }
  assert (Hc : (currentKeyIndex (pool (fresh three_keys))
                < length (API_KEY_STATES (pool (fresh three_keys))))%nat)
    by (vm_compute; lia).
  split; [exact Hp|]. split; [exact Hc|]. split; [reflexivity|].
  apply (invalid_keys_cost_no_wait invalid_key Z.of_nat (lit "Write one question.")
           (fresh three_keys) Hp Hc eq_refl).
Defined.

End SessionFacts.

(** ** The key list of the generator form *)

Module KeyInputFacts.
Import KeyPool Session KeyInput JsFacts RegexFacts Steady SteadyFacts.

(** *** Matches of a pattern *)

(** The callback of a global replace is called on matches only. *)
Lemma gsub_st_state {St : Type} (I : St -> Prop) (r : regex)
    (f : St -> jsstring -> St * jsstring) :
  (forall st bol s n, I st -> match_here r bol s = Some n -> I (f st (firstn n s)).1) ->
  forall s bol skip st, I st -> I (gsub_st r f bol skip st s).1.
Proof.
  intros Hf. induction s as [|c s IH]; intros bol skip st Hst.
  - simpl. destruct skip; [|done].
    destruct (match_here r bol []) as [n|] eqn:E; [|done].
    generalize (Hf st bol [] n Hst E). by destruct n.
  - cbn [gsub_st]. destruct skip as [|k]; [|by apply IH].
    destruct (match_here r bol (c :: s)) as [[|n]|] eqn:E.
    + generalize (Hf st bol (c :: s) 0%nat Hst E). cbn [firstn].
      destruct (f st []) as [st1 rep]. intros H1.
      generalize (IH false 0%nat st1 H1).
      by destruct (gsub_st r f false 0 st1 s).
    + generalize (Hf st bol (c :: s) (S n) Hst E).
      destruct (f st (firstn (S n) (c :: s))) as [st1 rep]. intros H1.
      generalize (IH false n st1 H1).
      by destruct (gsub_st r f false n st1 s).
    + generalize (IH false 0%nat st Hst).
      by destruct (gsub_st r f false 0 st s).
Qed.

Lemma match_all_Forall (Q : jsstring -> Prop) (r : regex) (s : jsstring) :
  (forall bol s n, match_here r bol s = Some n -> Q (firstn n s)) ->
  Forall Q (match_all r s).
Proof.
  intros HQ. unfold match_all.
  apply (gsub_st_state (Forall Q)); [|done].
  intros st bol s' n Hst Hm. cbn. apply Forall_app. split; [done|].
  constructor; [by eapply HQ|done].
Qed.

(** A literal prefix of a pattern is a prefix of what it matches. *)
Lemma match_here_lit_app (pat : jsstring) (r : regex) :
  forall bol s n,
    match_here (re_lit pat ++ r) bol s = Some n ->
    exists s' n',
      s = pat ++ s'
      /\ match_here r (bol && (length pat =? 0)%nat) s' = Some n'
      /\ n = (length pat + n')%nat.
Proof.
  induction pat as [|c pat IH]; intros bol s n; cbn [re_lit map app].
  - intros H. exists s, n. by rewrite andb_true_r.
  - cbn [match_here]. destruct s as [|x s]; [done|].
    unfold chr at 1. destruct (N.eqb_spec x c) as [->|]; [|done].
    destruct (match_here (map _ pat ++ r) false s) as [n1|] eqn:E; [|done].
    intros [= <-]. destruct (IH false s n1 E) as (s' & n' & -> & Hm & ->).
    exists s', n'. cbn [length Nat.eqb andb] in *. rewrite andb_false_r. done.
Qed.

(** A last [p+] takes the whole run of [p], which is not empty. *)
Lemma rep_plus_last (p : char -> bool) (bol : bool) (s : jsstring) (n : nat) :
  match_here [Rep p 1 None] bol s = Some n -> n = span p s /\ (0 < n)%nat.
Proof.
  cbn [match_here span_upto]. destruct (span p s) as [|k]; [done|].
  cbn. intros [= <-]. lia.
Qed.

Lemma firstn_span (p : char -> bool) (s : jsstring) :
  Forall (fun c => p c = true) (firstn (span p s) s).
Proof.
  induction s as [|c s IH]; [done|]. cbn. destruct (p c) eqn:E; [|done].
  by constructor.
Qed.

(** *** Keys *)

(** What [keyPattern] matches: the prefix, then one key character or
    more. *)
Lemma keyPattern_match (bol : bool) (s : jsstring) (n : nat) :
  match_here keyPattern bol s = Some n ->
  exists w, firstn n s = lit "AIzaSy" ++ w
            /\ w <> [] /\ Forall (fun c => key_char c = true) w.
Proof.
  intros H. apply match_here_lit_app in H as (s' & n' & -> & H & ->).
  apply rep_plus_last in H as [-> Hpos].
  exists (firstn (span key_char s') s').
  rewrite take_app_add'; [|done]. split; [done|]. split; [|apply firstn_span].
  destruct s' as [|c s']; [cbn in Hpos; lia|]. cbn in *.
  destruct (key_char c); [done|lia].
Qed.

Lemma key_char_range (c : char) : key_char c = true -> 45 <= c <= 122.
Proof.
  unfold key_char, in_range. intros H.
  repeat (apply orb_true_iff in H as [H|H]);
    try (apply andb_true_iff in H as [H1 H2]; apply N.leb_le in H1, H2; lia);
    apply N.eqb_eq in H; lia.
Qed.

Lemma key_char_solid (c : char) : key_char c = true -> is_space c = false.
Proof.
  intros H. apply key_char_range in H.
  destruct (is_space c) eqn:E; [|done]. apply TagFacts.space_cases in E. lia.
Qed.

(** A well-formed key: the prefix and at least one more character, key
    characters only. *)
Lemma key_shape (k : jsstring) :
  (exists w, k = lit "AIzaSy" ++ w /\ w <> [] /\ Forall (fun c => key_char c = true) w) ->
  Forall (fun c => key_char c = true) k /\ k <> [].
Proof.
  intros (w & -> & _ & Hw). split; [|done].
  apply Forall_app. split; [|done]. by repeat constructor.
Qed.

Lemma trim_solid (k : jsstring) :
  Forall (fun c => is_space c = false) k -> trim k = k.
Proof.
  intros H. apply trim_id.
  - destruct H as [|c k Hc _]; [done|]. cbn. by rewrite Hc.
  - apply Forall_rev in H. destruct H as [|c k' Hc _]; [done|]. cbn. by rewrite Hc.
Qed.

Lemma includes_unit (a : char) (k : jsstring) :
  Forall (fun c => (a =? c) = false) k -> includes [a] k = false.
Proof.
  induction 1 as [|c k Hc _ IH]; [done|]. cbn. by rewrite Hc, IH.
Qed.

(** Steps 3 and 4 leave a key of key characters as it is, and keep it. *)
Lemma cleanKey_id (k : jsstring) :
  Forall (fun c => key_char c = true) k -> cleanKey k = k /\ keyIsValid k = true.
Proof.
  intros H. unfold cleanKey, keyIsValid.
  rewrite trim_solid by (eapply Forall_impl; [exact H|apply key_char_solid]).
  rewrite (replace_all_needs (chr 44)); [| by left |].
  2: { eapply Forall_impl; [exact H|]. intros c Hc. apply key_char_range in Hc.
       unfold chr. apply N.eqb_neq. lia. }
  split; [done|].
  rewrite !includes_unit; [done| |];
    (eapply Forall_impl; [exact H|]; intros c Hc; apply key_char_range in Hc;
     apply N.eqb_neq; unfold sp; lia).
Qed.

Lemma clean_valid_id (l : list jsstring) :
  Forall (fun k => Forall (fun c => key_char c = true) k) l ->
  List.filter keyIsValid (map cleanKey l) = l.
Proof.
  induction 1 as [|k l Hk _ IH]; [done|]. cbn.
  destruct (cleanKey_id k Hk) as [-> ->]. by rewrite IH.
Qed.

(** *** Removing duplicates *)

Lemma dedupe_spec (l : list jsstring) :
  forall seen,
    NoDup (dedupe seen l)
    /\ (forall x, x ∈ dedupe seen l <-> x ∈ l /\ x ∉ seen)
    /\ (length (dedupe seen l) <= length l)%nat.
Proof.
  induction l as [|x l IH]; intros seen; cbn [dedupe].
  - split; [constructor|]. split; [|done]. intros y. split; [by intros ?%elem_of_nil|].
    by intros [?%elem_of_nil _].
  - destruct (bool_decide_reflect (x ∈ seen)) as [Hin|Hout].
    + destruct (IH seen) as (H1 & H2 & H3). split; [done|]. split; [|cbn; lia].
      intros y. rewrite H2, elem_of_cons. split; [by intros [? ?]; auto|].
      intros [[->|Hy] Hn]; [done|]. done.
    + destruct (IH (x :: seen)) as (H1 & H2 & H3). split; [|split; [|cbn; lia]].
      * apply NoDup_cons. split; [|done]. rewrite H2, elem_of_cons. by intros [_ []]; auto.
      * intros y. rewrite !elem_of_cons, H2, elem_of_cons. split.
        -- intros [->|[Hy Hn]]; [by auto|]. split; [by auto|]. by intros ?; apply Hn; auto.
        -- intros [[->|Hy] Hn]; [by auto|].
           destruct (decide (y = x)) as [->|Hne]; [by auto|].
           right. split; [done|]. by intros [?|?].
Qed.

Lemma dedupe_nonempty (l : list jsstring) : l <> [] -> dedupe [] l <> [].
Proof.
  destruct l as [|x l]; [done|]. intros _. cbn [dedupe].
  destruct (bool_decide_reflect (x ∈ @nil (list N))) as [Hin|_]; [|done].
  by apply elem_of_nil in Hin.
Qed.

(** *** The paste handler *)

Lemma extracted_keys (text : jsstring) :
  Forall (fun k => exists w, k = lit "AIzaSy" ++ w /\ w <> []
                             /\ Forall (fun c => key_char c = true) w)
    (match_all keyPattern text).
Proof. apply match_all_Forall. intros bol s n. apply keyPattern_match. Qed.

Lemma paste_unfold (pastedText : jsstring) :
  handleBulkApiKeyPaste pastedText
  = let extractedKeys := match_all keyPattern (cleanText pastedText) in
    match extractedKeys with
    | [] => NoKeysFound
    | _ :: _ => KeysSet (dedupe [] (firstn 100 extractedKeys))
    end.
Proof.
  unfold handleBulkApiKeyPaste. cbv zeta.
  pose proof (extracted_keys (cleanText pastedText)) as H.
  rewrite clean_valid_id.
  2: { eapply Forall_impl; [exact H|]. intros k Hk. by apply key_shape in Hk as [? _]. }
  by destruct (match_all keyPattern (cleanText pastedText)).
Qed.

Lemma paste_keys (pastedText : jsstring) (uniqueKeys : list jsstring) :
  handleBulkApiKeyPaste pastedText = KeysSet uniqueKeys ->
  (1 <= length uniqueKeys <= 100)%nat
  /\ NoDup uniqueKeys
  /\ Forall (fun k => exists w, k = lit "AIzaSy" ++ w /\ w <> []
                                /\ Forall (fun c => key_char c = true) w) uniqueKeys.
Proof.
  rewrite paste_unfold. cbv zeta.
  pose proof (extracted_keys (cleanText pastedText)) as H.
  destruct (match_all keyPattern (cleanText pastedText)) as [|k l] eqn:E; [done|].
  intros [= <-].
  destruct (dedupe_spec (firstn 100 (k :: l)) []) as (Hnd & Hin & Hlen).
  split; [|split; [done|]].
  - split.
    + cbn. lia.
    + etransitivity; [exact Hlen|]. rewrite length_take. lia.
  - apply Forall_forall. intros x Hx. apply Hin in Hx as [Hx _].
    apply elem_of_take in Hx as (i & Hx & _).
    by apply (proj1 (Forall_lookup _ _) H i).
Qed.

(** X9: the keys a paste puts in the form are well formed: each one is
    the prefix [AIzaSy] followed by at least one more character, all of
    them letters, digits, underscores or hyphens; there are between 1 and
    100 of them and no key comes twice. *)
Theorem pasted_keys_well_formed (pastedText : jsstring) (uniqueKeys : list jsstring) :
  handleBulkApiKeyPaste pastedText = KeysSet uniqueKeys ->
  (1 <= length uniqueKeys <= 100)%nat
  /\ NoDup uniqueKeys
  /\ Forall (fun k => exists w, k = lit "AIzaSy" ++ w /\ w <> []
                                /\ Forall (fun c => key_char c = true) w) uniqueKeys.
Proof. apply paste_keys. Qed.

Lemma pasted_keys_well_formed_witness :
  handleBulkApiKeyPaste pasted_sample = KeysSet [lit "AIzaSyA-1_b"; lit "AIzaSyC2"]
  /\ (1 <= length [lit "AIzaSyA-1_b"; lit "AIzaSyC2"] <= 100)%nat
  /\ NoDup [lit "AIzaSyA-1_b"; lit "AIzaSyC2"]
  /\ Forall (fun k => exists w, k = lit "AIzaSy" ++ w /\ w <> []
                                /\ Forall (fun c => key_char c = true) w)
       [lit "AIzaSyA-1_b"; lit "AIzaSyC2"].
Proof.
  assert (H : handleBulkApiKeyPaste pasted_sample
              = KeysSet [lit "AIzaSyA-1_b"; lit "AIzaSyC2"]) by (vm_compute; reflexivity).
  split; [exact H|]. apply (pasted_keys_well_formed pasted_sample _ H).
Defined.

(** X10: the per-key cleaning and the validity filter of the paste
    handler never change anything: what the pattern extracts has no
    space and no comma to begin with.  So the second error of the handler
    cannot occur, and the first one occurs exactly when the pattern
    matches nowhere in the cleaned text. *)
Theorem paste_cleaning_is_idle (pastedText : jsstring) :
  let extractedKeys := match_all keyPattern (cleanText pastedText) in
  map cleanKey extractedKeys = extractedKeys
  /\ List.filter keyIsValid extractedKeys = extractedKeys
  /\ handleBulkApiKeyPaste pastedText <> NoKeysAfterCleaning
  /\ (handleBulkApiKeyPaste pastedText = NoKeysFound <-> extractedKeys = []).
Proof.
  cbv zeta. rewrite paste_unfold. cbv zeta.
  pose proof (extracted_keys (cleanText pastedText)) as H.
  assert (Hk : Forall (fun k => cleanKey k = k /\ keyIsValid k = true)
                 (match_all keyPattern (cleanText pastedText))).
  { eapply Forall_impl; [exact H|]. intros k Hk.
    apply key_shape in Hk as [Hk _]. by apply cleanKey_id. }
  clear H. revert Hk. generalize (match_all keyPattern (cleanText pastedText)).
  intros l Hk. split; [|split].
  - induction Hk as [|k l [Hc _] _ IH]; [done|]. cbn. by rewrite Hc, IH.
  - induction Hk as [|k l [_ Hv] _ IH]; [done|]. cbn. by rewrite Hv, IH.
  - by destruct l.
Qed.

(** *** The size of the key list *)

Lemma filter_index_above {A : Type} (index : nat) (l : list A) :
  forall i, (index < i)%nat ->
    filter_index (fun j => negb (j =? index)%nat) i l = l.
Proof.
  induction l as [|x l IH]; intros i Hi; [done|]. cbn.
  destruct (Nat.eqb_spec i index); [lia|]. cbn. f_equal. apply IH. lia.
Qed.

Lemma filter_index_length {A : Type} (index : nat) (l : list A) :
  forall i,
    (length l - 1 <= length (filter_index (fun j => negb (j =? index)%nat) i l)
     <= length l)%nat.
Proof.
  induction l as [|x l IH]; intros i; [done|]. cbn.
  destruct (Nat.eqb_spec i index) as [->|Hne]; cbn.
  - rewrite filter_index_above by lia. lia.
  - specialize (IH (S i)). lia.
Qed.

(** X11: the form always holds between 1 and 100 key rows, whatever
    rows are added, removed or edited and whatever is pasted. *)
Theorem key_list_size (apiKeys : list jsstring) :
  editable apiKeys -> (1 <= length apiKeys <= 100)%nat.
Proof.
  induction 1 as [|ks _ IH|i ks _ IH|i v ks ks' _ IH Hu|text ks _ IH].
  - cbn. lia.
  - unfold addApiKey. destruct (Nat.ltb_spec (length ks) 100); [|done].
    rewrite length_app. cbn. lia.
  - unfold removeApiKey. destruct (Nat.ltb_spec 1 (length ks)); [|done].
    pose proof (filter_index_length i ks 0). lia.
  - unfold updateApiKey in Hu. destruct (i <? length ks)%nat; [|done].
    injection Hu as <-. by rewrite length_insert.
  - unfold paste. destruct (handleBulkApiKeyPaste text) as [| |u] eqn:E; try done.
    by apply paste_keys in E as [? _].
Qed.

Lemma key_list_size_witness :
  editable (removeApiKey 0 (paste pasted_sample (addApiKey initialKeys)))
  /\ (1 <= length (removeApiKey 0 (paste pasted_sample (addApiKey initialKeys))) <= 100)%nat.
Proof.
  assert (H : editable (removeApiKey 0 (paste pasted_sample (addApiKey initialKeys))))
    by (apply edit_remove, edit_paste, edit_add, edit_initial).
  split; [exact H|]. apply (key_list_size _ H).
Defined.

(** *** Configuring the pool *)

Lemma filter_filter_same {A : Type} (f : A -> bool) (l : list A) :
  List.filter f (List.filter f l) = List.filter f l.
Proof.
  induction l as [|x l IH]; [done|]. cbn. destruct (f x) eqn:E; [|done].
  cbn. by rewrite E, IH.
Qed.

Lemma trim_trim (k : jsstring) : trim (trim k) = trim k.
Proof. apply trim_id; [apply trim_no_lead|apply trim_no_trail]. Qed.

Lemma setGeminiApiKeys_spec (keys : list jsstring) (p : Pool) :
  let validKeys := List.filter (fun k => negb (is_blank k)) keys in
  (validKeys = [] ->
   setGeminiApiKeys keys p = (inr (Error (lit "No valid API keys provided")), p))
  /\ (validKeys <> [] ->
      exists p',
        setGeminiApiKeys keys p = (inl tt, p')
        /\ keys_of p' = map trim validKeys
        /\ currentKeyIndex p' = 0%nat
        /\ Forall (fun s => key s <> [] /\ trim (key s) = key s
                             /\ isActive s = true /\ usageCount s = 0%nat
                             /\ errorCount s = 0%nat /\ lastError s = None
                             /\ lastUsedAt s = None) (API_KEY_STATES p')).
Proof.
  cbv zeta. unfold setGeminiApiKeys.
  pose proof (fun k => proj1 (filter_In (fun k => negb (is_blank k)) k keys)) as Hin.
  destruct (List.filter _ keys) as [|k l]; [done|]. split; [done|]. intros _.
  eexists. split; [done|]. unfold keys_of. cbn [API_KEY_STATES currentKeyIndex].
  split; [by rewrite map_map|]. split; [done|].
  apply Forall_forall. intros x Hx. apply list_elem_of_In, in_map_iff in Hx.
  destruct Hx as (y & <- & Hy).
  cbn [key isActive usageCount errorCount lastError lastUsedAt]. rewrite trim_trim.
  split; [|done]. apply Hin in Hy as [_ Hy]. unfold is_blank in Hy.
  by destruct (trim y).
Qed.

(** X12: a successful [setGeminiApiKeys] stores the non-blank keys, in
    order and trimmed: no stored key is empty or has whitespace around
    it, every key starts active with all counters at zero, and the cursor
    is on the first key.  When every key is blank it throws and leaves
    the pool as it was. *)
Theorem setGeminiApiKeys_stores_trimmed (keys : list jsstring) (p : Pool) :
  let validKeys := List.filter (fun k => negb (is_blank k)) keys in
  (validKeys = [] ->
   setGeminiApiKeys keys p = (inr (Error (lit "No valid API keys provided")), p))
  /\ (validKeys <> [] ->
      exists p',
        setGeminiApiKeys keys p = (inl tt, p')
        /\ keys_of p' = map trim validKeys
        /\ currentKeyIndex p' = 0%nat
        /\ Forall (fun s => key s <> [] /\ trim (key s) = key s
                             /\ isActive s = true /\ usageCount s = 0%nat
                             /\ errorCount s = 0%nat /\ lastError s = None
                             /\ lastUsedAt s = None) (API_KEY_STATES p')).
Proof. apply setGeminiApiKeys_spec. Qed.

Lemma startGeneration_keys_spec (apiKeys : list jsstring) (p : Pool) :
  let validApiKeys := getValidApiKeys apiKeys in
  (validApiKeys = [] -> startGeneration_keys apiKeys p = (StartNoKeys, p))
  /\ (validApiKeys <> [] ->
      exists p',
        startGeneration_keys apiKeys p = (StartConfigured, p')
        /\ keys_of p' = map trim validApiKeys).
Proof.
  cbv zeta. unfold startGeneration_keys.
  destruct (setGeminiApiKeys_spec (getValidApiKeys apiKeys) p) as [_ H].
  unfold getValidApiKeys in *. rewrite filter_filter_same in H.
  destruct (List.filter _ apiKeys) as [|k l] eqn:E; [done|]. split; [done|]. intros _.
  destruct H as (p' & Hs & Hk & _); [done|]. cbn [length Nat.eqb].
  rewrite Hs. by exists p'.
Qed.

(** X13: the [catch] around [setGeminiApiKeys] in [startGeneration] is
    never entered: the keys handed over are those that passed the same
    test already.  With no valid key the run is refused and the pool left
    alone; otherwise the pool holds the valid keys of the form, trimmed,
    in the order of the form. *)
Theorem startGeneration_keys_never_fails (apiKeys : list jsstring) (p : Pool) :
  let validApiKeys := getValidApiKeys apiKeys in
  (validApiKeys = [] -> startGeneration_keys apiKeys p = (StartNoKeys, p))
  /\ (validApiKeys <> [] ->
      exists p',
        startGeneration_keys apiKeys p = (StartConfigured, p')
        /\ keys_of p' = map trim validApiKeys)
  /\ (forall error, (startGeneration_keys apiKeys p).1 <> StartFailed error).
Proof.
  cbv zeta. destruct (startGeneration_keys_spec apiKeys p) as [H1 H2].
  split; [done|]. split; [done|]. intros error.
  destruct (getValidApiKeys apiKeys) as [|k l].
  - by rewrite H1.
  - destruct H2 as (p' & -> & _); done.
Qed.

(** X14: keys pasted in bulk reach the pool verbatim: a run started on
    the pasted list configures exactly those keys, in the pasted order
    and without repetition. *)
Theorem pasted_keys_are_configured (pastedText : jsstring) (uniqueKeys : list jsstring)
    (p : Pool) :
  handleBulkApiKeyPaste pastedText = KeysSet uniqueKeys ->
  exists p',
    startGeneration_keys uniqueKeys p = (StartConfigured, p')
    /\ keys_of p' = uniqueKeys
    /\ NoDup (keys_of p').
Proof.
  intros H. apply paste_keys in H as (Hlen & Hnd & Hk).
  assert (Hs : Forall (fun k => trim k = k /\ is_blank k = false) uniqueKeys).
  { eapply Forall_impl; [exact Hk|]. intros k Hw. apply key_shape in Hw as [Hc Hne].
    assert (Ht : trim k = k).
    { apply trim_solid. eapply Forall_impl; [exact Hc|]. apply key_char_solid. }
    split; [done|]. unfold is_blank. rewrite Ht. by destruct k. }
  assert (Hv : getValidApiKeys uniqueKeys = uniqueKeys).
  { unfold getValidApiKeys. clear Hlen Hnd Hk.
    induction Hs as [|k l [_ Hb] _ IH]; [done|]. cbn. by rewrite Hb, IH. }
  assert (Ht : map trim uniqueKeys = uniqueKeys).
  { clear Hlen Hnd Hk Hv. induction Hs as [|k l [Hb _] _ IH]; [done|]. cbn. by rewrite Hb, IH. }
  destruct (startGeneration_keys_spec uniqueKeys p) as [_ H2]. rewrite Hv, Ht in H2.
  destruct H2 as (p' & Hp & Hkeys).
  { destruct uniqueKeys; [cbn in Hlen; lia|done]. }
  exists p'. by rewrite Hkeys.
Qed.

Lemma pasted_keys_are_configured_witness :
  handleBulkApiKeyPaste pasted_sample = KeysSet [lit "AIzaSyA-1_b"; lit "AIzaSyC2"]
  /\ exists p',
       startGeneration_keys [lit "AIzaSyA-1_b"; lit "AIzaSyC2"] initial
       = (StartConfigured, p')
       /\ keys_of p' = [lit "AIzaSyA-1_b"; lit "AIzaSyC2"]
       /\ NoDup (keys_of p').
Proof.
  assert (H : handleBulkApiKeyPaste pasted_sample
              = KeysSet [lit "AIzaSyA-1_b"; lit "AIzaSyC2"]) by (vm_compute; reflexivity).
  split; [exact H|]. apply (pasted_keys_are_configured pasted_sample _ initial H).
Defined.

End KeyInputFacts.

(** ** The strategies of the parser *)

Module StrategyFacts.
Import Parser Brackets JsFacts RegexFacts.

(** *** The loop over the strategies *)

Lemma run_strategies_inl {V : Type} (todo : list (outcome V)) (v : V) :
  forall i errors,
    run_strategies i errors todo = inl v <->
    exists before after,
      todo = before ++ inl v :: after
      /\ Forall (fun o => exists message, o = inr message) before.
Proof.
  induction todo as [|[r|m] todo IH]; intros i errors; cbn [run_strategies].
  - split; [done|]. by intros ([|? ?] & ? & ? & _).
  - split.
    + intros [= ->]. by exists [], todo.
    + intros (before & after & Heq & Hb). destruct before as [|b before].
      * by injection Heq as ->.
      * injection Heq as <- _. inversion_clear Hb as [|? ? [? ?] _]. done.
  - rewrite IH. split.
    + intros (before & after & -> & Hb). exists (inr m :: before), after.
      split; [done|]. constructor; [by exists m|done].
    + intros (before & after & Heq & Hb). destruct before as [|b before]; [done|].
      injection Heq as <- ->. inversion_clear Hb. by exists before, after.
Qed.

Lemma strategy_values {V : Type} (JSON_parse : jsstring -> outcome V)
    (response : jsstring) (t : expected) (v : V) :
  In (inl v) (strategies JSON_parse response t) ->
  exists text, JSON_parse text = inl v.
Proof.
  unfold strategies.
  intros [H|[H|[H|[H|[H|[H|[]]]]]]]; revert H;
    unfold strategy1, strategy2, strategy3, strategy4, strategy5, strategy6; cbv zeta;
    repeat match goal with
           | |- context [match ?x with _ => _ end] => destruct x
           end;
    try discriminate; eauto.
Qed.

(** X15: the parser returns the result of the first strategy that does
    not throw, and a value it returns is always one that [JSON.parse]
    produced from some text. *)
Theorem parseJsonRobust_first_success {V : Type} (JSON_parse : jsstring -> outcome V)
    (response : jsstring) (t : expected) (v : V) :
  (parseJsonRobust JSON_parse response t = inl v <->
   exists before after,
     strategies JSON_parse response t = before ++ inl v :: after
     /\ Forall (fun o => exists message, o = inr message) before)
  /\ (parseJsonRobust JSON_parse response t = inl v ->
      exists text, JSON_parse text = inl v).
Proof.
  assert (H : parseJsonRobust JSON_parse response t = inl v <->
              run_strategies 0 [] (strategies JSON_parse response t) = inl v).
  { unfold parseJsonRobust.
    destruct (run_strategies 0 [] (strategies JSON_parse response t));
      split; congruence. }
  rewrite H, run_strategies_inl. split; [done|].
  intros (before & after & Heq & _). apply (strategy_values JSON_parse response t).
  rewrite Heq. apply in_app_iff. right. by left.
Qed.

(** *** A response without an opening bracket *)

Lemma Forall_lacks (p : char -> bool) (s : jsstring) :
  forallb (fun c => negb (p c)) s = true -> Forall (fun c => p c = false) s.
Proof.
  induction s as [|c s IH]; cbn; [done|]. intros [Hc Hs]%andb_true_iff.
  constructor; [by apply negb_true_iff|by apply IH].
Qed.

Lemma split_go_preserves (P : char -> Prop) (sep : jsstring) (s : jsstring) :
  forall skip cur,
    Forall P cur -> Forall P s -> Forall (Forall P) (split_go sep skip cur s).
Proof.
  induction s as [|c s IH]; intros skip cur Hcur Hs; cbn [split_go].
  - constructor; [by apply Forall_rev|done].
  - inversion_clear Hs as [|? ? Hc Hs']. destruct skip as [|k]; [|by apply IH].
    destruct (is_prefix sep (c :: s)).
    + constructor; [by apply Forall_rev|]. by apply IH.
    + apply IH; [by constructor|done].
Qed.

Lemma join_preserves (P : char -> Prop) (sep : jsstring) (parts : list jsstring) :
  Forall P sep -> Forall (Forall P) parts -> Forall P (join sep parts).
Proof.
  intros Hsep. induction 1 as [|p parts Hp Hparts IH]; [done|]. cbn [join].
  destruct parts as [|q parts]; [done|].
  apply Forall_app; split; [done|]. apply Forall_app; split; [done|]. exact IH.
Qed.

Lemma split_join_preserves (P : char -> Prop) (sep rep s : jsstring) :
  Forall P rep -> Forall P s -> Forall P (join rep (split sep s)).
Proof.
  intros Hrep Hs. apply join_preserves; [done|]. by apply split_go_preserves.
Qed.

Lemma protect_map_preserves (P : char -> Prop) (m : list (jsstring * jsstring)) :
  Forall (fun e => Forall P e.2) m ->
  forall s, Forall P s -> Forall P (protect_map m s).
Proof.
  unfold protect_map. induction 1 as [|[e ph] m Hph _ IH]; intros s Hs; [done|].
  cbn [fold_left]. apply IH. by apply split_join_preserves.
Qed.

Lemma restore_map_preserves (P : char -> Prop) (m : list (jsstring * jsstring)) :
  Forall (fun e => Forall P e.1) m ->
  forall s, Forall P s -> Forall P (restore_map m s).
Proof.
  unfold restore_map. induction 1 as [|[e ph] m He _ IH]; intros s Hs; [done|].
  cbn [fold_left]. apply IH. by apply split_join_preserves.
Qed.

(** The cleaning of strategy 4 brings in no bracket. *)
Lemma aggressive_clean_lacks (t : expected) (response : jsstring) :
  Forall (fun c => chr (openChar t) c = false) response ->
  Forall (fun c => chr (openChar t) c = false) (aggressive_clean response).
Proof.
  intros H. unfold aggressive_clean, fix_quotes. cbv zeta.
  destruct t;
    repeat first
      [ apply replace_all_preserves; [by repeat constructor|]
      | apply restore_map_preserves; [by repeat constructor|]
      | apply protect_map_preserves; [by repeat constructor|]
      | apply trim_preserves ];
    exact H.
Qed.

Lemma indexOf_from_absent (c : char) (s : jsstring) :
  Forall (fun x => chr c x = false) s ->
  forall i, indexOf_from c i s = (-1)%Z.
Proof.
  induction 1 as [|x s Hx _ IH]; intros i; [done|]. cbn.
  unfold chr in Hx. rewrite Hx. apply IH.
Qed.

Lemma strategies_without_bracket {V : Type} (JSON_parse : jsstring -> outcome V)
    (response : jsstring) (t : expected) :
  Forall (fun c => c <> openChar t) response ->
  strategies JSON_parse response t
  = [ throw "No JSON found in response";
      throw "No opening bracket found";
      throw "Invalid bracket positions";
      throw "No JSON after aggressive cleaning";
      throw "Cannot find JSON boundaries";
      throw "No opening bracket found" ].
Proof.
  intros H.
  assert (Hc : Forall (fun c => chr (openChar t) c = false) response).
  { eapply Forall_impl; [exact H|]. intros c Hne. by apply N.eqb_neq. }
  unfold strategies, strategy1, strategy2, strategy3, strategy4, strategy5, strategy6.
  cbv zeta. unfold indexOf. rewrite !(indexOf_from_absent _ _ Hc). cbn [Z.eqb orb].
  rewrite (search_needs (chr (openChar t))); [|by left|done].
  rewrite (search_needs (chr (openChar t)));
    [done|by left|by apply aggressive_clean_lacks].
Qed.

Lemma parseJsonRobust_without_bracket {V : Type} (JSON_parse : jsstring -> outcome V)
    (response : jsstring) (t : expected) :
  Forall (fun c => c <> openChar t) response ->
  parseJsonRobust JSON_parse response t = inr failure_message.
Proof.
  intros H. unfold parseJsonRobust.
  by rewrite (strategies_without_bracket JSON_parse response t H).
Qed.

(** X16: a response in which the opening bracket of the expected kind
    does not occur cannot be parsed, whatever [JSON.parse] would make of
    it: every strategy gives up before calling it, and the parser throws
    its fixed message. *)
Theorem parseJsonRobust_needs_bracket {V : Type} (JSON_parse : jsstring -> outcome V)
    (response : jsstring) (t : expected) :
  Forall (fun c => c <> openChar t) response ->
  parseJsonRobust JSON_parse response t = inr failure_message
  /\ Forall (fun o => exists message, o = inr message)
       (strategies JSON_parse response t).
Proof.
  intros H. unfold parseJsonRobust.
  rewrite (strategies_without_bracket JSON_parse response t H).
  split; [done|]. repeat constructor; by eexists.
Qed.

Lemma parseJsonRobust_needs_bracket_witness :
  Forall (fun c => c <> openChar ExpArray) (lit "{'answer': 'A'}")
  /\ parseJsonRobust lenient_parse (lit "{'answer': 'A'}") ExpArray = inr failure_message
  /\ Forall (fun o => exists message, o = inr message)
       (strategies lenient_parse (lit "{'answer': 'A'}") ExpArray).
Proof.
  assert (H : Forall (fun c => c <> openChar ExpArray) (lit "{'answer': 'A'}"))
    by (repeat constructor; done).
  split; [exact H|].
  apply (parseJsonRobust_needs_bracket lenient_parse (lit "{'answer': 'A'}") ExpArray H).
Defined.

(** *** Bracket balancing *)

Lemma net_cons (o c x : char) (s : jsstring) :
  net o c (x :: s)
  = ((if (x =? o)%N then 1 else 0) - (if (x =? c)%N then 1 else 0) + net o c s)%Z.
Proof.
  unfold net, count. cbn [List.filter].
  destruct (x =? o), (x =? c); cbn [length]; lia.
Qed.

Lemma balance_spec (o c : char) (s : jsstring) :
  forall (depth i : Z),
    (forall k, (k < length s)%nat ->
       (depth + net o c (firstn (S k) s) = 0)%Z ->
       (forall j, (j < k)%nat -> (depth + net o c (firstn (S j) s))%Z <> 0%Z) ->
       balance o c depth i s = (i + Z.of_nat k)%Z)
    /\ ((forall k, (k < length s)%nat ->
           (depth + net o c (firstn (S k) s))%Z <> 0%Z) ->
        balance o c depth i s = (-1)%Z).
Proof.
  induction s as [|x s IH]; intros depth i.
  { split; [cbn; intros; lia|done]. }
  cbn [balance]. cbv zeta.
  set (d := (if (x =? c)%N then (if (x =? o)%N then depth + 1 else depth) - 1
             else if (x =? o)%N then depth + 1 else depth)%Z).
  assert (Hd : forall w, (depth + net o c (x :: w) = d + net o c w)%Z).
  { intros w. rewrite net_cons. unfold d. destruct (x =? o), (x =? c); lia. }
  assert (H1 : (depth + net o c (firstn 1 (x :: s)) = d)%Z).
  { change (firstn 1 (x :: s)) with [x]. rewrite Hd. unfold net, count. cbn. lia. }
  destruct (IH d (i + 1)%Z) as [IHa IHb]. split.
  - intros k Hk Hz Hfirst. destruct k as [|k].
    + rewrite H1 in Hz. rewrite Hz. cbn. lia.
    + pose proof (Hfirst 0%nat ltac:(lia)) as H0. rewrite H1 in H0.
      destruct (Z.eqb_spec d 0) as [|_]; [done|].
      rewrite (IHa k).
      * lia.
      * cbn in Hk. lia.
      * rewrite <- Hd. exact Hz.
      * intros j Hj. rewrite <- Hd. apply (Hfirst (S j)). lia.
  - intros Hnone. pose proof (Hnone 0%nat ltac:(cbn; lia)) as H0. rewrite H1 in H0.
    destruct (Z.eqb_spec d 0) as [|_]; [done|].
    apply IHb. intros k Hk. rewrite <- Hd. apply (Hnone (S k)). cbn. lia.
Qed.

(** X17: the scan of strategy 6 ends on the first position up to which
    the text has as many closing brackets as opening ones, and finds no
    end when there is no such position. *)
Theorem balance_first_balanced (o c : char) (i : Z) (s : jsstring) :
  (forall k, (k < length s)%nat ->
     count o (firstn (S k) s) = count c (firstn (S k) s) ->
     (forall j, (j < k)%nat -> count o (firstn (S j) s) <> count c (firstn (S j) s)) ->
     balance o c 0 i s = (i + Z.of_nat k)%Z)
  /\ ((forall k, (k < length s)%nat ->
         count o (firstn (S k) s) <> count c (firstn (S k) s)) ->
      balance o c 0 i s = (-1)%Z).
Proof.
  destruct (balance_spec o c s 0 i) as [Ha Hb]. split.
  - intros k Hk Heq Hfirst. apply Ha; [done|unfold net; lia|].
    intros j Hj. pose proof (Hfirst j Hj). unfold net. lia.
  - intros Hnone. apply Hb. intros k Hk. pose proof (Hnone k Hk). unfold net. lia.
Qed.

End StrategyFacts.

(** ** One item of a generation run *)

Module GenerationFacts.
Import Validation Generation Steady SteadyFacts.

(** *** The structural validator *)

Lemma trimStart_nil (s : jsstring) :
  trimStart s = [] <-> Forall (fun c => is_space c = true) s.
Proof.
  induction s as [|c s IH]; cbn; [done|].
  destruct (is_space c) eqn:E.
  - rewrite IH. split; [by constructor|by inversion 1].
  - split; [done|]. inversion 1; congruence.
Qed.

(** [trim] leaves nothing exactly of a text made of whitespace. *)
Lemma trim_nil (s : jsstring) :
  trim s = [] <-> Forall (fun c => is_space c = true) s.
Proof.
  split.
  - intros H. apply trimStart_nil. unfold trim, trimEnd in H.
    apply (f_equal (@rev N)) in H. rewrite rev_involutive in H. cbn in H.
    apply trimStart_nil, Forall_rev in H. rewrite rev_involutive in H.
    pose proof (trimStart_no_lead s) as Hl.
    destruct (trimStart s) as [|c w]; [done|]. cbn in Hl.
    inversion_clear H as [|? ? Hc _]. by rewrite Hc in Hl.
  - intros H. apply trimStart_nil in H. unfold trim. by rewrite H.
Qed.

Lemma type_is_name (t : QuestionType) (question : ExtractedQuestion) :
  type_is t question = true <-> question_type question = Some (type_name t).
Proof.
  unfold type_is, str_eqb. destruct (question_type question) as [s|]; [|done].
  rewrite bool_decide_eq_true. split; congruence.
Qed.

Lemma some_solid (s : jsstring) :
  ~ Forall (fun c => is_space c = true) s <-> exists c, In c s /\ is_space c = false.
Proof.
  induction s as [|x s IH].
  - split; [by intros []|by intros (? & [] & _)].
  - split.
    + intros Hn. destruct (is_space x) eqn:E; [|by exists x; split; [left|]].
      destruct (proj1 IH) as (c & Hc & Hs); [|by exists c; split; [right|]].
      intros Hall. apply Hn. by constructor.
    + intros (c & [->|Hc] & Hs) Hall; inversion_clear Hall as [|? ? Hx Hrest].
      * congruence.
      * apply (proj2 IH); [by exists c|done].
Qed.

(** X18: what the structural validator asks of an item, and nothing
    else: a statement with at least one character that is not
    whitespace, one of the four type names, and for the two choice types
    a non-empty list of options.  The answer and the solution are not
    looked at. *)
Theorem validateQuestionAnswer_accepts_iff (question : ExtractedQuestion) :
  isValid (validateQuestionAnswer question) = true
  <-> (exists statement c,
         question_statement question = Some statement
         /\ In c statement /\ is_space c = false)
      /\ (exists t, question_type question = Some (type_name t))
      /\ (question_type question = Some (lit "MCQ")
          \/ question_type question = Some (lit "MSQ") ->
          exists opts, options question = Some opts /\ opts <> []).
Proof.
  unfold validateQuestionAnswer.
  assert (Hst : falsy (question_statement question)
                || (length (trim (default [] (question_statement question))) =? 0)%nat
                = false
                <-> exists statement c,
                      question_statement question = Some statement
                      /\ In c statement /\ is_space c = false).
  { destruct (question_statement question) as [statement|]; cbn [default].
    2: { split; [done|]. by intros (? & ? & ? & _). }
    rewrite orb_false_iff, Nat.eqb_neq, length_zero_iff_nil, trim_nil, some_solid.
    split.
    - intros [_ (c & Hc & Hs)]. by exists statement, c.
    - intros (? & c & [= <-] & Hc & Hs). split; [|by exists c].
      destruct statement; [by destruct Hc|done]. }
  assert (Hty : falsy (question_type question)
                || negb (existsb (fun t => type_is t question) [MCQ; MSQ; NAT; Subjective])
                = false
                <-> exists t, question_type question = Some (type_name t)).
  { rewrite orb_false_iff, negb_false_iff, existsb_exists. split.
    - intros [_ (t & _ & Ht)]. exists t. by apply type_is_name.
    - intros (t & Ht). split; [by rewrite Ht; destruct t|].
      exists t. split; [destruct t; cbn; auto|by apply type_is_name]. }
  assert (Hop : (type_is MCQ question || type_is MSQ question)
                && match options question with
                   | None => true
                   | Some opts => (length opts =? 0)%nat
                   end = false
                <-> (question_type question = Some (lit "MCQ")
                     \/ question_type question = Some (lit "MSQ") ->
                     exists opts, options question = Some opts /\ opts <> [])).
  { rewrite andb_false_iff, orb_false_iff.
    rewrite <- !not_true_iff_false, !type_is_name. split.
    - intros [[H1 H2]|H] [Ht|Ht]; try done;
        (destruct (options question) as [opts|]; [|done]);
        exists opts; (split; [done|]); intros ->; by apply H.
    - intros H.
      destruct (decide (question_type question = Some (lit "MCQ"))) as [Ht|Hn1].
      { right. destruct (H (or_introl Ht)) as (opts & -> & Hne). by destruct opts. }
      destruct (decide (question_type question = Some (lit "MSQ"))) as [Ht|Hn2].
      { right. destruct (H (or_intror Ht)) as (opts & -> & Hne). by destruct opts. }
      by left. }
  rewrite <- Hst, <- Hty, <- Hop.
  destruct (falsy (question_statement question) || _); cbn [isValid].
  { split; [done|]. by intros [? _]. }
  destruct (falsy (question_type question) || _); cbn [isValid].
  { split; [done|]. by intros (_ & ? & _). }
  destruct (_ && _); cbn [isValid]; [|done].
  split; [done|]. by intros (_ & _ & ?).
Qed.

(** *** The checks between the validator and the table *)

(** What an item that passes every check looks like. *)
Lemma checkGenerated_save (questionType : QuestionType)
    (generatedQuestions : list ExtractedQuestion) (saved : ExtractedQuestion) :
  checkGenerated questionType generatedQuestions = Save saved ->
  exists question rest,
    generatedQuestions = question :: rest
    /\ isValid (validateQuestionAnswer question) = true
    /\ is_wrong saved = false
    /\ question_statement saved = question_statement question
    /\ match questionType with
       | NAT | Subjective => options saved = None
       | MCQ | MSQ => exists opts, options saved = Some opts /\ length opts = 4%nat
       end.
Proof.
  unfold checkGenerated. destruct generatedQuestions as [|question rest]; [done|].
  destruct (isValid (validateQuestionAnswer question)) eqn:Ev; cbn [negb]; [|done].
  intros H. exists question, rest. split; [done|]. split; [done|]. revert H.
  destruct questionType; cbn [andb].
  1,2: destruct (options question) as [opts|] eqn:Eo; [|done];
       destruct (Nat.eqb_spec (length opts) 4) as [H4|]; [|done]; cbn [negb];
       destruct (is_wrong question) eqn:Ew; [done|]; intros [= <-];
       split; [done|]; split; [done|]; by exists opts.
  all: cbn [with_options is_wrong]; destruct (is_wrong question) eqn:Ew; [done|];
       by intros [= <-].
Qed.

(** The loop of one item: it makes at most [remaining] more attempts and
    hands at most one row to the table, a row built from an item that
    passed the checks. *)
Lemma item_loop_spec (questionType : QuestionType)
    (generate : nat -> list ExtractedQuestion + jsstring) (insert : SavedRow -> bool) :
  forall (remaining : nat) (log : item_log),
    let result := item_loop questionType generate insert remaining log in
    (attempts_made log <= attempts_made result.2 <= attempts_made log + remaining)%nat
    /\ ((result.1 = false /\ inserts result.2 = inserts log
         /\ attempts_made result.2 = (attempts_made log + remaining)%nat)
        \/ exists n generatedQuestions question,
             generate n = inl generatedQuestions
             /\ checkGenerated questionType generatedQuestions = Save question
             /\ inserts result.2
                = (questionToSave questionType question,
                   insert (questionToSave questionType question)) :: inserts log
             /\ result.1 = insert (questionToSave questionType question)).
Proof.
  cbv zeta. induction remaining as [|remaining IH]; intros log.
  { cbn. split; [lia|]. left. repeat split; lia. }
  cbn [item_loop]. cbv zeta.
  set (log1 := mkLog (S (attempts_made log)) (inserts log)).
  assert (Hnext : let result := item_loop questionType generate insert remaining log1 in
            (attempts_made log <= attempts_made result.2
             <= attempts_made log + S remaining)%nat
            /\ ((result.1 = false /\ inserts result.2 = inserts log
                 /\ attempts_made result.2 = (attempts_made log + S remaining)%nat)
                \/ exists n generatedQuestions question,
                     generate n = inl generatedQuestions
                     /\ checkGenerated questionType generatedQuestions = Save question
                     /\ inserts result.2
                        = (questionToSave questionType question,
                           insert (questionToSave questionType question)) :: inserts log
                     /\ result.1 = insert (questionToSave questionType question))).
  { cbv zeta. destruct (IH log1) as [Hle H]. cbn [attempts_made inserts log1] in *.
    split; [lia|]. destruct H as [(H1 & H2 & H3)|H]; [left|by right].
    repeat split; [done|done|lia]. }
  cbv zeta in Hnext.
  destruct (generate (S (attempts_made log))) as [generatedQuestions|message] eqn:Eg;
    [|exact Hnext].
  destruct (checkGenerated questionType generatedQuestions) as [| | | |question] eqn:Ec;
    try exact Hnext.
  assert (Hsave : exists n generatedQuestions question,
             generate n = inl generatedQuestions
             /\ checkGenerated questionType generatedQuestions = Save question
             /\ (questionToSave questionType question,
                 insert (questionToSave questionType question)) :: inserts log
                = (questionToSave questionType question,
                   insert (questionToSave questionType question)) :: inserts log
             /\ insert (questionToSave questionType question)
                = insert (questionToSave questionType question))
    by (by exists (S (attempts_made log)), generatedQuestions, question).
  destruct (insert (questionToSave questionType question)) eqn:Ei;
    cbn [fst snd attempts_made inserts log1]; (split; [lia|]); right;
    destruct Hsave as (n & g & q & H1 & H2 & H3 & H4);
    exists (S (attempts_made log)), generatedQuestions, question;
    by rewrite Ei.
Qed.

Lemma generate_item_spec (questionType : QuestionType)
    (generate : nat -> list ExtractedQuestion + jsstring) (insert : SavedRow -> bool) :
  let result := generate_item questionType generate insert in
  (attempts_made result.2 <= 3)%nat
  /\ ((result.1 = false /\ inserts result.2 = [] /\ attempts_made result.2 = 3%nat)
      \/ exists n generatedQuestions question,
           generate n = inl generatedQuestions
           /\ checkGenerated questionType generatedQuestions = Save question
           /\ inserts result.2
              = [(questionToSave questionType question,
                  insert (questionToSave questionType question))]
           /\ result.1 = insert (questionToSave questionType question)).
Proof.
  cbv zeta. unfold generate_item, maxAttempts.
  destruct (item_loop_spec questionType generate insert 3 (mkLog 0 [])) as [Hle H].
  cbn [attempts_made inserts] in *. split; [lia|exact H].
Qed.

(** X19: whatever the provider generates and whatever the run is
    configured for, a row handed to the table has the run's question
    type (the item's own type is not copied), a statement that is not
    blank, no wrong-flag, and its options follow the run's type: none in a
    NAT or Subjective run, exactly four in an MCQ or MSQ run. *)
Theorem saved_row_shape (questionType : QuestionType)
    (generate : nat -> list ExtractedQuestion + jsstring) (insert : SavedRow -> bool)
    (row : SavedRow) (ok : bool) :
  In (row, ok) (inserts (generate_item questionType generate insert).2) ->
  row_type row = questionType
  /\ row_is_wrong row = None
  /\ (exists statement c,
        row_statement row = Some statement /\ In c statement /\ is_space c = false)
  /\ match questionType with
     | NAT | Subjective => row_options row = None
     | MCQ | MSQ => exists opts, row_options row = Some opts /\ length opts = 4%nat
     end.
Proof.
  destruct (generate_item_spec questionType generate insert)
    as [_ [(_ & -> & _)|(n & g & q & _ & Hc & -> & _)]]; [done|].
  intros [[= <- _]|[]].
  apply checkGenerated_save in Hc as (q0 & rest & _ & Hv & Hw & Hs & Ho).
  unfold questionToSave. cbn [row_type row_is_wrong row_statement row_options].
  rewrite Hw, Hs. split; [done|]. split; [done|]. split; [|done].
  by apply validateQuestionAnswer_accepts_iff in Hv as [? _].
Qed.

Lemma saved_row_shape_witness :
  In (mkRow (Some (lit "Which planet is closest to the Sun?")) NAT None
        (Some (lit "A")) None None, true)
     (inserts mistyped_run.2)
  /\ row_type (mkRow (Some (lit "Which planet is closest to the Sun?")) NAT None
                 (Some (lit "A")) None None) = NAT
  /\ row_is_wrong (mkRow (Some (lit "Which planet is closest to the Sun?")) NAT None
                     (Some (lit "A")) None None) = None
  /\ (exists statement c,
        row_statement (mkRow (Some (lit "Which planet is closest to the Sun?")) NAT None
                         (Some (lit "A")) None None) = Some statement
        /\ In c statement /\ is_space c = false)
  /\ row_options (mkRow (Some (lit "Which planet is closest to the Sun?")) NAT None
                    (Some (lit "A")) None None) = None.
Proof.
  assert (H : In (mkRow (Some (lit "Which planet is closest to the Sun?")) NAT None
                    (Some (lit "A")) None None, true)
                 (inserts mistyped_run.2)) by (left; reflexivity).
  split; [exact H|].
  apply (saved_row_shape NAT (fun _ => inl [four_options]) (fun _ => true) _ true H).
Defined.

(** X20: an item costs at most three generation calls and at most one
    write to the table, whether that write goes through or not: a failed
    insert ends the item without another attempt.  The item counts as
    generated exactly when its one insert went through, and the loop
    stops before its third attempt only after an insert. *)
Theorem item_costs (questionType : QuestionType)
    (generate : nat -> list ExtractedQuestion + jsstring) (insert : SavedRow -> bool) :
  let result := generate_item questionType generate insert in
  (attempts_made result.2 <= 3)%nat
  /\ (length (inserts result.2) <= 1)%nat
  /\ (result.1 = true <-> exists row, inserts result.2 = [(row, true)])
  /\ ((attempts_made result.2 < 3)%nat -> inserts result.2 <> []).
Proof.
  cbv zeta.
  destruct (generate_item_spec questionType generate insert)
    as [Hle [(-> & -> & ->)|(n & g & q & _ & _ & -> & ->)]].
  - split; [lia|]. split; [cbn; lia|]. split; [|lia]. split; [done|]. by intros [? ?].
  - split; [lia|]. split; [cbn; lia|]. split; [|done]. split.
    + intros ->. by eexists.
    + by intros (row & [= _ ->]).
Qed.

End GenerationFacts.

(** ** The functions built on the client and the parser *)

Module PipelineFacts.
Import KeyPool Client Parser Validation Session Pipeline.
Import KeyPoolFacts ClientFacts SessionFacts StrategyFacts.

Lemma keys_of_length (p q : Pool) :
  keys_of q = keys_of p -> length (API_KEY_STATES q) = length (API_KEY_STATES p).
Proof.
  unfold keys_of. intros H. by rewrite <- (length_map key), H, length_map.
Qed.

Lemma waitTime_range (attempt : nat) : (0 <= waitTime attempt <= 15000)%Z.
Proof. unfold waitTime. lia. Qed.

(** *** The retry loop *)

Section RetryLoop.

Context {R : Type}
        (provider : nat -> nat -> jsstring -> fetch_result)
        (clock : nat -> nat -> Z)
        (maxRetries : nat)
        (prompt : jsstring + exn)
        (process : jsstring -> R + jsstring)
        (failure : jsstring).

Lemma backoff_nonneg (remaining attempt : nat) :
  (0 <= backoff maxRetries remaining attempt)%Z.
Proof.
  revert attempt. induction remaining as [|remaining IH]; intros attempt;
    cbn [backoff]; [done|].
  specialize (IH (S attempt)). pose proof (waitTime_range (S attempt)).
  destruct (S attempt <? maxRetries)%nat; lia.
Qed.

Lemma retry_loop_trace :
  forall (remaining attempt : nat) (lastError : option jsstring) (st : state),
    cursor_ok (pool st) ->
    exists r st' made,
      retry_loop provider clock maxRetries prompt process failure
        remaining attempt lastError st = Some (r, st')
      /\ requests st' = made ++ requests st
      /\ (length made <= remaining * (3 * length (API_KEY_STATES (pool st))))%nat
      /\ cursor_ok (pool st')
      /\ keys_of (pool st') = keys_of (pool st)
      /\ (slept st <= slept st'
          <= slept st + 10000 * Z.of_nat (length made)
             + backoff maxRetries remaining attempt)%Z
      /\ (forall result, r = inl result ->
            exists n j k data response,
              (attempt < n <= attempt + remaining)%nat
              /\ provider n j k = Ok data /\ text data = Some response
              /\ process response = inl result)
      /\ (forall e, r = inr e ->
            (prompt = inr e /\ st' = st)
            \/ exists message, e = Error (failure ++ message) /\ message <> [])
      /\ (forall e, prompt = inr e -> remaining <> 0%nat -> r = inr e /\ st' = st).
Proof.
  induction remaining as [|remaining IH]; intros attempt lastError st Hok.
  - exists (inr (Error (failure ++ last_message lastError))), st, [].
    cbn [retry_loop backoff length app]. split; [done|]. split; [done|]. split; [lia|].
    split; [done|]. split; [done|]. split; [lia|]. split; [done|].
    split; [|done].
    intros e [= <-]. right. eexists. split; [done|]. by destruct lastError as [[|? ?]|].
  - cbn [retry_loop backoff].
    destruct prompt as [text|e0] eqn:Eprompt.
    2: { exists (inr e0), st, []. cbn [length app]. split; [done|]. split; [done|].
         split; [lia|]. split; [done|]. split; [done|]. split.
         { pose proof (backoff_nonneg remaining (S attempt)).
           pose proof (waitTime_range (S attempt)).
           destruct (S attempt <? maxRetries)%nat; lia. }
         split; [done|]. split.
         - intros e [= <-]. by left.
         - by intros e [= <-] _. }
    destruct (callGeminiAPI_returns (provider (S attempt)) (clock (S attempt)) text st Hok)
      as (r1 & st1 & Hcall).
    destruct (callGeminiAPI_trace _ _ _ _ _ _ Hok Hcall)
      as (made1 & Hm1 & Hle1 & Hok1 & Hk1 & Hs1 & _ & Hr1).
    rewrite Hcall. cbv zeta.
    pose proof (keys_of_length _ _ Hk1) as Hlen1.
    destruct (match r1 with
              | inl response => process response
              | inr e => inr (message_of e)
              end) as [result|message] eqn:Eo.
    + exists (inl result), st1, made1. split; [done|]. split; [done|].
      split; [rewrite Nat.mul_succ_l; lia|].
      split; [done|]. split; [done|]. split.
      { pose proof (backoff_nonneg remaining (S attempt)).
        pose proof (waitTime_range (S attempt)).
        destruct (S attempt <? maxRetries)%nat; lia. }
      split; [|done]. intros ? [= <-]. destruct r1 as [response|e]; [|done].
      destruct (Hr1 response eq_refl) as (k & data & _ & Hp & _ & Ht & _).
      exists (S attempt), (length made1), k, data, response.
      split; [lia|]. done.
    + set (st2 := if (S attempt <? maxRetries)%nat
                  then sleep (waitTime (S attempt)) st1 else st1).
      assert (H2 : pool st2 = pool st1 /\ requests st2 = requests st1
                   /\ (slept st1 <= slept st2
                       <= slept st1
                          + (if (S attempt <? maxRetries)%nat
                             then waitTime (S attempt) else 0))%Z).
      { unfold st2. pose proof (waitTime_range (S attempt)).
        destruct (S attempt <? maxRetries)%nat; cbn; repeat split; lia. }
      destruct H2 as (Hp2 & Hr2 & Hs2).
      destruct (IH (S attempt) (Some message) st2)
        as (r & st' & made & -> & Hm & Hle & Hok' & Hk & Hs & Hres & Herr & _).
      { by rewrite Hp2. }
      rewrite Hp2 in Hk, Hle. rewrite Hlen1 in Hle.
      exists r, st', (made ++ made1). split; [done|].
      rewrite Hm, Hr2, Hm1, <- app_assoc, length_app. split; [done|].
      split; [rewrite Nat.mul_succ_l; lia|]. split; [done|]. split; [by rewrite Hk|]. split; [lia|].
      split.
      { intros result Hr.
        destruct (Hres result Hr) as (n & j & k & data & response & Hn & H).
        exists n, j, k, data, response. split; [lia|done]. }
      split; [|done]. intros e He. destruct (Herr e He) as [[? _]|H]; [done|by right].
Qed.

(** A result the loop returns went through the checks. *)
Lemma retry_loop_result :
  forall (remaining attempt : nat) (lastError : option jsstring) (st : state)
         (result : R) (st' : state),
    retry_loop provider clock maxRetries prompt process failure
      remaining attempt lastError st = Some (inl result, st') ->
    exists response, process response = inl result.
Proof.
  induction remaining as [|remaining IH]; intros attempt lastError st result st';
    cbn [retry_loop]; [done|].
  destruct prompt as [text|e0]; [|done].
  destruct (callGeminiAPI _ _ text st) as [[r1 st1]|]; [|done]. cbv zeta.
  destruct r1 as [response|e].
  - destruct (process response) as [res|message] eqn:Ep.
    + intros [= <- <-]. by exists response.
    + apply IH.
  - apply IH.
Qed.

End RetryLoop.

(** *** [generateQuestionsForTopic] *)

Lemma check_questions_ok (JSON_parse : jsstring -> outcome (list ExtractedQuestion))
    (response : jsstring) (questions : list ExtractedQuestion) :
  check_questions JSON_parse response = inl questions ->
  questions <> []
  /\ Forall (fun q => missing_fields q = false /\ wrong_option_count q = false) questions.
Proof.
  unfold check_questions. destruct (is_blank response); [done|].
  destruct (parseJsonRobust JSON_parse response ExpArray) as [qs|]; [|done].
  destruct qs as [|q qs]; [done|]. cbn [length Nat.eqb].
  destruct (existsb _ (q :: qs)) eqn:E; [done|]. intros [= <-]. split; [done|].
  apply Forall_forall. intros x Hx. apply list_elem_of_In in Hx.
  apply orb_false_iff. apply not_true_iff_false. intros Hb.
  assert (Ht : existsb (fun q => missing_fields q || wrong_option_count q) (q :: qs) = true)
    by (apply existsb_exists; by exists x).
  congruence.
Qed.

(** X21: the questions [generateQuestionsForTopic] returns have been
    checked: there is at least one, each has a statement, a type and an
    answer, and each item that calls itself MCQ or MSQ has exactly four
    options.  So two checks of the generation loop never fire on them:
    the one for an empty result, and the validator's demand for options. *)
Theorem generated_questions_checked
    (JSON_parse : jsstring -> outcome (list ExtractedQuestion))
    (provider : nat -> nat -> jsstring -> fetch_result) (clock : nat -> nat -> Z)
    (prompt : jsstring) (st : state) (questions : list ExtractedQuestion) (st' : state) :
  generateQuestionsForTopic JSON_parse provider clock prompt st
  = Some (inl questions, st') ->
  questions <> []
  /\ Forall (fun q => falsy (question_statement q) = false
                       /\ falsy (question_type q) = false
                       /\ falsy (answer q) = false
                       /\ ((type_is MCQ q || type_is MSQ q) = true ->
                           exists opts, options q = Some opts /\ length opts = 4%nat))
       questions
  /\ (forall questionType,
        checkGenerated questionType questions <> RetryEmptyResponse
        /\ checkGenerated questionType questions
           <> RetryInvalid (lit "MCQ/MSQ questions require options")).
Proof.
  unfold generateQuestionsForTopic, retry. intros H.
  apply retry_loop_result in H as (response & H).
  apply check_questions_ok in H as [Hne Hall].
  assert (Hq : Forall (fun q => falsy (question_statement q) = false
                       /\ falsy (question_type q) = false
                       /\ falsy (answer q) = false
                       /\ ((type_is MCQ q || type_is MSQ q) = true ->
                           exists opts, options q = Some opts /\ length opts = 4%nat))
                questions).
  { eapply Forall_impl; [exact Hall|]. intros q [Hm Hw].
    unfold missing_fields in Hm. apply orb_false_iff in Hm as [Hm Ha].
    apply orb_false_iff in Hm as [Hs Ht]. repeat (split; [done|]).
    intros Hty. unfold wrong_option_count in Hw. rewrite Hty in Hw. cbn [andb] in Hw.
    destruct (options q) as [opts|]; [|done]. exists opts. split; [done|].
    apply negb_false_iff in Hw. by apply Nat.eqb_eq. }
  split; [done|]. split; [done|]. intros questionType.
  destruct questions as [|q rest]; [done|]. inversion_clear Hq as [|? ? (Hs & Ht & Ha & Ho) _].
  split.
  { unfold checkGenerated. destruct (negb (isValid _)); [done|].
    destruct (_ && _); [done|]. by destruct (is_wrong _). }
  unfold checkGenerated.
  destruct (isValid (validateQuestionAnswer q)) eqn:Ev; cbn [negb].
  { destruct (_ && _); [done|]. by destruct (is_wrong _). }
  intros [= H]. revert Ev H. unfold validateQuestionAnswer.
  destruct (falsy (question_statement q) || _); cbn [isValid Validation.reason].
  { intros _ H. by vm_compute in H. }
  destruct (falsy (question_type q) || _); cbn [isValid Validation.reason].
  { intros _ H. by vm_compute in H. }
  destruct (type_is MCQ q || type_is MSQ q).
  - destruct (Ho eq_refl) as (opts & -> & Hl). rewrite Hl. by cbn.
  - by cbn.
Qed.

Lemma generated_questions_checked_witness :
  exists st',
    generateQuestionsForTopic (canned [four_options]) (every_call array_reply) steady_clock
      (lit "Write one question.") (fresh three_keys)
    = Some (inl [four_options], st')
    /\ [four_options] <> []
    /\ Forall (fun q => falsy (question_statement q) = false
                         /\ falsy (question_type q) = false
                         /\ falsy (answer q) = false
                         /\ ((type_is MCQ q || type_is MSQ q) = true ->
                             exists opts, options q = Some opts /\ length opts = 4%nat))
         [four_options]
    /\ (forall questionType,
          checkGenerated questionType [four_options] <> RetryEmptyResponse
          /\ checkGenerated questionType [four_options]
             <> RetryInvalid (lit "MCQ/MSQ questions require options")).
Proof.
  eexists. split; [vm_compute; reflexivity|].
  eapply (generated_questions_checked (canned [four_options]) (every_call array_reply)
            steady_clock (lit "Write one question.") (fresh three_keys)).
  vm_compute. reflexivity.
Defined.



(** *** [generateSolutionsForPYQs] *)

Lemma check_items_ok (items : list (option Pyq.Solution)) :
  forall solutions, check_items items = inl solutions ->
  Forall (fun s => falsy (Pyq.answer s) = false /\ falsy (Pyq.solution s) = false)
    solutions.
Proof.
  induction items as [|[solution|] items IH]; intros solutions; cbn [check_items].
  - by intros [= <-].
  - destruct (falsy (Pyq.answer solution) || falsy (Pyq.solution solution)) eqn:E;
      [done|].
    destruct (check_items items) as [rest|]; [|done]. intros [= <-].
    apply orb_false_iff in E. constructor; [done|]. by apply IH.
  - done.
Qed.

Lemma check_solutions_ok (JSON_parse : jsstring -> outcome parsed_solutions)
    (response : jsstring) (solutions : list Pyq.Solution) :
  check_solutions JSON_parse response = inl solutions ->
  Forall (fun s => falsy (Pyq.answer s) = false /\ falsy (Pyq.solution s) = false)
    solutions.
Proof.
  unfold check_solutions.
  destruct (parseJsonRobust JSON_parse response ExpArray) as [[items|[|c t]|]|]; try done.
  - apply check_items_ok.
  - by intros [= <-].
Qed.

(** X23: [generateSolutionsForPYQs] always ends.  With no question it
    returns the empty list without any request.  When one of the
    questions is [null] or has options that are not an array, the
    template of the prompt throws a [TypeError], which leaves the
    function at once: no request was sent, and the error is not the one
    of the retry loop.  Otherwise it makes at most 5 calls of the
    client, hence at most 15 requests per configured key, and besides
    the waits of those calls it waits 30 s at most (3, 6, 9 and 12 s: the
    cap of 15 s is never reached); every solution it returns has an
    answer and a solution text, and the error it throws carries the
    message of the last failure. *)
Theorem generateSolutionsForPYQs_budget
    (JSON_parse : jsstring -> outcome parsed_solutions)
    (provider : nat -> nat -> jsstring -> fetch_result) (clock : nat -> nat -> Z)
    (pyqs : list asked) (prompt : jsstring) (st : state) :
  cursor_ok (pool st) ->
  exists r st' made,
    generateSolutionsForPYQs JSON_parse provider clock pyqs prompt st = Some (r, st')
    /\ requests st' = made ++ requests st
    /\ (length made <= 15 * length (API_KEY_STATES (pool st)))%nat
    /\ (0 <= slept st' - slept st <= 10000 * Z.of_nat (length made) + 30000)%Z
    /\ (pyqs = [] -> r = inl [] /\ st' = st)
    /\ (pyqs <> [] -> forallb readable pyqs = false -> r = inr TypeError /\ st' = st)
    /\ (forall solutions, r = inl solutions ->
          Forall (fun s => falsy (Pyq.answer s) = false
                           /\ falsy (Pyq.solution s) = false) solutions)
    /\ (forall e, r = inr e ->
          (e = TypeError /\ forallb readable pyqs = false /\ st' = st)
          \/ exists message,
               e = Error (lit "Failed to generate PYQ solutions after 5 attempts: "
                          ++ message)
               /\ message <> []).
Proof.
  intros Hok. unfold generateSolutionsForPYQs.
  destruct pyqs as [|q pyqs].
  { exists (inl []), st, []. cbn [length app Nat.eqb]. split; [done|]. split; [done|].
    split; [lia|]. split; [lia|]. split; [done|]. split; [done|].
    split; [by intros ? [= <-]|done]. }
  cbn [length Nat.eqb]. unfold retry.
  destruct (retry_loop_trace provider clock 5 (solutions_prompt (q :: pyqs) prompt)
              (check_solutions JSON_parse)
              (lit "Failed to generate PYQ solutions after 5 attempts: ") 5 0 None st Hok)
    as (r & st' & made & Hrun & Hm & Hle & _ & _ & Hs & _ & He & Hthrow).
  exists r, st', made. split; [done|]. split; [done|]. split; [lia|].
  split; [change (backoff 5 5 0) with 30000%Z in Hs; lia|].
  split; [done|]. split; [|split].
  - intros _ Hbad. apply Hthrow; [|done]. unfold solutions_prompt. by rewrite Hbad.
  - intros solutions ->. apply retry_loop_result in Hrun as (response & Hp).
    by apply check_solutions_ok in Hp.
  - intros e Hr. destruct (He e Hr) as [[Hp ->]|H]; [left|by right].
    unfold solutions_prompt in Hp.
    destruct (forallb readable (q :: pyqs)); [done|]. by injection Hp as <-.
Qed.

Lemma generateSolutionsForPYQs_budget_witness :
  cursor_ok (pool (fresh three_keys))
  /\ exists r st' made,
       generateSolutionsForPYQs (canned (SolutionArray [Some solved]))
         (every_call array_reply) steady_clock
         [Some OptionArray] (lit "Solve one question.") (fresh three_keys) = Some (r, st')
       /\ requests st' = made ++ requests (fresh three_keys)
       /\ (length made <= 15 * length (API_KEY_STATES (pool (fresh three_keys))))%nat
       /\ (0 <= slept st' - slept (fresh three_keys)
           <= 10000 * Z.of_nat (length made) + 30000)%Z
       /\ ([Some OptionArray] = [] -> r = inl [] /\ st' = fresh three_keys)
       /\ ([Some OptionArray] <> [] -> forallb readable [Some OptionArray] = false ->
           r = inr TypeError /\ st' = fresh three_keys)
       /\ (forall solutions, r = inl solutions ->
             Forall (fun s => falsy (Pyq.answer s) = false
                              /\ falsy (Pyq.solution s) = false) solutions)
       /\ (forall e, r = inr e ->
             (e = TypeError /\ forallb readable [Some OptionArray] = false
              /\ st' = fresh three_keys)
             \/ exists message,
                  e = Error (lit "Failed to generate PYQ solutions after 5 attempts: "
                             ++ message)
                  /\ message <> []).
Proof.
  assert (Hok : cursor_ok (pool (fresh three_keys))) by (right; vm_compute; lia).
  split; [exact Hok|].
  apply (generateSolutionsForPYQs_budget (canned (SolutionArray [Some solved]))
           (every_call array_reply) steady_clock [Some OptionArray]
           (lit "Solve one question.") (fresh three_keys) Hok).
Defined.

(** The list of a question whose options are a string: the prompt cannot
    be built, and the error is the [TypeError]. *)
Example solutions_prompt_throws :
  generateSolutionsForPYQs (canned (SolutionArray [Some solved]))
    (every_call array_reply) steady_clock
    [Some NotAnArray] (lit "Solve one question.") (fresh three_keys)
  = Some (inr TypeError, fresh three_keys).
Proof. reflexivity. Qed.

(** *** [validateQuestionWithGeminiAI] and [performExtraction] *)

(** X24: the AI validation fails open once its prompt is built.  It
    throws exactly when the question is [null] or has options that are
    not an array: the template of the prompt, which is outside the [try]
    block, then throws a [TypeError] before any request is sent.
    Otherwise it never throws, and it reports a question as wrong only
    with a verdict parsed from a text the provider sent; when the call
    fails, or the answer cannot be parsed or is parsed to [null], the
    question is reported as correct.  In particular no answer without an
    opening brace can get a question flagged. *)
Theorem validation_throws_or_fails_open
    (JSON_parse : jsstring -> outcome (option Ai.verdict))
    (provider : nat -> jsstring -> fetch_result) (clock : nat -> Z)
    (question : asked) (prompt : jsstring) (st : state) :
  cursor_ok (pool st) ->
  exists r st',
    validateQuestionWithGeminiAI JSON_parse provider clock question prompt st
    = Some (r, st')
    /\ (readable question = false -> r = inr TypeError /\ st' = st)
    /\ (readable question = true ->
        exists v,
          r = inl v
          /\ (Ai.isWrong v = true ->
              exists n k data response,
                provider n k = Ok data /\ text data = Some response
                /\ parseJsonRobust JSON_parse response ExpObject = inl (Some v))
          /\ ((forall n k data response,
                 provider n k = Ok data -> text data = Some response ->
                 Forall (fun c => c <> 123) response) ->
              Ai.isWrong v = false)).
Proof.
  intros Hok. unfold validateQuestionWithGeminiAI, validation_prompt.
  destruct (readable question).
  2: { exists (inr TypeError), st. split; [done|]. by split. }
  destruct (callGeminiAPI_returns provider clock prompt st Hok) as (r1 & st1 & Hcall).
  destruct (callGeminiAPI_trace _ _ _ _ _ _ Hok Hcall) as (made & _ & _ & _ & _ & _ & _ & Hr).
  rewrite Hcall. destruct r1 as [response|e].
  2: { eexists _, _. split; [done|]. split; [done|]. intros _. eexists. split; [done|].
       by split. }
  destruct (Hr response eq_refl) as (k & data & _ & Hp & _ & Ht & _).
  destruct (parseJsonRobust JSON_parse response ExpObject) as [[v|]|m] eqn:Ep.
  2,3: eexists _, _; (split; [done|]); (split; [done|]); intros _; eexists;
       (split; [done|]); by split.
  exists (inl v), st1. split; [done|]. split; [done|]. intros _. exists v.
  split; [done|]. split.
  - intros _. by exists (length made), k, data, response.
  - intros Hno. pose proof (Hno _ _ _ _ Hp Ht) as Hb.
    rewrite (parseJsonRobust_without_bracket JSON_parse response ExpObject Hb) in Ep.
    done.
Qed.

Lemma validation_throws_or_fails_open_witness :
  cursor_ok (pool (fresh three_keys))
  /\ exists r st',
       validateQuestionWithGeminiAI
         (canned (Some (Ai.mkVerdict true (Some (lit "No option is correct")))))
         prose Z.of_nat (Some OptionArray) (lit "Validate this question.")
         (fresh three_keys) = Some (r, st')
       /\ (readable (Some OptionArray) = false ->
           r = inr TypeError /\ st' = fresh three_keys)
       /\ (readable (Some OptionArray) = true ->
           exists v,
             r = inl v
             /\ (Ai.isWrong v = true ->
                 exists n k data response,
                   prose n k = Ok data /\ text data = Some response
                   /\ parseJsonRobust
                        (canned (Some (Ai.mkVerdict true (Some (lit "No option is correct")))))
                        response ExpObject = inl (Some v))
             /\ ((forall n k data response,
                    prose n k = Ok data -> text data = Some response ->
                    Forall (fun c => c <> 123) response) ->
                 Ai.isWrong v = false)).
Proof.
  assert (Hok : cursor_ok (pool (fresh three_keys))) by (right; vm_compute; lia).
  split; [exact Hok|].
  apply (validation_throws_or_fails_open
           (canned (Some (Ai.mkVerdict true (Some (lit "No option is correct")))))
           prose Z.of_nat (Some OptionArray) (lit "Validate this question.")
           (fresh three_keys) Hok).
Defined.

(** A question whose options are a string: the call throws, and no
    request is sent. *)
Example validation_prompt_throws :
  validateQuestionWithGeminiAI
    (canned (Some (Ai.mkVerdict true (Some (lit "No option is correct")))))
    prose Z.of_nat (Some NotAnArray) (lit "Validate this question.") (fresh three_keys)
  = Some (inr TypeError, fresh three_keys).
Proof. reflexivity. Qed.



(** An answer whose brackets are the wrong way round: the fifth strategy
    parses what lies between them, a number, and the page fails although
    the call went through. *)
Example swapped_brackets_throw :
  exists st',
    performExtraction reads_five swapped Z.of_nat (lit "Extract the questions.") 7
      (fresh three_keys)
    = Some (inr (Error (lit "Failed to extract questions from page 7: questions.map is not a function")), st')
    /\ requests st' = [0%nat].
Proof. eexists. by vm_compute. Qed.

End PipelineFacts.

(** ** The quotas of a plan *)

Module PlanFacts.
Import Quota QuotaFacts.
Local Open Scope float_scope.

Lemma ltb_leb (a x : number) : (a <? x) = true -> (a <=? x) = true.
Proof.
  rewrite FloatAxioms.ltb_spec, FloatAxioms.leb_spec. unfold SFltb, SFleb.
  by destruct (SFcompare _ _) as [[]|].
Qed.

(** [Math.max(1, x)] is at least one, unless it is [NaN]. *)
Lemma Math_max_one (x : number) :
  PrimFloat.is_nan (Math_max 1 x) = true \/ (1 <=? Math_max 1 x) = true.
Proof.
  unfold Math_max. destruct (PrimFloat.is_nan 1 || PrimFloat.is_nan x); [by left|].
  destruct (1 <? x) eqn:E; [right; by apply ltb_leb|].
  destruct (x <? 1); [by right|].
  replace (PrimFloat.classify 1) with PNormal by (vm_compute; reflexivity). by right.
Qed.

(** X26: no topic is planned for a fraction of a question below one.
    Every quota of the plan is zero (a zero-weight topic, with a total
    below 500), or [NaN], or at least one: a topic whose weight is not
    zero gets at least one question however small its share, and this
    includes a topic with a negative weight, which counts in neither
    group of the computation. *)
Theorem quota_zero_or_at_least_one (ts : list Topic) (T : number) :
  Forall (fun pl =>
            (questionsToGenerate pl = 0
             /\ hasNoWeightage (topic pl) = true /\ (500 <=? T) = false)
            \/ PrimFloat.is_nan (questionsToGenerate pl) = true
            \/ (1 <=? questionsToGenerate pl) = true)
    (topics (calculateTopicQuestions ts T)).
Proof.
  apply Forall_forall. intros pl Hpl. apply list_elem_of_In in Hpl.
  apply plan_of_topic in Hpl as [_ ->]. unfold hasNoWeightage.
  destruct (or_else (weightage (topic pl)) 0 =? 0).
  - destruct (500 <=? T); [right; by right|by left].
  - right. apply Math_max_one.
Qed.

End PlanFacts.

(** ** The LaTeX cleaner *)

Module LatexFacts.
Import Latex JsFacts RegexFacts SteadyFacts KeyInputFacts.

(** *** Occurrences of a word *)

Lemma is_prefix_app (p s : jsstring) : is_prefix p (p ++ s) = true.
Proof. induction p as [|a p IH]; [done|]. cbn. by rewrite N.eqb_refl, IH. Qed.

Lemma includes_nil (s : jsstring) : includes [] s = true.
Proof. by destruct s. Qed.

Lemma includes_cons_false (pat : jsstring) (c : char) (s : jsstring) :
  includes pat (c :: s) = false -> is_prefix pat (c :: s) = false /\ includes pat s = false.
Proof. cbn [includes]. by intros [? ?]%orb_false_iff. Qed.

(** A pattern with a literal part matches only where that part occurs. *)
Lemma match_lit_includes (pre pat : jsstring) (post : regex) (bol : bool)
    (s : jsstring) (n : nat) :
  match_here (re_lit (pre ++ pat) ++ post) bol s = Some n -> includes pat s = true.
Proof.
  intros H. apply match_here_lit_app in H as (s' & n' & -> & _ & _).
  rewrite <- app_assoc. apply includes_app_r.
  destruct (pat ++ s') eqn:E; cbn [includes]; rewrite <- E, is_prefix_app; done.
Qed.

Lemma search_lit_includes (pre pat : jsstring) (post : regex) (s : jsstring) :
  includes pat s = false ->
  forall bol, search (re_lit (pre ++ pat) ++ post) bol s = None.
Proof.
  induction s as [|c s IH]; intros Hs bol; cbn [search].
  - destruct (match_here _ bol []) eqn:E; [|done].
    apply match_lit_includes in E. congruence.
  - destruct (match_here _ bol (c :: s)) eqn:E.
    + apply match_lit_includes in E. congruence.
    + apply IH. by apply includes_cons_false in Hs as [_ ?].
Qed.

(** The same with one class before the literal part. *)
Lemma search_class_lit (p : char -> bool) (pat : jsstring) (s : jsstring) :
  includes pat s = false ->
  forall bol, search (Cls p :: re_lit pat) bol s = None.
Proof.
  induction s as [|c s IH]; intros Hs bol; cbn [search match_here]; [done|].
  apply includes_cons_false in Hs as [_ Hs].
  destruct (p c); [|by apply IH].
  destruct (match_here (re_lit pat) false s) as [n|] eqn:E; [|by apply IH].
  pose proof (match_here_literal pat [] false s n) as H. rewrite app_nil_r in H.
  apply H in E. destruct s; cbn [includes] in Hs; by rewrite E in Hs.
Qed.

(** *** The rules that need [ackslash] *)

(** A rule whose pattern holds the word [ackslash] literally. *)
Lemma dead_rule (pre : jsstring) (post : regex) (f : jsstring -> jsstring)
    (s : jsstring) :
  includes ackslash s = false ->
  apply_rule s (re_lit (pre ++ ackslash) ++ post, f) = s.
Proof.
  intros H. unfold apply_rule. cbn [fst snd].
  apply gsub_search_none. by apply search_lit_includes.
Qed.

Lemma dead_literal (pre post rep : jsstring) (s : jsstring) :
  includes ackslash s = false ->
  apply_rule s (literal_rule (pre ++ ackslash ++ post) rep) = s.
Proof.
  intros H. unfold literal_rule, re_lit.
  rewrite (app_assoc pre), map_app. by apply dead_rule.
Qed.

Lemma dead_command (name replacement : string) (s : jsstring) :
  includes ackslash s = false -> apply_rule s (command name replacement) = s.
Proof. apply (dead_literal [bs; 98] (lit name)). Qed.

Lemma dead_symbol (c : char) (s : jsstring) :
  includes ackslash s = false -> apply_rule s (symbol c) = s.
Proof.
  intros H. unfold symbol. rewrite <- (app_nil_r ackslash).
  by apply (dead_literal [c] []).
Qed.

Lemma dead_rules (l : list rule) (s : jsstring) :
  Forall (fun r => forall s, includes ackslash s = false -> apply_rule s r = s) l ->
  includes ackslash s = false -> fold_left apply_rule l s = s.
Proof.
  intros Hl Hs. induction Hl as [|r l Hr _ IH]; [done|]. cbn [fold_left].
  by rewrite Hr.
Qed.

Lemma Forall_map_rules {A : Type} (f : A -> rule) (l : list A) (P : rule -> Prop) :
  (forall a, P (f a)) -> Forall P (map f l).
Proof. intros H. induction l; cbn; constructor; auto. Qed.

Lemma dead_backslash_rules (s : jsstring) :
  includes ackslash s = false -> fold_left apply_rule backslash_rules s = s.
Proof.
  apply dead_rules. unfold backslash_rules. repeat constructor.
  - intros s' H. apply (dead_rule [bs; 98] [Cls is_letter] _ s' H).
  - intros s' H. apply (dead_literal [bs; 98] [123] _ s' H).
  - intros s' H. apply (dead_literal [bs; 98] [125] _ s' H).
  - intros s' H. apply (dead_literal [bs; 98] [sp] _ s' H).
Qed.

Lemma dead_tail (s : jsstring) :
  includes ackslash s = false ->
  fold_left apply_rule
    (lowercase_greek ++ uppercase_greek ++ math_commands ++ operators ++ symbol_rules) s
  = s.
Proof.
  apply dead_rules. unfold lowercase_greek, uppercase_greek, math_commands, operators,
    symbol_rules, same.
  repeat (apply Forall_app; split);
    try (apply Forall_map_rules; intros a s' H; first [by apply dead_command
                                                     | by apply dead_symbol]).
  repeat constructor. intros s' H. by apply dead_command.
Qed.

(** *** Replacements that bring in no occurrence of a word *)

Lemma includes_skipn (pat s : jsstring) (n : nat) :
  includes pat s = false -> includes pat (skipn n s) = false.
Proof.
  revert s. induction n as [|n IH]; intros s H; [done|].
  destruct s as [|c s]; [done|]. cbn [skipn]. apply IH.
  by apply includes_cons_false in H as [_ ?].
Qed.

Lemma match_lit_exact (pat : jsstring) (bol : bool) (s : jsstring) (n : nat) :
  match_here (re_lit pat) bol s = Some n -> exists s', s = pat ++ s' /\ n = length pat.
Proof.
  intros H. rewrite <- (app_nil_r (re_lit pat)) in H.
  apply match_here_lit_app in H as (s' & n' & -> & H & ->).
  cbn in H. injection H as <-. exists s'. split; [done|lia].
Qed.

Section Transfer.

(** [Q] holds of words free of the code units the replacements bring
    in; [pat] is such a word. *)
Context (r : regex) (f : jsstring -> jsstring) (Q : jsstring -> Prop).

Hypothesis Q_tail : forall c w, Q (c :: w) -> Q w.
Hypothesis r_empty : forall bol, match_here r bol [] = None.
Hypothesis r_step : forall bol s, match_here r bol s <> Some 0%nat.

(** A word of [Q] that starts a replacement followed by anything starts
    the matched text too. *)
Hypothesis rep_prefix :
  forall bol s n w X,
    match_here r bol s = Some (S n) -> Q w ->
    is_prefix w (f (firstn (S n) s) ++ X) = true -> is_prefix w s = true.

Lemma gsub_prefix_transfer (s : jsstring) :
  forall skip bol w,
    Q w ->
    is_prefix w (gsub_st r (fun (_ : unit) m => (tt, f m)) bol skip tt s).2 = true ->
    is_prefix w (skipn skip s) = true.
Proof using Q_tail r_empty r_step rep_prefix.
  induction s as [|c s IH]; intros skip bol w Hw.
  - cbn [gsub_st]. rewrite r_empty. by destruct skip.
  - cbn [gsub_st]. destruct skip as [|k]; [|apply IH; done].
    cbn [skipn]. destruct (match_here r bol (c :: s)) as [[|n]|] eqn:E.
    + by apply r_step in E.
    + destruct (gsub_st r _ false n tt s) as [[] out]. cbn [snd].
      by apply (rep_prefix bol).
    + specialize (IH 0%nat false).
      destruct (gsub_st r _ false 0 tt s) as [[] out]. cbn [snd] in *.
      destruct w as [|a w]; [done|]. cbn [is_prefix].
      intros [-> H]%andb_true_iff. apply andb_true_iff. split; [done|].
      apply (IH w); [by eapply Q_tail|done].
Qed.

Context (pat : jsstring).

Hypothesis Q_pat : Q pat.

(** A replacement followed by a text free of [pat] is free of [pat], if
    the matched text followed by the rest was. *)
Hypothesis rep_includes :
  forall bol s n X,
    match_here r bol s = Some (S n) ->
    includes pat s = false ->
    (forall w, Q w -> is_prefix w X = true -> is_prefix w (skipn (S n) s) = true) ->
    includes pat X = false ->
    includes pat (f (firstn (S n) s) ++ X) = false.

Lemma gsub_includes_transfer (s : jsstring) :
  forall skip bol,
    includes pat (skipn skip s) = false ->
    includes pat (gsub_st r (fun (_ : unit) m => (tt, f m)) bol skip tt s).2 = false.
Proof using All.
  induction s as [|c s IH]; intros skip bol.
  - cbn [gsub_st]. rewrite r_empty. by destruct skip.
  - destruct skip as [|k]; [|cbn [gsub_st skipn]; apply IH].
    cbn [skipn]. intros Hs.
    pose proof (gsub_prefix_transfer (c :: s) 0 bol) as HA.
    cbn [gsub_st skipn] in HA |- *.
    destruct (match_here r bol (c :: s)) as [[|n]|] eqn:E.
    + by apply r_step in E.
    + pose proof (gsub_prefix_transfer s n false) as HX. specialize (IH n false).
      destruct (gsub_st r _ false n tt s) as [[] out]. cbn [snd] in *.
      apply (rep_includes bol); [done|done|exact HX|].
      apply IH. by apply (includes_skipn pat (c :: s) (S n)).
    + specialize (IH 0%nat false).
      destruct (gsub_st r _ false 0 tt s) as [[] out]. cbn [snd] in *.
      change (includes pat (c :: out))
        with (is_prefix pat (c :: out) || includes pat out).
      apply includes_cons_false in Hs as [Hp Hs].
      rewrite (IH Hs), orb_false_r. apply not_true_iff_false. intros Ht.
      apply (HA pat Q_pat) in Ht. congruence.
Qed.

End Transfer.

(** *** The four live rules *)

(** The words of the patterns, unit by unit. *)
Lemma ackslash_units : ackslash = [97; 99; 107; 115; 108; 97; 115; 104].
Proof. reflexivity. Qed.

Lemma rac_units : rac = [114; 97; 99; 123].
Proof. reflexivity. Qed.

Lemma frac_units : lit "frac{" = [102; 114; 97; 99; 123].
Proof. reflexivity. Qed.

Lemma plain_tail (c : char) (w : jsstring) : plain (c :: w) -> plain w.
Proof. unfold plain. by inversion 1. Qed.

Lemma plain_ackslash : plain ackslash.
Proof. unfold plain. repeat constructor; done. Qed.

Lemma is_prefix_split (p s : jsstring) :
  is_prefix p s = true -> s = p ++ skipn (length p) s.
Proof.
  revert s. induction p as [|a p IH]; intros s; [done|]. destruct s as [|c s]; [done|].
  cbn. intros [->%N.eqb_eq H]%andb_true_iff. f_equal. by apply IH.
Qed.

Lemma is_prefix_match (pat : jsstring) (bol : bool) (s : jsstring) :
  is_prefix pat s = true -> match_here (re_lit pat) bol s = Some (length pat).
Proof.
  revert bol s. induction pat as [|a pat IH]; intros bol s; [done|].
  destruct s as [|c s]; [done|]. cbn [is_prefix].
  intros [->%N.eqb_eq H]%andb_true_iff.
  change (re_lit (c :: pat)) with (Cls (chr c) :: re_lit pat). cbn [match_here length].
  unfold chr. rewrite N.eqb_refl. by rewrite (IH false s H).
Qed.

(** Rule 1 leaves no [ackslash]. *)
Lemma ackslash_prefix (s : jsstring) :
  forall skip bol w,
    plain w ->
    is_prefix w (gsub_st (re_lit ackslash) (fun (_ : unit) _ => (tt, [bs])) bol skip tt s).2
    = true ->
    is_prefix w (skipn skip s) = true.
Proof.
  apply (gsub_prefix_transfer (re_lit ackslash) (fun _ => [bs]) plain plain_tail).
  - done.
  - intros bol s' H. by apply match_lit_exact in H as (? & _ & ?).
  - intros bol s' n w X _ Hw. destruct w as [|a w]; [done|]. cbn.
    inversion_clear Hw as [|? ? [Ha _] _]. by apply N.eqb_neq in Ha as ->.
Qed.

Lemma ackslash_gone_st (s : jsstring) :
  forall skip bol,
    includes ackslash
      (gsub_st (re_lit ackslash) (fun (_ : unit) _ => (tt, [bs])) bol skip tt s).2 = false.
Proof.
  induction s as [|c s IH]; intros skip bol.
  - by destruct skip.
  - destruct skip as [|k]; [|cbn [gsub_st]; apply IH].
    pose proof (ackslash_prefix (c :: s) 0 bol ackslash plain_ackslash) as HA.
    cbn [gsub_st skipn] in HA |- *.
    destruct (match_here (re_lit ackslash) bol (c :: s)) as [[|n]|] eqn:E.
    + by apply match_lit_exact in E as (? & _ & ?).
    + specialize (IH n false).
      destruct (gsub_st (re_lit ackslash) _ false n tt s) as [[] out]. cbn [snd] in *.
      exact IH.
    + specialize (IH 0%nat false).
      destruct (gsub_st (re_lit ackslash) _ false 0 tt s) as [[] out]. cbn [snd] in *.
      change (includes ackslash (c :: out))
        with (is_prefix ackslash (c :: out) || includes ackslash out).
      rewrite IH, orb_false_r. apply not_true_iff_false. intros Ht.
      apply HA in Ht. apply (is_prefix_match ackslash bol) in Ht. congruence.
Qed.

Lemma ackslash_gone (text : jsstring) :
  includes ackslash (apply_rule text rule_ackslash) = false.
Proof. apply ackslash_gone_st. Qed.

(** What the two fraction rules with a class match. *)
Lemma frac_match (p : char -> bool) (bol : bool) (s : jsstring) (n : nat) :
  match_here (Cls p :: re_lit rac) bol s = Some n ->
  exists x s', s = x :: rac ++ s' /\ p x = true /\ n = 5%nat.
Proof.
  destruct s as [|x s]; [done|]. cbn [match_here].
  destruct (p x) eqn:Ep; [|done].
  destruct (match_here (re_lit rac) false s) as [k|] eqn:E; [|done].
  apply match_lit_exact in E as (s' & -> & ->). intros [= <-]. by exists x, s'.
Qed.

Lemma frac_after_keeps (s : jsstring) :
  includes ackslash s = false ->
  includes ackslash (apply_rule s rule_frac_after) = false.
Proof.
  intros H. unfold apply_rule, gsub. cbn [fst snd rule_frac_after].
  apply (gsub_includes_transfer (Cls not_backslash :: re_lit rac)
           (fun m => firstn 1 m ++ bs :: lit "frac{") plain plain_tail); try done.
  - intros bol s' E. by apply frac_match in E as (? & ? & _ & _ & ?).
  - intros bol s' n w X E Hw. apply frac_match in E as (x & s'' & -> & _ & [= ->]).
    rewrite rac_units, frac_units.
    destruct w as [|a [|b w]]; [done| |].
    + cbn. by rewrite !andb_true_r.
    + inversion_clear Hw as [|? ? _ Hw']. inversion_clear Hw' as [|? ? [Hb _] _].
      cbn. apply N.eqb_neq in Hb as ->. by rewrite andb_false_r.
  - apply plain_ackslash.
  - intros bol s' n X E Hs _ HX. apply frac_match in E as (x & s'' & -> & _ & [= ->]).
    rewrite rac_units, frac_units. rewrite ackslash_units in HX |- *.
    cbn. rewrite HX. by rewrite !andb_false_r.
Qed.

Lemma frac_space_keeps (s : jsstring) :
  includes ackslash s = false ->
  includes ackslash (apply_rule s rule_frac_space) = false.
Proof.
  intros H. unfold apply_rule, gsub. cbn [fst snd rule_frac_space].
  apply (gsub_includes_transfer (Cls is_space :: re_lit rac)
           (fun _ => sp :: bs :: lit "frac{") plain plain_tail); try done.
  - intros bol s' E. by apply frac_match in E as (? & ? & _ & _ & ?).
  - intros bol s' n w X E Hw. apply frac_match in E as (x & s'' & -> & _ & [= ->]).
    destruct w as [|a w]; [done|].
    inversion_clear Hw as [|? ? (_ & _ & Ha) _]. cbn [app is_prefix].
    by apply N.eqb_neq in Ha as ->.
  - apply plain_ackslash.
Qed.

(** The rule anchored at the start. *)
Lemma gsub_st_bol_false {St : Type} (r : regex) (f : St -> jsstring -> St * jsstring)
    (st : St) (s : jsstring) :
  forall skip, gsub_st (Bol :: r) f false skip st s = (st, skipn skip s).
Proof.
  induction s as [|c s IH]; intros skip.
  - by destruct skip.
  - destruct skip as [|k]; [|cbn [gsub_st skipn]; apply IH].
    apply gsub_st_search_none, TagFacts.search_bol_false.
Qed.

Lemma frac_start_result (s : jsstring) :
  apply_rule s rule_frac_start
  = if is_prefix rac s then bs :: lit "frac{" ++ skipn 4 s else s.
Proof.
  unfold apply_rule, gsub. cbn [fst snd rule_frac_start].
  destruct s as [|c s]; [done|]. cbn [gsub_st].
  change (match_here (Bol :: re_lit rac) true (c :: s))
    with (match_here (re_lit rac) true (c :: s)).
  destruct (is_prefix rac (c :: s)) eqn:Ep.
  - rewrite (is_prefix_match rac true _ Ep). rewrite rac_units. cbn [length].
    by rewrite gsub_st_bol_false.
  - destruct (match_here (re_lit rac) true (c :: s)) as [n|] eqn:E.
    + pose proof (match_here_literal rac [] true (c :: s) n) as H.
      rewrite app_nil_r in H. apply H in E. congruence.
    + by rewrite gsub_st_bol_false.
Qed.

Lemma frac_start_keeps (s : jsstring) :
  includes ackslash s = false ->
  includes ackslash (apply_rule s rule_frac_start) = false.
Proof.
  intros H. rewrite frac_start_result. destruct (is_prefix rac s) eqn:Ep; [|done].
  pose proof (includes_skipn ackslash s 4 H) as H4.
  rewrite frac_units. rewrite ackslash_units in H4 |- *. cbn. by rewrite H4.
Qed.

Lemma frac_rules_keep (s : jsstring) :
  includes ackslash s = false ->
  includes ackslash (fold_left apply_rule frac_rules s) = false.
Proof.
  intros H. cbn [fold_left frac_rules].
  by apply frac_space_keeps, frac_start_keeps, frac_after_keeps.
Qed.

Lemma cleanLatexSyntax_live (text : jsstring) :
  cleanLatexSyntax text = fold_left apply_rule live_rules text.
Proof.
  unfold cleanLatexSyntax, rules, live_rules. cbn [fold_left].
  do 2 rewrite fold_left_app.
  pose proof (ackslash_gone text) as H1.
  rewrite (dead_backslash_rules _ H1).
  by rewrite (dead_tail _ (frac_rules_keep _ H1)).
Qed.

(** X27: of the 84 replacements of [cleanLatexSyntax] only four can ever
    change a text: the first one, which turns every [ackslash] into a
    backslash, and the three [rac{] rules.  The other eighty all look for
    [ackslash], which the first rule has removed and the fraction rules
    do not bring back; so the cleaner is the chain of those four, and its
    result never contains [ackslash]. *)
Theorem cleanLatexSyntax_live_rules (text : jsstring) :
  cleanLatexSyntax text = fold_left apply_rule live_rules text
  /\ includes ackslash (cleanLatexSyntax text) = false.
Proof.
  split; [apply cleanLatexSyntax_live|]. rewrite cleanLatexSyntax_live.
  unfold live_rules. cbn [fold_left]. apply frac_rules_keep, ackslash_gone.
Qed.

(** *** A correct fraction *)

(** One step of a global replace with a pure callback. *)
Lemma gsub_miss (r : regex) (f : jsstring -> jsstring) (bol : bool) (c : char)
    (s : jsstring) :
  match_here r bol (c :: s) = None ->
  (gsub_st r (fun (_ : unit) m => (tt, f m)) bol 0 tt (c :: s)).2
  = c :: (gsub_st r (fun (_ : unit) m => (tt, f m)) false 0 tt s).2.
Proof.
  intros H. cbn [gsub_st]. rewrite H.
  by destruct (gsub_st r _ false 0 tt s) as [[] out].
Qed.

Lemma gsub_hit (r : regex) (f : jsstring -> jsstring) (bol : bool) (c : char)
    (s : jsstring) (n : nat) :
  match_here r bol (c :: s) = Some (S n) ->
  (gsub_st r (fun (_ : unit) m => (tt, f m)) bol 0 tt (c :: s)).2
  = f (firstn (S n) (c :: s))
    ++ (gsub_st r (fun (_ : unit) m => (tt, f m)) false n tt s).2.
Proof.
  intros H. cbn [gsub_st]. rewrite H.
  by destruct (gsub_st r _ false n tt s) as [[] out].
Qed.

Lemma gsub_skip {St : Type} (r : regex) (f : St -> jsstring -> St * jsstring)
    (st : St) (u s : jsstring) :
  gsub_st r f false (length u) st (u ++ s) = gsub_st r f false 0 st s.
Proof. induction u as [|c u IH]; [done|]. cbn [length app gsub_st]. exact IH. Qed.

Lemma search_class_app (p : char -> bool) (r : regex) (u s : jsstring) :
  Forall (fun c => p c = false) u ->
  search (Cls p :: r) false s = None ->
  forall bol, search (Cls p :: r) bol (u ++ s) = None.
Proof.
  intros Hu Hs. induction Hu as [|c u Hc _ IH]; intros bol.
  - destruct s as [|c s]; [done|]. exact Hs.
  - cbn [app search match_here]. rewrite Hc. apply IH.
Qed.

(** A run of backslashes and letters f that ends in a backslash. *)
Lemma last_cons_cons {A : Type} (a b : A) (l : list A) : last (a :: b :: l) = last (b :: l).
Proof. done. Qed.

Lemma fraction_no_ackslash (pre rest : jsstring) :
  Forall (fun c => c = bs \/ c = 102) pre ->
  includes ackslash rest = false ->
  includes ackslash (pre ++ lit "frac{" ++ rest) = false.
Proof.
  intros Hpre Hrest. rewrite frac_units. rewrite ackslash_units in Hrest |- *.
  induction Hpre as [|c pre [->| ->] _ IH].
  - cbn. by rewrite Hrest.
  - cbn [app] in IH |- *. cbn [includes]. by rewrite IH.
  - cbn [app] in IH |- *. cbn [includes]. by rewrite IH.
Qed.

Lemma frac_after_on_fraction (pre rest : jsstring) :
  Forall (fun c => c = bs \/ c = 102) pre ->
  pre = [] \/ last pre = Some bs ->
  includes rac rest = false ->
  forall bol,
    (gsub_st (Cls not_backslash :: re_lit rac)
       (fun (_ : unit) m => (tt, firstn 1 m ++ bs :: lit "frac{")) bol 0 tt
       (pre ++ lit "frac{" ++ rest)).2
    = pre ++ 102 :: bs :: lit "frac{" ++ rest.
Proof.
  intros Hpre Hlast Hrest.
  induction Hpre as [|c pre Hc Hpre IH]; intros bol.
  - rewrite frac_units. cbn [app].
    rewrite (gsub_hit _ _ bol 102 _ 4) by (by rewrite rac_units).
    change (114 :: 97 :: 99 :: 123 :: rest) with ([114; 97; 99; 123] ++ rest).
    rewrite (gsub_skip _ _ tt [114; 97; 99; 123] rest).
    rewrite gsub_st_search_none by (by apply search_class_lit).
    done.
  - cbn [app]. rewrite gsub_miss.
    + rewrite IH; [done|]. destruct Hlast as [|Hlast]; [done|].
      destruct pre as [|d pre]; [by left|right]. by rewrite last_cons_cons in Hlast.
    + cbn [match_here]. destruct Hc as [->| ->]; [done|].
      destruct pre as [|d pre].
      * destruct Hlast as [|Hlast]; [done|]. by cbn in Hlast.
      * inversion_clear Hpre as [|? ? Hd _]. rewrite rac_units. cbn.
        by destruct Hd as [->| ->].
Qed.

(** What the cleaner makes of a fraction command that follows a run of
    backslashes and letters f ending in a backslash. *)
Lemma fraction_pass (pre rest : jsstring) :
  Forall (fun c => c = bs \/ c = 102) pre ->
  last pre = Some bs ->
  includes rac rest = false ->
  includes ackslash rest = false ->
  cleanLatexSyntax (pre ++ lit "frac{" ++ rest)
  = (pre ++ [102; bs]) ++ lit "frac{" ++ rest.
Proof.
  intros Hpre Hlast Hrac Hack. rewrite cleanLatexSyntax_live.
  unfold live_rules, frac_rules. cbn [fold_left].
  (* rule 1 *)
  replace (apply_rule (pre ++ lit "frac{" ++ rest) rule_ackslash)
    with (pre ++ lit "frac{" ++ rest).
  2: { symmetry. apply (dead_literal [] [] [bs]). by apply fraction_no_ackslash. }
  (* the rule after a character *)
  replace (apply_rule (pre ++ lit "frac{" ++ rest) rule_frac_after)
    with (pre ++ 102 :: bs :: lit "frac{" ++ rest).
  2: { symmetry. apply frac_after_on_fraction; auto. }
  (* the rule at the start *)
  assert (Hhead : exists c w, pre = c :: w /\ (c = bs \/ c = 102)).
  { destruct pre as [|c w]; [done|]. inversion_clear Hpre. by exists c, w. }
  destruct Hhead as (c & w & Epre & Hc).
  rewrite frac_start_result.
  replace (is_prefix rac (pre ++ 102 :: bs :: lit "frac{" ++ rest)) with false.
  2: { rewrite Epre, rac_units. cbn. by destruct Hc as [->| ->]. }
  (* the rule after whitespace *)
  unfold apply_rule. cbn [fst snd rule_frac_space].
  rewrite gsub_search_none; [by rewrite <- app_assoc|].
  replace (pre ++ 102 :: bs :: lit "frac{" ++ rest)
    with ((pre ++ 102 :: bs :: lit "frac{") ++ rest)
    by (by rewrite <- app_assoc).
  apply search_class_app; [|by apply search_class_lit].
  apply Forall_app. split; [|by repeat constructor].
  eapply Forall_impl; [exact Hpre|]. by intros x [->| ->].
Qed.

(** X28: the cleaner damages a correct fraction command, a little more
    with every pass: the letter f of [\frac{] is taken for the character
    before a truncated [rac{], so each pass puts one more backslash and f
    in front of the command.  After [n] passes a text that began with the
    command begins with a backslash, [n] times f and a backslash, and the
    command. *)
Theorem fraction_damaged_by_each_pass (rest : jsstring) (n : nat) :
  includes rac rest = false ->
  includes ackslash rest = false ->
  Nat.iter n cleanLatexSyntax (bs :: lit "frac{" ++ rest)
  = (bs :: concat (replicate n [102; bs])) ++ lit "frac{" ++ rest.
Proof.
  intros Hrac Hack. induction n as [|n IH]; [done|].
  cbn [Nat.iter nat_rect]. change (nat_rect _ _ _ n) with
    (Nat.iter n cleanLatexSyntax (bs :: lit "frac{" ++ rest)).
  rewrite IH.
  assert (Hsnoc : forall k, concat (replicate k [102; bs]) ++ [102; bs]
                            = concat (replicate (S k) [102; bs])).
  { induction k as [|k IHk]; [done|].
    change (concat (replicate (S k) [102; bs]))
      with ([102; bs] ++ concat (replicate k [102; bs])).
    rewrite <- app_assoc, IHk. done. }
  assert (Hrun : forall k, Forall (fun c => c = bs \/ c = 102)
                             (bs :: concat (replicate k [102; bs]))
                           /\ last (bs :: concat (replicate k [102; bs])) = Some bs).
  { induction k as [|k (H1 & H2)]; [by repeat constructor|].
    rewrite <- Hsnoc, app_comm_cons. split.
    - apply Forall_app. split; [done|]. by repeat constructor.
    - by rewrite !last_app. }
  assert (H3 := Hsnoc n).
  destruct (Hrun n) as (H1 & H2).
  rewrite (fraction_pass _ rest H1 H2 Hrac Hack).
  by rewrite <- app_comm_cons, H3.
Qed.

Lemma fraction_damaged_by_each_pass_witness :
  includes rac (lit "a}{b}") = false
  /\ includes ackslash (lit "a}{b}") = false
  /\ Nat.iter 2 cleanLatexSyntax (bs :: lit "frac{" ++ lit "a}{b}")
     = (bs :: concat (replicate 2 [102; bs])) ++ lit "frac{" ++ lit "a}{b}".
Proof.
  split; [reflexivity|]. split; [reflexivity|].
  apply (fraction_damaged_by_each_pass (lit "a}{b}") 2); reflexivity.
Defined.

(** X29: a text that holds neither [ackslash] nor [rac{] comes out of
    the cleaner as it went in: none of the 84 rules finds a match. *)
Theorem cleanLatexSyntax_leaves_clean_text (text : jsstring) :
  includes ackslash text = false ->
  includes rac text = false ->
  cleanLatexSyntax text = text.
Proof.
  intros Hack Hrac. rewrite cleanLatexSyntax_live.
  unfold live_rules, frac_rules. cbn [fold_left].
  replace (apply_rule text rule_ackslash) with text
    by (symmetry; by apply (dead_literal [] [] [bs])).
  replace (apply_rule text rule_frac_after) with text.
  2: { symmetry. apply gsub_search_none. by apply search_class_lit. }
  rewrite frac_start_result.
  replace (is_prefix rac text) with false.
  2: { symmetry. destruct text as [|c s]; [done|].
       by destruct (includes_cons_false _ _ _ Hrac). }
  apply gsub_search_none. by apply search_class_lit.
Qed.

Lemma cleanLatexSyntax_leaves_clean_text_witness :
  includes ackslash clean_formula = false
  /\ includes rac clean_formula = false
  /\ cleanLatexSyntax clean_formula = clean_formula.
Proof.
  split; [reflexivity|]. split; [reflexivity|].
  apply (cleanLatexSyntax_leaves_clean_text clean_formula); reflexivity.
Defined.

End LatexFacts.
